(** * playwright-agent: the perception-and-action loop

    A shallow embedding of the TypeScript sources of the agent
    (src/dom/domTree.ts, src/PlaywrightController.ts, src/actions.ts,
    src/tools/index.ts, src/utils/index.ts, src/PlaywrightAgent.ts) and
    the properties of its specification that are stated about them.

    Conventions of the embedding.
    - A JavaScript string is a [string]: one [ascii] stands for one code
      unit, so code units above 255 are outside the model.  [String.length]
      is [.length].  The marks that open some result messages are such
      characters: the constants hold their UTF-8 bytes, and no function of
      the model looks inside a message.
    - A property that may be absent ([x?: T], or [undefined] at run time) is
      an [option].
    - A plain object used as a dictionary is a [gmap]; the keys of the flat
      tree, which the extractor produces as [String(ID.current++)], are the
      counter values themselves ([String] is injective on them).
    - Everything the browser, the clock and the language model decide is an
      explicit argument (a record of answers), never a constant. *)

From Stdlib Require Import Ascii String QArith Qround Qabs.
From stdpp Require Import base strings gmap list pretty sorting.

Open Scope Z_scope.
Open Scope nat_scope.

(** ** JavaScript helpers *)

Module Js.

(** White space and line terminators removed by [String.prototype.trim],
    among the code units of the model: TAB, LF, VT, FF, CR, SP, NBSP. *)
Definition is_white (c : ascii) : bool :=
  match c with
  | "009" | "010" | "011" | "012" | "013" | " " | "160" => true
  | _ => false
  end%char.

Fixpoint trimStart (s : string) : string :=
  match s with
  | String c s' => if is_white c then trimStart s' else s
  | EmptyString => EmptyString
  end.

Definition trimEnd (s : string) : string :=
  String.rev (trimStart (String.rev s)).

Definition trim (s : string) : string := trimEnd (trimStart s).

(** [toLowerCase] on the code units of the model: A-Z, and the Latin-1
    capitals 192..222 except the multiplication sign 215. *)
Definition lower_char (c : ascii) : ascii :=
  let n := nat_of_ascii c in
  if ((65 <=? n) && (n <=? 90))
     || ((192 <=? n) && (n <=? 222) && negb (n =? 215))
  then ascii_of_nat (n + 32) else c.

Fixpoint toLowerCase (s : string) : string :=
  match s with
  | String c s' => String (lower_char c) (toLowerCase s')
  | EmptyString => EmptyString
  end.

(** [text.substring(0, n)]. *)
Fixpoint substring0 (n : nat) (s : string) : string :=
  match n, s with
  | S n', String c s' => String c (substring0 n' s')
  | _, _ => EmptyString
  end.

(** [parts.join(sep)]. *)
Fixpoint join (sep : string) (parts : list string) : string :=
  match parts with
  | [] => ""
  | [p] => p
  | p :: rest => p +:+ sep +:+ join sep rest
  end.

(** ['\t'.repeat(n)]. *)
Fixpoint repeat_tab (n : nat) : string :=
  match n with
  | O => ""
  | S n' => String "009"%char (repeat_tab n')
  end.

(** The property names every plain object inherits from
    [Object.prototype]; [k in {}] is true for each of them. *)
Definition Object_prototype_names : list string :=
  [ "constructor"; "__defineGetter__"; "__defineSetter__"; "hasOwnProperty";
    "__lookupGetter__"; "__lookupSetter__"; "isPrototypeOf";
    "propertyIsEnumerable"; "toString"; "valueOf"; "__proto__";
    "toLocaleString" ].

(** [k in obj] for a plain object [obj] whose own keys are [own]. *)
Definition in_object (k : string) (own : list string) : bool :=
  bool_decide (k ∈ own) || bool_decide (k ∈ Object_prototype_names).

(** [s || d] on strings: the empty string and [undefined] are falsy. *)
Definition or_string (s : option string) (d : string) : string :=
  match s with
  | Some (String c r) => String c r
  | _ => d
  end.

(** The line feed, and the strings without one. *)
Definition LF : ascii := "010"%char.

Fixpoint has_char (c : ascii) (s : string) : bool :=
  match s with
  | String c' s' => Ascii.eqb c' c || has_char c s'
  | EmptyString => false
  end.

(** A string that is empty or begins with a character that is not white
    space, and one that is empty or ends with one. *)
Definition starts_black (s : string) : bool :=
  match s with
  | String c _ => negb (is_white c)
  | EmptyString => true
  end.

Fixpoint ends_black (s : string) : bool :=
  match s with
  | String c EmptyString => negb (is_white c)
  | String _ s' => ends_black s'
  | EmptyString => true
  end.

End Js.

(** ** src/dom/type.ts *)

Record Locator := { selector : string }.

Record ScrollData := { sd_top : Z; sd_right : Z; sd_bottom : Z; sd_left : Z }.

(** [extra = { scrollable: true, scrollData }]. *)
Record Extra := { scrollable : bool; scrollData : option ScrollData }.

Record TextDomNode := { text : string; text_isVisible : bool }.

(** [ElementDomNode | InteractiveElementDomNode]: the two interfaces have
    the same fields, the interactive one with [isInteractive: true] and a
    [locator]. *)
Record ElementDomNode := {
  tagName : string;
  attributes : option (gmap string string);
  children : option (list nat);
  isVisible : option bool;
  isTopElement : option bool;
  isInViewport : option bool;
  isNew : option bool;
  isInteractive : option bool;
  highlightIndex : option nat;
  locator : option Locator;
  extra : option Extra
}.

Inductive DomNode :=
| TEXT_NODE (t : TextDomNode)
| ELEMENT (e : ElementDomNode).

Record FlatDomTree := { rootId : nat; map : gmap nat DomNode }.

(** ** The live page, as the in-page script of [getFlatTree] reads it *)

Module Browser.

Record ComputedStyle := {
  cursor : string;
  visibility : string;
  display : string;
  overflowX : string;
  overflowY : string
}.

(** [getBoundingClientRect()], in CSS pixels taken as integers.  The
    width and the height of this rectangle are not negative, so that its
    [right] is [left + width] and its [bottom] is [top + height]. *)
Record DOMRect := {
  left : Z; top : Z; width : N; height : N
}.

Definition right (r : DOMRect) : Z := left r + Z.of_N (width r).

Definition bottom (r : DOMRect) : Z := top r + Z.of_N (height r).

(** One element of the page: the properties the script reads.
    [hitFromCentre] is the answer of the hit test in [isTopElement] when
    the centre of the rectangle lies in the window:
    [document.elementFromPoint] at the centre returned an element from
    which [parentElement] steps reach this element before
    [document.documentElement].  For a point outside the window
    [elementFromPoint] is [null], whatever the page. *)
Record Element := {
  el_tagName : string;
  el_attributes : list (string * string);
  disabled : bool;
  readOnly : bool;
  style : ComputedStyle;
  offsetWidth : Z;
  offsetHeight : Z;
  rect : DOMRect;
  hitFromCentre : bool;
  isContentEditable : bool;
  onclickIsFunction : bool;
  el_type : string;
  checked : bool;
  scrollWidth : Z;
  clientWidth : Z;
  scrollHeight : Z;
  clientHeight : Z;
  scrollTop : Z;
  scrollLeft : Z
}.

(** [Node]: a text node with its [textContent], an element with its
    [childNodes], or a node of another type (comment, ...). *)
#[warnings="-register-all"]
Inductive Node :=
| Text (textContent : string)
| Elem (element : Element) (childNodes : list Node)
| Other.

Record Window := { innerWidth : Z; innerHeight : Z }.

(** The document: [body] is [document.body] ([None] when it is [null]),
    [outside] holds the nodes of the document that are not in the body's
    subtree. *)
Record Document := { outside : list Node; body : option Node }.

Definition marker : string := "data-pw-agent-index".

Fixpoint assoc (name : string) (attrs : list (string * string))
  : option string :=
  match attrs with
  | [] => None
  | (k, v) :: rest => if decide (k = name) then Some v else assoc name rest
  end.

Definition getAttribute (name : string) (e : Element) : option string :=
  assoc name (el_attributes e).

Definition hasAttribute (name : string) (e : Element) : bool :=
  bool_decide (name ∈ (fst <$> el_attributes e)).

Definition with_attributes (e : Element) (attrs : list (string * string))
  : Element :=
  {| el_tagName := el_tagName e; el_attributes := attrs;
     disabled := disabled e; readOnly := readOnly e; style := style e;
     offsetWidth := offsetWidth e; offsetHeight := offsetHeight e;
     rect := rect e; hitFromCentre := hitFromCentre e;
     isContentEditable := isContentEditable e;
     onclickIsFunction := onclickIsFunction e;
     el_type := el_type e; checked := checked e;
     scrollWidth := scrollWidth e; clientWidth := clientWidth e;
     scrollHeight := scrollHeight e; clientHeight := clientHeight e;
     scrollTop := scrollTop e; scrollLeft := scrollLeft e |}.

Definition removeAttribute (name : string) (e : Element) : Element :=
  with_attributes e (filter (λ kv, fst kv ≠ name) (el_attributes e)).

(** [setAttribute]: the value of an existing attribute is replaced in
    place, a new attribute goes last. *)
Definition setAttribute (name value : string) (e : Element) : Element :=
  with_attributes e
    (if hasAttribute name e
     then (λ kv, if decide (fst kv = name) then (name, value) else kv)
            <$> el_attributes e
     else el_attributes e ++ [(name, value)]).

(** All elements of a subtree, in document order. *)
Fixpoint elements (n : Node) : list Element :=
  match n with
  | Elem e cs => e :: concat (elements <$> cs)
  | _ => []
  end.

Definition document_elements (d : Document) : list Element :=
  concat (elements <$> outside d) ++ from_option elements [] (body d).

(** [document.querySelectorAll('[data-pw-agent-index="v"]')], which is
    what the locator of index [v] resolves to. *)
Definition query_marker (v : string) (d : Document) : list Element :=
  filter (λ e, getAttribute marker e = Some v) (document_elements d).

(** What the locator built by [page.locator(selector)] resolves to in the
    document, for a selector of the form [[data-pw-agent-index="v"]]: the
    elements whose marker attribute has the value [v]. *)
Definition matches (l : Locator) (e : Element) : bool :=
  match getAttribute marker e with
  | Some v =>
      bool_decide (selector l = "[data-pw-agent-index=" +:+ String "034"%char v
                                  +:+ String "034"%char "]")
  | None => false
  end.

Definition resolve (l : Locator) (d : Document) : list Element :=
  filter (λ e, matches l e = true) (document_elements d).

(** The values of the marker attribute in a subtree and in the document,
    in document order. *)
Definition markers (n : Node) : list string :=
  omap (getAttribute marker) (elements n).

Definition document_markers (d : Document) : list string :=
  omap (getAttribute marker) (document_elements d).

(** A node and all the nodes below it. *)
Fixpoint subtrees (n : Node) : list Node :=
  match n with
  | Elem e cs => n :: concat (subtrees <$> cs)
  | _ => [n]
  end.

(** The first statement of the script: drop the marker everywhere. *)
Fixpoint clean_node (n : Node) : Node :=
  match n with
  | Elem e cs => Elem (removeAttribute marker e) (clean_node <$> cs)
  | _ => n
  end.

Definition clean (d : Document) : Document :=
  {| outside := clean_node <$> outside d;
     body := clean_node <$> body d |}.

End Browser.

(** ** src/config/constants.ts *)

Definition MAX_STEPS : nat := 50.

Definition VIEWPORT_EXPANSION : Z := (-1)%Z.

(** ** src/dom/domTree.ts: the extractor *)

Module DomTree.
Import Browser.

Record DomTreeConfig := {
  viewportExpansion : option Z;
  include_attributes : option (list string)
}.

(** [nodeData], as the statements of [buildDomTree] fill it in. *)
Definition nodeData_new (tagName : string) : ElementDomNode :=
  {| tagName := tagName; attributes := Some ∅; children := Some [];
     isVisible := None; isTopElement := None; isInViewport := None;
     isNew := None; isInteractive := None; highlightIndex := None;
     locator := None; extra := None |}.

Definition set_visible (top inViewport : bool) (d : ElementDomNode)
  : ElementDomNode :=
  {| tagName := tagName d; attributes := attributes d;
     children := children d;
     isVisible := Some true; isTopElement := Some top;
     isInViewport := Some inViewport;
     isNew := isNew d; isInteractive := isInteractive d;
     highlightIndex := highlightIndex d; locator := locator d;
     extra := extra d |}.

Definition set_interactive (d : ElementDomNode) : ElementDomNode :=
  {| tagName := tagName d; attributes := attributes d;
     children := children d;
     isVisible := isVisible d; isTopElement := isTopElement d;
     isInViewport := isInViewport d;
     isNew := isNew d; isInteractive := Some true;
     highlightIndex := highlightIndex d; locator := locator d;
     extra := extra d |}.

Definition set_index (i : nat) (attrs : gmap string string)
  (d : ElementDomNode) : ElementDomNode :=
  {| tagName := tagName d; attributes := Some attrs;
     children := children d;
     isVisible := isVisible d; isTopElement := isTopElement d;
     isInViewport := isInViewport d;
     isNew := isNew d; isInteractive := isInteractive d;
     highlightIndex := Some i; locator := locator d;
     extra := extra d |}.

Definition set_extra (x : Extra) (d : ElementDomNode) : ElementDomNode :=
  {| tagName := tagName d; attributes := attributes d;
     children := children d;
     isVisible := isVisible d; isTopElement := isTopElement d;
     isInViewport := isInViewport d;
     isNew := isNew d; isInteractive := isInteractive d;
     highlightIndex := highlightIndex d; locator := locator d;
     extra := Some x |}.

Definition set_children (ids : list nat) (d : ElementDomNode)
  : ElementDomNode :=
  {| tagName := tagName d; attributes := attributes d;
     children := Some ids;
     isVisible := isVisible d; isTopElement := isTopElement d;
     isInViewport := isInViewport d;
     isNew := isNew d; isInteractive := isInteractive d;
     highlightIndex := highlightIndex d; locator := locator d;
     extra := extra d |}.

(** The [interactiveNode] literal of [getFlatTree]; it does not copy
    [isNew]. *)
Definition set_locator (l : Locator) (d : ElementDomNode) : ElementDomNode :=
  {| tagName := tagName d; attributes := attributes d;
     children := children d;
     isVisible := isVisible d; isTopElement := isTopElement d;
     isInViewport := isInViewport d;
     isNew := None; isInteractive := Some true;
     highlightIndex := highlightIndex d; locator := Some l;
     extra := extra d |}.

Definition interactiveElements : list string :=
  ["a"; "button"; "input"; "select"; "textarea"; "details"; "summary";
   "label"].

Definition interactiveCursors : list string :=
  ["pointer"; "text"; "grab"; "grabbing"].

Definition interactiveRoles : list string :=
  ["button"; "link"; "menuitem"; "checkbox"; "radio"; "tab"; "switch";
   "textbox"; "combobox"].

Definition skipTags : list string :=
  ["script"; "style"; "link"; "meta"; "noscript"; "template"].

Definition isInteractiveElement (element : Element) : bool :=
  let tagName := Js.toLowerCase (el_tagName element) in
  if bool_decide (tagName ∈ interactiveElements) then
    negb (disabled element || readOnly element)
  else if bool_decide (cursor (style element) ∈ interactiveCursors) then true
  else if isContentEditable element
          || bool_decide (getAttribute "contenteditable" element = Some "true")
  then true
  else if match getAttribute "role" element with
          | Some role => bool_decide (role ∈ interactiveRoles)
          | None => false
          end
  then true
  else hasAttribute "onclick" element || onclickIsFunction element.

Definition isElementVisible (element : Element) : bool :=
  (0 <? offsetWidth element)%Z
  && (0 <? offsetHeight element)%Z
  && bool_decide (visibility (style element) ≠ "hidden")
  && bool_decide (display (style element) ≠ "none").

Definition isInViewport (w : Window) (element : Element) (expansion : Z)
  : bool :=
  if (expansion =? -1)%Z then true
  else
    let r := rect element in
    negb ((bottom r <? - expansion)%Z
          || (innerHeight w + expansion <? top r)%Z
          || (right r <? - expansion)%Z
          || (innerWidth w + expansion <? left r)%Z).

(** The point [(left + width / 2, top + height / 2)] is one that
    [document.elementFromPoint] answers for: neither coordinate is
    negative or greater than the size of the window.  The halves are
    avoided by doubling. *)
Definition centre_in_window (w : Window) (r : DOMRect) : bool :=
  (0 <=? 2 * left r + Z.of_N (width r))%Z
  && (2 * left r + Z.of_N (width r) <=? 2 * innerWidth w)%Z
  && (0 <=? 2 * top r + Z.of_N (height r))%Z
  && (2 * top r + Z.of_N (height r) <=? 2 * innerHeight w)%Z.

Definition isTopElement (w : Window) (element : Element) (expansion : Z)
  : bool :=
  if (expansion =? -1)%Z then true
  else if (width (rect element) =? 0)%N || (height (rect element) =? 0)%N
  then false
  else centre_in_window w (rect element) && hitFromCentre element.

(** [attrs[attr.name] = attr.value] for each attribute in turn, then the
    [checked] sidecar of check boxes and radio buttons. *)
Definition getElementAttributes (element : Element) : gmap string string :=
  let attrs :=
    foldl (λ (m : gmap string string) kv, <[fst kv := snd kv]> m) ∅
          (el_attributes element) in
  if bool_decide (Js.toLowerCase (el_tagName element) = "input")
     && (bool_decide (el_type element = "checkbox")
         || bool_decide (el_type element = "radio"))
  then <["checked" := if checked element then "true" else "false"]> attrs
  else attrs.

Definition isScrollableElement (element : Element) : option ScrollData :=
  let overflowX := overflowX (style element) in
  let overflowY := overflowY (style element) in
  let scrollableX :=
    bool_decide (overflowX = "auto") || bool_decide (overflowX = "scroll") in
  let scrollableY :=
    bool_decide (overflowY = "auto") || bool_decide (overflowY = "scroll") in
  if negb scrollableX && negb scrollableY then None
  else
    let scrollWidth := (scrollWidth element - clientWidth element)%Z in
    let scrollHeight := (scrollHeight element - clientHeight element)%Z in
    if (scrollWidth <? 4)%Z && (scrollHeight <? 4)%Z then None
    else Some
      {| sd_top := scrollTop element;
         sd_right := (Browser.scrollWidth element - clientWidth element
                      - scrollLeft element)%Z;
         sd_bottom := (Browser.scrollHeight element - clientHeight element
                       - scrollTop element)%Z;
         sd_left := scrollLeft element |}.

(** The mutable variables of the script: [ID.current], [DOM_HASH_MAP]
    and [highlightIndex]. *)
Record Walk := {
  ID : nat;
  DOM_HASH_MAP : gmap nat DomNode;
  nextIndex : nat
}.

Definition walk_start : Walk :=
  {| ID := 0; DOM_HASH_MAP := ∅; nextIndex := 0 |}.

(** The block "Check visibility and interactivity" of [buildDomTree]:
    the node data, the element as the block leaves it on the page (with
    the marker when an index was assigned) and the next index. *)
Definition classify (w : Window) (expansion : Z) (element : Element)
  (d : ElementDomNode) (next : nat) : ElementDomNode * Element * nat :=
  if isElementVisible element then
    let top := isTopElement w element expansion in
    let inViewport := isInViewport w element expansion in
    let d := set_visible top inViewport d in
    if top && isInteractiveElement element then
      let d := set_interactive d in
      if inViewport || (expansion =? -1)%Z then
        (set_index next (getElementAttributes element) d,
         setAttribute marker (pretty next) element,
         S next)
      else (d, element, next)
    else (d, element, next)
  else (d, element, next).

(** The block "Check scrollability". *)
Definition scrollability (element : Element) (d : ElementDomNode)
  : ElementDomNode :=
  match isScrollableElement element with
  | Some scrollData =>
      set_extra {| scrollable := true; scrollData := Some scrollData |} d
  | None => d
  end.

(** A text child: a [TEXT_NODE] entry when the trimmed content is not
    empty. *)
Definition text_child (textContent : string) (s : Walk)
  : option nat * Walk :=
  let textContent := Js.trim textContent in
  if bool_decide (textContent = "") then (None, s)
  else
    (Some (ID s),
     {| ID := S (ID s);
        DOM_HASH_MAP :=
          <[ID s := TEXT_NODE {| text := textContent;
                                 text_isVisible := true |}]>
            (DOM_HASH_MAP s);
        nextIndex := nextIndex s |}).

(** One turn of the loop "Process children" of [buildDomTree], [build]
    being [buildDomTree] itself: the id pushed to [nodeData.children] if
    any, the child as the turn leaves it on the page, and the variables of
    the script afterwards. *)
Definition child_step (build : Node → Walk → option nat * Node * Walk)
  (child : Node) (s : Walk) : option nat * Node * Walk :=
  match child with
  | Text textContent =>
      let '(id, s) := text_child textContent s in (id, child, s)
  | Elem _ _ => build child s
  | Other => (None, child, s)
  end.

(** The loop "Process children". *)
Definition process_children
  (build : Node → Walk → option nat * Node * Walk)
  : list Node → Walk → list nat * list Node * Walk :=
  fix process (childNodes : list Node) (s : Walk) :=
    match childNodes with
    | [] => ([], [], s)
    | child :: rest =>
        let '(id, child', s) := child_step build child s in
        let '(ids, rest', s) := process rest s in
        (option_list id ++ ids, child' :: rest', s)
    end.

Definition set_nextIndex (next : nat) (s : Walk) : Walk :=
  {| ID := ID s; DOM_HASH_MAP := DOM_HASH_MAP s; nextIndex := next |}.

(** [DOM_HASH_MAP[id] = nodeData] with [id = String(ID.current++)]. *)
Definition record_node (nodeData : ElementDomNode) (s : Walk) : nat * Walk :=
  (ID s,
   {| ID := S (ID s);
      DOM_HASH_MAP := <[ID s := ELEMENT nodeData]> (DOM_HASH_MAP s);
      nextIndex := nextIndex s |}).

(** [buildDomTree(node)]: the id of the node's entry ([None] for [null]),
    the node as the walk leaves it on the page, and the variables of the
    script afterwards. *)
Fixpoint buildDomTree (w : Window) (expansion : Z) (node : Node) (s : Walk)
  {struct node} : option nat * Node * Walk :=
  match node with
  | Elem element childNodes =>
      let tagName := Js.toLowerCase (el_tagName element) in
      if bool_decide (tagName ∈ skipTags) then (None, node, s)
      else
        let '(nodeData, element', next) :=
          classify w expansion element (nodeData_new tagName)
                   (nextIndex s) in
        let nodeData := scrollability element' nodeData in
        let '(ids, childNodes', s) :=
          process_children (buildDomTree w expansion) childNodes
                           (set_nextIndex next s) in
        let '(id, s) := record_node (set_children ids nodeData) s in
        (Some id, Elem element' childNodes', s)
  | _ => (None, node, s)
  end.

(** [walked root n]: the walk that starts at [root] comes to [n], that
    is, no element above [n] has a tag of [skipTags]. *)
Inductive walked : Node → Node → Prop :=
| walked_here n : walked n n
| walked_child element childNodes child n :
    Js.toLowerCase (el_tagName element) ∉ skipTags →
    child ∈ childNodes →
    walked child n →
    walked (Elem element childNodes) n.

(** The index an entry of the flat map carries. *)
Definition node_index (n : DomNode) : option nat :=
  match n with
  | ELEMENT e => highlightIndex e
  | TEXT_NODE _ => None
  end.

(** The indices carried by the entries with the keys [lo], ..., [hi - 1],
    in the order of the keys. *)
Definition indices_between (m : gmap nat DomNode) (lo hi : nat) : list nat :=
  omap (λ k, m !! k ≫= node_index) (seq lo (hi - lo)).

(** What a complete piece of the walk (a call of [buildDomTree], a text
    child, a run of the loop over the children) does to the variables of
    the script: it takes the keys [ID s], ..., [ID s' - 1] and the indices
    [nextIndex s], ..., [nextIndex s' - 1], each index for one of the new
    entries, which is then interactive, and leaves the other keys alone. *)
Record walk_ok (s s' : Walk) : Prop := {
  ok_ID : ID s ≤ ID s';
  ok_next : nextIndex s ≤ nextIndex s';
  ok_old : ∀ k, k < ID s → DOM_HASH_MAP s' !! k = DOM_HASH_MAP s !! k;
  ok_new : ∀ k, ID s ≤ k < ID s' → is_Some (DOM_HASH_MAP s' !! k);
  ok_above : ∀ k, ID s' ≤ k →
               DOM_HASH_MAP s !! k = None → DOM_HASH_MAP s' !! k = None;
  ok_indices :
    indices_between (DOM_HASH_MAP s') (ID s) (ID s')
    ≡ₚ seq (nextIndex s) (nextIndex s' - nextIndex s);
  ok_interactive : ∀ k nd,
    ID s ≤ k < ID s' →
    DOM_HASH_MAP s' !! k = Some (ELEMENT nd) →
    is_Some (highlightIndex nd) →
    isInteractive nd = Some true
}.

(** Later steps of the walk take new keys only. *)
Definition keeps (s s' : Walk) : Prop :=
  ID s ≤ ID s'
  ∧ ∀ k, k < ID s → DOM_HASH_MAP s' !! k = DOM_HASH_MAP s !! k.

(** An entry written between [s] and [s'] that carries an index has its
    element among [els]: the one stamped with that index, with the entry's
    tag. *)
Definition stamped (s s' : Walk) (els : list Element) : Prop :=
  ∀ k nd i,
    ID s ≤ k < ID s' →
    DOM_HASH_MAP s' !! k = Some (ELEMENT nd) →
    highlightIndex nd = Some i →
    ∃ e, e ∈ els
         ∧ getAttribute marker e = Some (pretty i)
         ∧ Js.toLowerCase (el_tagName e) = tagName nd.

(** The in-page script: the flat tree it returns and the document as it
    leaves it. *)
Definition evaluate (w : Window) (expansion : Z) (d : Document)
  : FlatDomTree * Document :=
  let d := clean d in
  match body d with
  | Some b =>
      let '(rootId, b', s) := buildDomTree w expansion b walk_start in
      ({| rootId := default 0 rootId; map := DOM_HASH_MAP s |},
       {| outside := outside d; body := Some b' |})
  | None => ({| rootId := 0; map := ∅ |}, d)
  end.

Definition marker_selector (i : nat) : string :=
  "[data-pw-agent-index=" +:+ String "034"%char (pretty i)
    +:+ String "034"%char "]".

(** [page.locator(selector)]. *)
Definition page_locator (selector : string) : Locator :=
  {| selector := selector |}.

(** The loop of [getFlatTree] over [Object.entries(flatTreeData.map)]:
    every entry that is interactive and carries a numeric index is
    replaced by the node with its locator. *)
Definition with_locator (n : DomNode) : DomNode :=
  match n with
  | ELEMENT data =>
      match isInteractive data, highlightIndex data with
      | Some true, Some i =>
          ELEMENT (set_locator (page_locator (marker_selector i)) data)
      | _, _ => n
      end
  | TEXT_NODE _ => n
  end.

(** [m] is the map of the flat tree that [getFlatTree] returns, as far as
    the entries the walk has written up to [s] go. *)
Definition snapshot_of (m : gmap nat DomNode) (s : Walk) : Prop :=
  ∀ k, k < ID s → m !! k = with_locator <$> DOM_HASH_MAP s !! k.

Definition getFlatTree (w : Window) (config : DomTreeConfig) (d : Document)
  : FlatDomTree * Document :=
  let viewportExpansion :=
    default VIEWPORT_EXPANSION (viewportExpansion config) in
  let '(markedElements, d') := evaluate w viewportExpansion d in
  ({| rootId := rootId markedElements;
      map := with_locator <$> map markedElements |}, d').

(** The test of [buildDomTree] for giving an element an index: the
    conditions of the nested [if]s of the block "Check visibility and
    interactivity", taken together. *)
Definition addressable (w : Window) (expansion : Z) (element : Element)
  : bool :=
  isElementVisible element
  && (isTopElement w element expansion && isInteractiveElement element)
  && (isInViewport w element expansion || (expansion =? -1)%Z).

(** Every entry written between [s] and [s'] has the property [P]. *)
Definition written (P : nat → DomNode → Prop) (s s' : Walk) : Prop :=
  ∀ k x, ID s ≤ k < ID s' → DOM_HASH_MAP s' !! k = Some x → P k x.

End DomTree.

(** ** src/dom/domTree.ts: the selector map *)

Module SelectorMap.

(** [Object.keys(flatTree.map)]: the keys are integer indices, which a
    JavaScript object enumerates in ascending order. *)
Definition key_le (a b : nat * DomNode) : Prop := fst a ≤ fst b.

#[global] Instance key_le_dec : RelDecision key_le.
Proof. intros a b. unfold key_le. apply _. Defined.

Definition entries (m : gmap nat DomNode) : list (nat * DomNode) :=
  merge_sort key_le (map_to_list m).

Definition admit_node (selectorMap : gmap nat ElementDomNode)
  (entry : nat * DomNode) : gmap nat ElementDomNode :=
  match snd entry with
  | ELEMENT node =>
      match isInteractive node, highlightIndex node with
      | Some true, Some i => <[i := node]> selectorMap
      | _, _ => selectorMap
      end
  | TEXT_NODE _ => selectorMap
  end.

Definition getSelectorMap (flatTree : FlatDomTree)
  : gmap nat ElementDomNode :=
  foldl admit_node ∅ (entries (map flatTree)).

End SelectorMap.

(** ** src/dom/domTree.ts: the serializer *)

Module Serializer.

Record TreeElement := {
  te_tagName : string;
  te_attributes : gmap string string;
  te_isVisible : bool;
  te_isInteractive : bool;
  te_isTopElement : bool;
  te_isNew : bool;
  te_highlightIndex : option nat;
  te_extra : option Extra
}.

(** [TreeNode]; the [parent] reference is not a field here: the functions
    that follow it take the chain [node.parent], [node.parent.parent],
    ... as an argument. *)
#[warnings="-register-all"]
Inductive TreeNode :=
| TText (text : string) (isVisible : bool)
| TElement (e : TreeElement) (children : list TreeNode).

Definition DEFAULT_INCLUDE_ATTRIBUTES : list string :=
  [ "title"; "type"; "checked"; "name"; "role"; "value"; "placeholder";
    "data-date-format"; "alt"; "aria-label"; "aria-expanded"; "data-state";
    "aria-checked"; "id"; "for"; "target"; "aria-haspopup";
    "aria-controls"; "aria-owns" ].

Definition includeAttrs (include_attributes : option (list string))
  : list string :=
  default [] include_attributes ++ DEFAULT_INCLUDE_ATTRIBUTES.

Definition capTextLength (text : string) (maxLength : nat) : string :=
  if maxLength <? String.length text
  then Js.substring0 maxLength text +:+ "..."
  else text.

(** [buildTreeNode(nodeId)].  The recursion follows the child ids of the
    flat map, so it is bounded by [fuel]: the outer [None] is "no fuel
    left", the inner one is [null]. *)
Fixpoint buildTreeNode (fuel : nat) (flatTree : FlatDomTree) (nodeId : nat)
  : option (option TreeNode) :=
  match fuel with
  | O => None
  | S fuel =>
      match map flatTree !! nodeId with
      | None => Some None
      | Some (TEXT_NODE textNode) =>
          Some (Some (TText (text textNode) (text_isVisible textNode)))
      | Some (ELEMENT elementNode) =>
          built ← mapM (buildTreeNode fuel flatTree)
                       (default [] (children elementNode));
          Some (Some (TElement
            {| te_tagName := tagName elementNode;
               te_attributes := default ∅ (attributes elementNode);
               te_isVisible := default false (isVisible elementNode);
               te_isInteractive := default false (isInteractive elementNode);
               te_isTopElement := default false (isTopElement elementNode);
               te_isNew := default false (isNew elementNode);
               te_highlightIndex := highlightIndex elementNode;
               te_extra := extra elementNode |}
            (omap id built)))
      end
  end.

(** [type === 'element' && highlightIndex !== undefined]. *)
Definition is_highlighted (n : TreeNode) : bool :=
  match n with
  | TElement e _ => bool_decide (is_Some (te_highlightIndex e))
  | TText _ _ => false
  end.

(** [hasParentWithHighlightIndex(node)], [parents] being the chain of
    parent references of [node], nearest first. *)
Definition hasParentWithHighlightIndex (parents : list TreeNode) : bool :=
  existsb is_highlighted parents.

(** [collectText] of [getAllTextTillNextClickableElement], with
    [maxDepth = -1]; [is_start] tells [currentNode === node]. *)
Fixpoint collectText (is_start : bool) (currentNode : TreeNode)
  : list string :=
  match currentNode with
  | TText text _ => if bool_decide (text = "") then [] else [text]
  | TElement e children =>
      if negb is_start && bool_decide (is_Some (te_highlightIndex e)) then []
      else concat (collectText false <$> children)
  end.

Definition getAllTextTillNextClickableElement (node : TreeNode) : string :=
  Js.trim (Js.join (String "010"%char "") (collectText true node)).

(** [attributesToInclude]: an object whose keys are enumerated in the
    order of their first assignment (attribute names are never integer
    indices).  The names of the allow-list are taken not to be names of
    members of [Object.prototype], so that [node.attributes[key]] and
    [key in attributesToInclude] see own properties only; the values, which
    come from the page, are not restricted, and [value in seenValues] is
    modelled with the prototype chain ([Js.in_object]). *)
Definition obj_set (k v : string) (o : list (string * string))
  : list (string * string) :=
  if bool_decide (k ∈ (fst <$> o))
  then (λ kv, if decide (fst kv = k) then (k, v) else kv) <$> o
  else o ++ [(k, v)].

Definition obj_delete (k : string) (o : list (string * string))
  : list (string * string) :=
  filter (λ kv, fst kv ≠ k) o.

Definition obj_get (k : string) (o : list (string * string))
  : option string :=
  Browser.assoc k o.

(** "Filter attributes". *)
Definition filter_attributes (keys : list string)
  (attrs : gmap string string) : list (string * string) :=
  foldl (λ attributesToInclude key,
           match attrs !! key with
           | Some value =>
               if negb (bool_decide (value = ""))
                  && negb (bool_decide (Js.trim value = ""))
               then obj_set key (Js.trim value) attributesToInclude
               else attributesToInclude
           | None => attributesToInclude
           end) [] keys.

(** One turn of the loop over [orderedKeys]: the state is
    [(keysToRemove, seenValues)]. *)
Definition dedup_step (attributesToInclude : list (string * string))
  (st : list string * list (string * string)) (key : string)
  : list string * list (string * string) :=
  let '(keysToRemove, seenValues) := st in
  let value := default "" (obj_get key attributesToInclude) in
  if 5 <? String.length value then
    if Js.in_object value (fst <$> seenValues)
    then (if bool_decide (key ∈ keysToRemove) then keysToRemove
          else keysToRemove ++ [key], seenValues)
    else (keysToRemove, obj_set value key seenValues)
  else st.

(** "Remove duplicate values (for attributes longer than 5 chars)". *)
Definition remove_duplicate_values (keys : list string)
  (attributesToInclude : list (string * string)) : list (string * string) :=
  let orderedKeys :=
    filter (λ key, key ∈ (fst <$> attributesToInclude)) keys in
  if 1 <? length orderedKeys then
    let '(keysToRemove, _) :=
      foldl (dedup_step attributesToInclude) ([], []) orderedKeys in
    foldl (λ o key, obj_delete key o) attributesToInclude keysToRemove
  else attributesToInclude.

(** What the loop has established once it has visited the keys [visited]:
    a visited key with a long value that is not marked for removal is the
    key recorded in [seenValues] under that value. *)
Definition first_holders (A : list (string * string))
  (visited : list string) (st : list string * list (string * string))
  : Prop :=
  ∀ k, k ∈ visited →
       5 < String.length (default "" (obj_get k A)) →
       k ∉ fst st →
       obj_get (default "" (obj_get k A)) (snd st) = Some k.

(** "Remove role if it matches tagName". *)
Definition remove_role (tagName : string)
  (attributesToInclude : list (string * string)) : list (string * string) :=
  if bool_decide (obj_get "role" attributesToInclude = Some tagName)
  then obj_delete "role" attributesToInclude
  else attributesToInclude.

(** "Remove attributes that duplicate text content". *)
Definition remove_text_duplicates (text : string)
  (attributesToInclude : list (string * string)) : list (string * string) :=
  foldl (λ o attr,
           match obj_get attr o with
           | Some v =>
               if negb (bool_decide (v = ""))
                  && bool_decide (Js.trim (Js.toLowerCase v)
                                  = Js.trim (Js.toLowerCase text))
               then obj_delete attr o else o
           | None => o
           end)
        attributesToInclude ["aria-label"; "placeholder"; "title"].

(** The attributes an element line retains, in the order of the line. *)
Definition retained_attributes (keys : list string) (e : TreeElement)
  (text : string) : list (string * string) :=
  if 0 <? length keys then
    remove_text_duplicates text
      (remove_role (te_tagName e)
         (remove_duplicate_values keys
            (filter_attributes keys (te_attributes e))))
  else [].

Definition attributesHtmlStr (retained : list (string * string)) : string :=
  Js.join " " ((λ kv, fst kv +:+ "=" +:+ capTextLength (snd kv) 20)
                 <$> retained).

Definition scrollDataText (x : Extra) : string :=
  let side (name : string) (get : ScrollData → Z) (sep : string) :=
    match scrollData x with
    | Some d => if (get d =? 0)%Z then ""
                else name +:+ "=" +:+ pretty (get d) +:+ sep
    | None => ""
    end in
  side "left" sd_left ", " +:+ side "top" sd_top ", "
    +:+ side "right" sd_right ", " +:+ side "bottom" sd_bottom "".

(** The line of an element that carries [highlightIndex]. *)
Definition element_line (keys : list string) (depth : nat)
  (e : TreeElement) (index : nat) (text : string) : string :=
  let attrs := attributesHtmlStr (retained_attributes keys e text) in
  let highlightIndicator :=
    if te_isNew e then "*[" +:+ pretty index +:+ "]"
    else "[" +:+ pretty index +:+ "]" in
  let line := Js.repeat_tab depth +:+ highlightIndicator +:+ "<"
                +:+ te_tagName e in
  let line := if bool_decide (attrs = "") then line
              else line +:+ " " +:+ attrs in
  let line :=
    match te_extra e with
    | Some x =>
        if scrollable x
        then line +:+ " data-scrollable=" +:+ String "034"%char
               (scrollDataText x) +:+ String "034"%char ""
        else line
    | None => line
    end in
  let line :=
    if bool_decide (text = "") then
      if bool_decide (attrs = "") then line +:+ " " else line
    else
      (if bool_decide (attrs = "") then line +:+ " " else line)
        +:+ ">" +:+ Js.trim text in
  line +:+ " />".

(** An entry of [result], with the [result.push] that produced it. *)
Inductive Line :=
| ElementLine (line : string)
| TextLine (line : string).

Definition line_string (l : Line) : string :=
  match l with ElementLine s | TextLine s => s end.

(** [node.parent && node.parent.type === 'element' &&
    node.parent.isVisible && node.parent.isTopElement]. *)
Definition parent_visible_topmost (parents : list TreeNode) : bool :=
  match parents with
  | TElement p _ :: _ => te_isVisible p && te_isTopElement p
  | _ => false
  end.

(** [processNode(node, depth, result)]: the entries it pushes. *)
Fixpoint processNode (keys : list string) (parents : list TreeNode)
  (node : TreeNode) (depth : nat) {struct node} : list Line :=
  match node with
  | TElement e children =>
      let own :=
        match te_highlightIndex e with
        | Some index =>
            [ElementLine
               (element_line keys depth e index
                  (getAllTextTillNextClickableElement node))]
        | None => []
        end in
      let nextDepth :=
        match te_highlightIndex e with
        | Some _ => S depth
        | None => depth
        end in
      own ++ concat ((λ child,
                        processNode keys (node :: parents) child nextDepth)
                       <$> children)
  | TText text _ =>
      if hasParentWithHighlightIndex parents then []
      else if parent_visible_topmost parents
      then [TextLine (Js.repeat_tab depth +:+ text)]
      else []
  end.

Definition newline : string := String "010"%char "".

(** [flatTreeToString]: [None] when [buildTreeNode] has no fuel left. *)
Definition flatTreeToString (fuel : nat) (flatTree : FlatDomTree)
  (include_attributes : option (list string)) : option string :=
  rootNode ← buildTreeNode fuel flatTree (rootId flatTree);
  match rootNode with
  | None => Some ""
  | Some rootNode =>
      Some (Js.join newline
              (line_string <$>
                 processNode (includeAttrs include_attributes) []
                             rootNode 0))
  end.

(** [buildTreeNode(id)] returns a tree with the fuel [fuel]. *)
Definition builds (fuel : nat) (ft : FlatDomTree) (id : nat) : Prop :=
  ∃ t, Serializer.buildTreeNode fuel ft id = Some (Some t).



End Serializer.

(** ** The emission rules of the serializer, in the words of the
    specification *)

Module SerializerSpec.
Import Serializer.













End SerializerSpec.

(** ** src/dom/domTree.ts: the element text map *)

Module ElementTextMap.

(** [s.split('\n')]. *)
Fixpoint split_lines_go (cur : string) (s : string) : list string :=
  match s with
  | EmptyString => [String.rev cur]
  | String c s' =>
      if Ascii.eqb c "010"%char
      then String.rev cur :: split_lines_go "" s'
      else split_lines_go (String c cur) s'
  end.

Definition split_lines (s : string) : list string := split_lines_go "" s.

(** The longest prefix whose characters satisfy [p], and the rest. *)
Fixpoint span (p : ascii → bool) (s : string) : string * string :=
  match s with
  | String c s' =>
      if p c then let '(a, b) := span p s' in (String c a, b)
      else ("", s)
  | EmptyString => ("", "")
  end.

Definition is_digit (c : ascii) : bool :=
  bool_decide (is_Some (Ascii.is_nat c)).

(** [parseInt(digits, 10)] on a string of decimal digits. *)
Definition parseInt (digits : string) : nat :=
  foldl (λ acc c, 10 * acc + default 0 (Ascii.is_nat c)) 0
        (list_ascii_of_string digits).

(** The match of the regular expression of [getElementTextMap] on
    [line]: an opening bracket, one or more digits (the first group), a
    closing bracket, a less-than sign, one or more characters other than
    the greater-than sign, and a greater-than sign; the second group
    always matches.  Each repetition can only end where its class stops,
    so the match is decided from left to right. *)
Definition match_index (line : string) : option nat :=
  match line with
  | String "["%char s =>
      let '(digits, s) := span is_digit s in
      if bool_decide (digits = "") then None
      else
        match s with
        | String "]"%char (String "<"%char s) =>
            let '(tag, s) := span (λ c, negb (Ascii.eqb c ">"%char)) s in
            if bool_decide (tag = "") then None
            else
              match s with
              | String ">"%char _ => Some (parseInt digits)
              | _ => None
              end
        | _ => None
        end
  | _ => None
  end.

Definition getElementTextMap (simplifiedHTML : string) : gmap nat string :=
  let lines :=
    filter (λ line, 0 < String.length line)
           (Js.trim <$> split_lines simplifiedHTML) in
  foldl (λ (elementTextMap : gmap nat string) line,
           match match_index line with
           | Some index => <[index := line]> elementTextMap
           | None => elementTextMap
           end) ∅ lines.

(** A greater-than sign comes before any line feed. *)
Fixpoint closes_before_LF (s : string) : bool :=
  match s with
  | String c s' =>
      if Ascii.eqb c ">"%char then true
      else if Ascii.eqb c "010"%char then false
      else closes_before_LF s'
  | EmptyString => false
  end.

End ElementTextMap.

(** ** src/actions.ts *)

Record ActionResult := { success : bool; message : string }.

(** What the page does with a click: [None] when
    [scrollIntoViewIfNeeded] and [click] both resolve, [Some e] when one of
    them rejects, [e] being the string form of the error. *)
Record Page := {
  page_click : Locator → option string
}.

(** ** The calls on the page *)

Module Playwright.

(** What an awaited call comes to: it resolves with a value, or rejects
    with an error, given in its string form [String(error)]. *)
Inductive Promise (A : Type) :=
| Resolve (a : A)
| Reject (error : string).
Arguments Resolve {A} a.
Arguments Reject {A} error.

(** The calls the actions make on the page and on locators. *)
Inductive Call :=
| ScrollIntoViewIfNeeded (l : Locator)
| Fill (l : Locator) (text : string)
| CountOptions (l : Locator)
| SelectOption (l : Locator) (label : string)
| GetScrollTop (l : Locator)
| AddScrollTop (l : Locator) (amount : Q)
| GetScrollLeft (l : Locator)
| AddScrollLeft (l : Locator) (amount : Q)
| ScrollBy (x y : Q)
| Evaluate (script : string).

(** What a call resolves to. *)
Inductive Value :=
| Undefined
| Number (q : Q)
| Other (toString : string).

(** The page: [answer calls c] is what the call [c] gives after the calls
    [calls] were made, a value when it resolves and the string of the
    error when it rejects; [number_toString] is [String(x)] on numbers and
    [viewport_height] the height of [page.viewportSize()], if any. *)
Record Env := {
  answer : list Call → Call → Promise Value;
  number_toString : Q → string;
  viewport_height : option Q
}.

(** An action: from the calls made so far to what it comes to and the
    calls made then. *)
Definition M (A : Type) : Type := list Call → Promise A * list Call.

Definition ret {A} (a : A) : M A := λ calls, (Resolve a, calls).

Definition throw {A} (error : string) : M A := λ calls, (Reject error, calls).

Definition bind {A B} (m : M A) (f : A → M B) : M B :=
  λ calls,
    match m calls with
    | (Resolve a, calls) => f a calls
    | (Reject error, calls) => (Reject error, calls)
    end.

(** [await] of a call. *)
Definition call (env : Env) (c : Call) : M Value :=
  λ calls, (answer env calls c, calls ++ [c]).

(** [try { body } catch (error) { handler }]. *)
Definition try_catch {A} (body : M A) (handler : string → M A) : M A :=
  λ calls,
    match body calls with
    | (Resolve a, calls) => (Resolve a, calls)
    | (Reject error, calls) => handler error calls
    end.

(** A method call on [locator], which is [undefined] for [None]. *)
Definition on_locator (env : Env) (locator : option Locator)
  (method : string) (c : Locator → Call) : M Value :=
  match locator with
  | Some l => call env (c l)
  | None =>
      throw ("TypeError: Cannot read properties of undefined (reading '"
             +:+ method +:+ "')")
  end.

(** [`${value}`]. *)
Definition template (env : Env) (v : Value) : string :=
  match v with
  | Undefined => "undefined"
  | Number q => number_toString env q
  | Other s => s
  end.

(** [Math.abs(afterScroll - beforeScroll) > 0.5] and
    [afterScroll - beforeScroll], which is [NaN] unless both are numbers. *)
Definition scrolled_by (beforeScroll afterScroll : Value) : option Q :=
  match beforeScroll, afterScroll with
  | Number b, Number a =>
      if Qle_bool (Qabs (a - b)) (1 # 2) then None else Some (a - b)%Q
  | _, _ => None
  end.

(** An action never rejects, and when its result is a failure the message
    is [prefix] followed by the string of an error. *)
Definition reports (prefix : string) (m : M ActionResult) : Prop :=
  ∀ calls,
    ∃ r calls',
      m calls = (Resolve r, calls')
      ∧ (success r = false → ∃ error, message r = prefix +:+ error).

End Playwright.

Module Actions.

(** [clickElement(locator)]: never throws, the [catch] turns every error
    into a failed result.  A missing locator makes the first method call
    a [TypeError]. *)
Definition clickElement (pg : Page) (loc : option Locator) : ActionResult :=
  match loc with
  | None =>
      {| success := false;
         message := "❌ Failed to click element: " +:+
           "TypeError: Cannot read properties of undefined (reading 'scrollIntoViewIfNeeded')" |}
  | Some l =>
      match page_click pg l with
      | None => {| success := true; message := "✅ Clicked element." |}
      | Some err =>
          {| success := false;
             message := "❌ Failed to click element: " +:+ err |}
      end
  end.

(** The other actions, on the calls of the page. *)
Import Playwright.

Definition inputTextElement (env : Env) (locator : option Locator)
  (text : string) : M ActionResult :=
  try_catch
    (bind (on_locator env locator "scrollIntoViewIfNeeded"
                      ScrollIntoViewIfNeeded) (λ _,
     bind (on_locator env locator "fill" (λ l, Fill l "")) (λ _,
     bind (on_locator env locator "fill" (λ l, Fill l text)) (λ _,
     ret {| success := true;
            message := "✅ Input text (" +:+ text +:+ ") into element." |}))))
    (λ error,
       ret {| success := false;
              message := "❌ Failed to input text: " +:+ error |}).

Definition selectOptionElement (env : Env) (locator : option Locator)
  (optionText : string) : M ActionResult :=
  try_catch
    (bind (on_locator env locator "scrollIntoViewIfNeeded"
                      ScrollIntoViewIfNeeded) (λ _,
     bind (on_locator env locator "locator" CountOptions) (λ optionCount,
     match optionCount with
     | Number q =>
         if Qeq_bool q 0 then
           ret {| success := true;
                  message := "⏭️ Skipped selecting option (" +:+ optionText
                    +:+ ") - no options available in dropdown." |}
         else
           bind (on_locator env locator "selectOption"
                            (λ l, SelectOption l optionText)) (λ _,
           ret {| success := true;
                  message := "✅ Selected option (" +:+ optionText
                    +:+ ") in element." |})
     | _ =>
         bind (on_locator env locator "selectOption"
                          (λ l, SelectOption l optionText)) (λ _,
         ret {| success := true;
                message := "✅ Selected option (" +:+ optionText
                  +:+ ") in element." |})
     end)))
    (λ error,
       ret {| success := false;
              message := "❌ Failed to select option: " +:+ error |}).

(** The part "Scroll within element" of [scrollVertically]: the message
    it returns with, or [None] when it falls through to the page. *)
Definition scroll_within (env : Env) (element : option Locator)
  (get : Locator → Call) (add : Locator → Q → Call) (amount : Q)
  (describe : string) : M (option string) :=
  match element with
  | Some element =>
      try_catch
        (bind (call env (get element)) (λ beforeScroll,
         bind (call env (add element amount)) (λ _,
         bind (call env (get element)) (λ afterScroll,
         match scrolled_by beforeScroll afterScroll with
         | Some actualScroll =>
             ret (Some (describe +:+ number_toString env actualScroll
                          +:+ "px."))
         | None => ret None
         end))))
        (λ _, ret None)
  | None => ret None
  end.

Definition scrollVertically (env : Env) (down : bool) (scrollAmount : Q)
  (element : option Locator) : M string :=
  bind (scroll_within env element GetScrollTop AddScrollTop scrollAmount
                      "✅ Scrolled container by ") (λ scrolled,
  match scrolled with
  | Some message => ret message
  | None =>
      bind (call env (ScrollBy 0 scrollAmount)) (λ _,
      ret ("✅ Scrolled page by " +:+ number_toString env scrollAmount
             +:+ "px."))
  end).

Definition scrollHorizontally (env : Env) (right : bool) (scrollAmount : Q)
  (element : option Locator) : M string :=
  let dx := if right then scrollAmount else (- scrollAmount)%Q in
  bind (scroll_within env element GetScrollLeft AddScrollLeft dx
                      "✅ Scrolled container horizontally by ") (λ scrolled,
  match scrolled with
  | Some message => ret message
  | None =>
      bind (call env (ScrollBy dx 0)) (λ _,
      ret ("✅ Scrolled page horizontally by " +:+ number_toString env dx
             +:+ "px."))
  end).

Definition executeJavascript (env : Env) (script : string) : M ActionResult :=
  try_catch
    (bind (call env (Evaluate ("(async () => { " +:+ script +:+ " })()")))
          (λ result,
     ret {| success := true;
            message := "✅ Executed JavaScript. Result: "
                         +:+ template env result |}))
    (λ error,
       ret {| success := false;
              message := "❌ Error executing JavaScript: " +:+ error |}).

End Actions.

(** ** src/PlaywrightController.ts *)

Record PlaywrightController := {
  flatTree : option FlatDomTree;
  selectorMap : gmap nat ElementDomNode;
  elementTextMap : gmap nat string;
  simplifiedHTML : string;
  lastTimeUpdate : Z
}.

Module Controller.

(** The field initialisers of the class. *)
Definition new : PlaywrightController :=
  {| flatTree := None;
     selectorMap := ∅;
     elementTextMap := ∅;
     simplifiedHTML := "<EMPTY>";
     lastTimeUpdate := 0 |}.

Definition getSimplifiedHTML (c : PlaywrightController) : string :=
  simplifiedHTML c.

Definition getElementText (c : PlaywrightController) (index : nat)
  : option string :=
  elementTextMap c !! index.

Definition getElementCount (c : PlaywrightController) : nat :=
  size (selectorMap c).

Definition getLastUpdateTime (c : PlaywrightController) : Z :=
  lastTimeUpdate c.

(** [elemText ?? index] inside a template literal. *)
Definition elem_label (c : PlaywrightController) (index : nat) : string :=
  default (pretty index) (elementTextMap c !! index).

Definition clickElement (pg : Page) (c : PlaywrightController) (index : nat)
  : ActionResult :=
  match selectorMap c !! index with
  | None =>
      {| success := false;
         message := "❌ Failed to click element: " +:+
           "Error: No interactive element found at index " +:+ pretty index |}
  | Some interactiveNode =>
      let result := Actions.clickElement pg (locator interactiveNode) in
      let target := attributes interactiveNode ≫= (.!! "target") in
      if bool_decide (target = Some "_blank") then
        {| success := true;
           message := "✅ Clicked element (" +:+ elem_label c index +:+
             "). ⚠️ Link opens in a new tab. You are not capable of reading new tabs." |}
      else
        {| success := success result;
           message := if success result
                      then "✅ Clicked element (" +:+ elem_label c index +:+ ")."
                      else message result |}
  end.

(** [updateTree()] at time [now] on the page [(w, d)]: the new state of
    the controller and the page as the extraction leaves it.  The
    recursion of the serializer gets one unit of fuel per entry of the
    flat map, and [None] stands for its running out. *)
Definition updateTree (config : DomTree.DomTreeConfig) (now : Z)
  (w : Browser.Window) (d : Browser.Document) (c : PlaywrightController)
  : option (PlaywrightController * Browser.Document) :=
  let '(flatTree, d') := DomTree.getFlatTree w config d in
  simplifiedHTML ←
    Serializer.flatTreeToString (S (size (map flatTree))) flatTree
      (DomTree.include_attributes config);
  Some ({| flatTree := Some flatTree;
           selectorMap := SelectorMap.getSelectorMap flatTree;
           elementTextMap :=
             ElementTextMap.getElementTextMap simplifiedHTML;
           simplifiedHTML := simplifiedHTML;
           lastTimeUpdate := now |}, d').

Definition dispose (c : PlaywrightController) : PlaywrightController :=
  {| flatTree := None;
     selectorMap := ∅;
     elementTextMap := ∅;
     simplifiedHTML := "<EMPTY>";
     lastTimeUpdate := lastTimeUpdate c |}.

(** The observable state of a controller that holds no snapshot. *)
Definition holds_no_snapshot (st : PlaywrightController) : Prop :=
  getSimplifiedHTML st = "<EMPTY>"
  ∧ getSimplifiedHTML st ≠ ""
  ∧ getElementCount st = 0
  ∧ ∀ i, getElementText st i = None.

(** The other methods, as actions on the calls of the page. *)
Import Playwright.

(** The string of the error thrown for an index that the selector map
    does not have. *)
Definition not_found (index : nat) : string :=
  "Error: No interactive element found at index " +:+ pretty index.

Definition inputText (env : Env) (c : PlaywrightController) (index : nat)
  (text : string) : M ActionResult :=
  try_catch
    (match selectorMap c !! index with
     | None => throw (not_found index)
     | Some interactiveNode =>
         bind (Actions.inputTextElement env (locator interactiveNode) text)
              (λ result,
         ret {| success := success result;
                message :=
                  if success result
                  then "✅ Input text (" +:+ text +:+ ") into element ("
                         +:+ elem_label c index +:+ ")."
                  else message result |})
     end)
    (λ error,
       ret {| success := false;
              message := "❌ Failed to input text: " +:+ error |}).

Definition selectOption (env : Env) (c : PlaywrightController) (index : nat)
  (optionText : string) : M ActionResult :=
  try_catch
    (match selectorMap c !! index with
     | None => throw (not_found index)
     | Some interactiveNode =>
         bind (Actions.selectOptionElement env (locator interactiveNode)
                                           optionText) (λ result,
         ret {| success := success result;
                message :=
                  if success result
                  then "✅ Selected option (" +:+ optionText
                         +:+ ") in element ("
                         +:+ elem_label c index +:+ ")."
                  else message result |})
     end)
    (λ error,
       ret {| success := false;
              message := "❌ Failed to select option: " +:+ error |}).

Definition scroll (env : Env) (c : PlaywrightController) (down : bool)
  (numPages : Q) (pixels : option Q) (index : option nat)
  : M ActionResult :=
  try_catch
    (let viewportHeight := default 800%Q (viewport_height env) in
     let scrollAmount :=
       default (numPages * (if down then 1 else -1) * viewportHeight)%Q
               pixels in
     let element := index ≫= (λ index, selectorMap c !! index) in
     bind (Actions.scrollVertically env down scrollAmount
                                    (element ≫= locator)) (λ message,
     ret {| success := true; message := message |}))
    (λ error,
       ret {| success := false;
              message := "❌ Failed to scroll: " +:+ error |}).

Definition scrollHorizontally (env : Env) (c : PlaywrightController)
  (right : bool) (pixels : Q) (index : option nat) : M ActionResult :=
  try_catch
    (let element := index ≫= (λ index, selectorMap c !! index) in
     bind (Actions.scrollHorizontally env right pixels (element ≫= locator))
          (λ message,
     ret {| success := true; message := message |}))
    (λ error,
       ret {| success := false;
              message := "❌ Failed to scroll horizontally: " +:+ error |}).

Definition executeJavascript (env : Env) (script : string)
  : M ActionResult :=
  Actions.executeJavascript env script.

(** [getViewportExpansion()]. *)
Definition getViewportExpansion (config : DomTree.DomTreeConfig) : Z :=
  default VIEWPORT_EXPANSION (DomTree.viewportExpansion config).

End Controller.

(** ** src/tools/index.ts and src/PlaywrightAgent.ts *)

Module Agent.

(** A JavaScript number as the agent computes with it: an integer, or
    [NaN] when an operand was [undefined]. *)
Inductive Number :=
| NaN
| Int (z : Z).

(** [Math.round(x)]: the integer nearest to [x], halves going up. *)
Definition Math_round (x : Q) : Z := Qfloor (x + (1 # 2)).

(** The value under the action key: an object, each property of which
    may be absent. *)
Record ToolInput := {
  in_text : option string;
  in_success : option bool;
  in_seconds : option Q;
  in_index : option nat;
  in_question : option string
}.

Record MacroToolInput := {
  evaluation_previous_goal : option string;
  memory : option string;
  next_goal : option string;
  action : string * ToolInput
}.

Record MacroToolResult := {
  mt_input : MacroToolInput;
  mt_output : string
}.

Record AgentBrain := {
  brain_evaluation_previous_goal : string;
  brain_memory : string;
  brain_next_goal : string
}.

Record Usage := {
  promptTokens : Z;
  completionTokens : Z;
  totalTokens : Z;
  cachedTokens : option Z;
  reasoningTokens : option Z
}.

Record Action := {
  name : string;
  input : ToolInput;
  output : string
}.

Record AgentHistory := {
  brain : AgentBrain;
  h_action : Action;
  usage : Usage
}.

Record ExecutionResult := {
  r_success : bool;
  r_data : string;
  r_history : list AgentHistory
}.

(** What a call gives back: a value, or a thrown error in its string
    form [String(error)]. *)
Inductive Outcome (A : Type) :=
| Return (a : A)
| Throw (error : string).
Arguments Return {A} a.
Arguments Throw {A} error.

(** The executors of the registry.  Those of [input_text],
    [select_dropdown_option], [scroll], [scroll_horizontally],
    [execute_javascript] and of the caller's custom tools are taken as
    they come: a function of the step at which they run. *)
Inductive Tool :=
| done
| wait
| ask_user
| click_element_by_index
| other_tool (execute : nat → ToolInput → Outcome string).

(** The reply of the model client to [invoke]: it fails, or it has
    decoded one action and calls the macro tool on it. *)
Inductive LLMReply :=
| LLMFails (error : string)
| LLMCalls (input : MacroToolInput) (usage : Usage).

(** Everything outside the agent, step by step. *)
Record World := {
  (** [signal.aborted] at the top of the step, and in the macro tool.
      The signal these checks read is aborted by [dispose()] alone (a
      second [execute] puts a new controller in its place), and
      [dispose()] is taken to be called just before the check that finds
      it. *)
  aborted_at_step : nat → bool;
  aborted_in_tool : nat → bool;
  (** [waitUntil(() => !this.paused)] rejects with its timeout *)
  pause_times_out_at_step : nat → bool;
  pause_times_out_in_tool : nat → bool;
  (** an error of the page while the user prompt is assembled *)
  page_error_at_step : nat → option string;
  (** the page when the snapshot of the step is taken, and the clock *)
  window_at_step : nat → Browser.Window;
  document_at_step : nat → Browser.Document;
  now_at_step : nat → Z;
  (** the decision of the model from the step and the history *)
  llm_reply : nat → list AgentHistory → LLMReply;
  (** the page when the tool of the step runs *)
  page_at_step : nat → Page;
  (** [Date.now() - startTime] around the tool, in milliseconds *)
  duration_at_step : nat → Z;
  (** [String(x)] for the number of seconds of a [wait] *)
  number_toString : Q → string
}.

Record PlaywrightAgent := {
  config : DomTree.DomTreeConfig;
  tools : gmap string Tool;
  totalWaitTime : Number;
  playwrightController : PlaywrightController;
  history : list AgentHistory
}.

(** [tools] of src/tools/index.ts, the last five executors given. *)
Definition default_tools
  (input_text select_dropdown_option scroll scroll_horizontally
     execute_javascript : nat → ToolInput → Outcome string)
  : gmap string Tool :=
  <["execute_javascript" := other_tool execute_javascript]>
  (<["scroll_horizontally" := other_tool scroll_horizontally]>
  (<["scroll" := other_tool scroll]>
  (<["select_dropdown_option" := other_tool select_dropdown_option]>
  (<["input_text" := other_tool input_text]>
  (<["click_element_by_index" := click_element_by_index]>
  (<["ask_user" := ask_user]>
  (<["wait" := wait]>
  (<["done" := done]> ∅)))))))).

(** The constructor: [customTools] entries replace or ([None] for [null])
    remove tools, and [execute_javascript] stays only with the
    experimental flag. *)
Definition new (config : DomTree.DomTreeConfig)
  (base : gmap string Tool)
  (customTools : list (string * option Tool))
  (experimentalScriptExecutionTool : bool) : PlaywrightAgent :=
  let tools :=
    foldl (λ (m : gmap string Tool) kv,
             match snd kv with
             | None => delete (fst kv) m
             | Some tool => <[fst kv := tool]> m
             end) base customTools in
  {| config := config;
     tools := if experimentalScriptExecutionTool then tools
              else delete "execute_javascript" tools;
     totalWaitTime := Int 0;
     playwrightController := Controller.new;
     history := [] |}.


Definition template_number (n : Number) : string :=
  match n with
  | NaN => "NaN"
  | Int z => pretty z
  end.

Definition at_least_3 (n : Number) : bool :=
  match n with
  | NaN => false
  | Int z => (3 <=? z)%Z
  end.

(** [tool.execute.bind(this)(toolInput)]. *)
Definition run_tool (w : World) (step : nat) (a : PlaywrightAgent)
  (tool : Tool) (toolInput : ToolInput) : Outcome string :=
  match tool with
  | done => Return "Task completed"
  | wait =>
      Return ("✅ Waited for " +:+
              from_option (number_toString w) "undefined"
                          (in_seconds toolInput)
              +:+ " seconds.")
  | ask_user =>
      Return ("✅ User interaction needed. Please provide answer to: " +:+
              default "undefined" (in_question toolInput))
  | click_element_by_index =>
      match in_index toolInput with
      | Some index =>
          Return (message (Controller.clickElement (page_at_step w step)
                             (playwrightController a) index))
      | None =>
          Return ("❌ Failed to click element: " +:+
                  "Error: No interactive element found at index undefined")
      end
  | other_tool execute => execute step toolInput
  end.

Definition set_totalWaitTime (t : Number) (a : PlaywrightAgent)
  : PlaywrightAgent :=
  {| config := config a; tools := tools a; totalWaitTime := t;
     playwrightController := playwrightController a;
     history := history a |}.

(** [this.#totalWaitTime += Math.round(toolInput.seconds + duration / 1000)]. *)
Definition add_wait (total : Number) (seconds : option Q) (duration : Z)
  : Number :=
  match total, seconds with
  | Int t, Some s =>
      Int (t + Math_round (s + inject_Z duration / inject_Z 1000))
  | _, _ => NaN
  end.

(** [dispose()], as far as the agent goes: the controller is disposed
    and the history is a new empty array.  It also aborts the signal, which
    the checks of the running task then find. *)
Definition dispose (a : PlaywrightAgent) : PlaywrightAgent :=
  {| config := config a; tools := tools a;
     totalWaitTime := totalWaitTime a;
     playwrightController := Controller.dispose (playwrightController a);
     history := [] |}.

(** The [execute] of the macro tool built by [#packMacroTool]. *)
Definition macroTool_execute (w : World) (step : nat) (a : PlaywrightAgent)
  (input : MacroToolInput) : Outcome MacroToolResult * PlaywrightAgent :=
  if aborted_in_tool w step then (Throw "Error: AbortError", dispose a)
  else if pause_times_out_in_tool w step
  then (Throw "Error: Timeout waiting for condition to become true", a)
  else
    let '(toolName, toolInput) := action input in
    match tools a !! toolName with
    | None => (Throw ("Error: Tool " +:+ toolName +:+ " not found."), a)
    | Some tool =>
        match run_tool w step a tool toolInput with
        | Throw e => (Throw e, a)
        | Return result =>
            let duration := duration_at_step w step in
            if bool_decide (toolName = "wait") then
              let total :=
                add_wait (totalWaitTime a) (in_seconds toolInput) duration in
              let result :=
                result +:+ String "010"%char "<sys> You have waited "
                  +:+ template_number total
                  +:+ " seconds accumulatively." in
              let result :=
                if at_least_3 total
                then result +:+ String "010"%char
                       "Do NOT wait any longer unless you have a good reason."
                       +:+ String "010"%char ""
                else result in
              (Return {| mt_input := input;
                         mt_output := result +:+ "</sys>" |},
               set_totalWaitTime total a)
            else
              (Return {| mt_input := input; mt_output := result |},
               set_totalWaitTime (Int 0) a)
        end
    end.

Definition set_controller (c : PlaywrightController) (a : PlaywrightAgent)
  : PlaywrightAgent :=
  {| config := config a; tools := tools a;
     totalWaitTime := totalWaitTime a;
     playwrightController := c; history := history a |}.

Definition set_history (h : list AgentHistory) (a : PlaywrightAgent)
  : PlaywrightAgent :=
  {| config := config a; tools := tools a;
     totalWaitTime := totalWaitTime a;
     playwrightController := playwrightController a; history := h |}.

(** [#assembleUserPrompt]: its effect on the agent, the refresh of the
    snapshot by [#getBrowserState]; the text of the prompt is what
    [llm_reply] depends on through the step and the history. *)
Definition assembleUserPrompt (w : World) (step : nat) (a : PlaywrightAgent)
  : Outcome PlaywrightAgent :=
  match page_error_at_step w step with
  | Some e => Throw e
  | None =>
      match Controller.updateTree (config a) (now_at_step w step)
              (window_at_step w step) (document_at_step w step)
              (playwrightController a) with
      | Some (c, _) => Return (set_controller c a)
      | None => Throw "RangeError: Maximum call stack size exceeded"
      end
  end.

(** One turn of the [while (true)] of [execute], from the test of the
    abort signal up to and including [this.history.push]: the entry
    pushed, or the error thrown.  A turn that finds the signal aborted
    throws with the agent as [dispose()] left it. *)
Definition run_step (w : World) (step : nat) (a : PlaywrightAgent)
  : Outcome AgentHistory * PlaywrightAgent :=
  if aborted_at_step w step then (Throw "Error: AbortError", dispose a)
  else if pause_times_out_at_step w step
  then (Throw "Error: Timeout waiting for condition to become true", a)
  else
    match assembleUserPrompt w step a with
    | Throw e => (Throw e, a)
    | Return a =>
        match llm_reply w step (history a) with
        | LLMFails e => (Throw e, a)
        | LLMCalls input usage =>
            match macroTool_execute w step a input with
            | (Throw e, a) => (Throw e, a)
            | (Return macroResult, a) =>
                let input := mt_input macroResult in
                let entry :=
                  {| brain :=
                       {| brain_evaluation_previous_goal :=
                            Js.or_string (evaluation_previous_goal input) "";
                          brain_memory := Js.or_string (memory input) "";
                          brain_next_goal :=
                            Js.or_string (next_goal input) "" |};
                     h_action :=
                       {| name := fst (action input);
                          input := snd (action input);
                          output := mt_output macroResult |};
                     usage := usage |} in
                (Return entry, set_history (history a ++ [entry]) a)
            end
        end
    end.

(** The [while (true)] of [execute], from the turn [step], for a
    configuration without lifecycle hooks: each hook is then the default
    [() => void 0], which returns and does nothing ([loop_with_hooks]
    below has the hooks).  [max_steps] is the constant [MAX_STEPS];
    [fuel] bounds the number of turns and [None] stands for its running
    out. *)
Fixpoint loop (max_steps : nat) (w : World) (fuel : nat) (step : nat)
  (a : PlaywrightAgent) : option (ExecutionResult * PlaywrightAgent) :=
  match fuel with
  | O => None
  | S fuel =>
      match run_step w step a with
      | (Throw error, a) =>
          Some ({| r_success := false; r_data := error;
                   r_history := history a |}, a)
      | (Return entry, a) =>
          let step := S step in
          if max_steps <? step then
            Some ({| r_success := false;
                     r_data := "Step count exceeded maximum limit";
                     r_history := history a |}, a)
          else if bool_decide (name (h_action entry) = "done") then
            let success :=
              default false (in_success (input (h_action entry))) in
            let text :=
              Js.or_string (in_text (input (h_action entry)))
                           "no text provided" in
            Some ({| r_success := success; r_data := text;
                     r_history := history a |}, a)
          else loop max_steps w fuel step a
      end
  end.

(** [execute(task)], for a task that is not empty and a configuration
    without lifecycle hooks. *)
Definition execute_with (max_steps : nat) (w : World) (fuel : nat)
  (a : PlaywrightAgent) : option (ExecutionResult * PlaywrightAgent) :=
  loop max_steps w fuel 0 (set_history [] a).

Definition execute (w : World) (fuel : nat) (a : PlaywrightAgent)
  : option (ExecutionResult * PlaywrightAgent) :=
  execute_with MAX_STEPS w fuel a.

(** The lifecycle hooks of the configuration, each taken for what it
    does: it returns or throws, and it can change the agent it is bound
    to ([this]) and the object it is handed, which for [onAfterStep] is
    the entry just pushed (it is in [this.history]) and for [onAfterTask]
    the result.  [onAfterTask] is told whether it is called from the
    [catch]. *)
Record Hooks := {
  onBeforeTask : PlaywrightAgent → Outcome unit * PlaywrightAgent;
  onBeforeStep : nat → PlaywrightAgent → Outcome unit * PlaywrightAgent;
  onAfterStep :
    nat → AgentHistory → PlaywrightAgent →
    Outcome unit * (AgentHistory * PlaywrightAgent);
  onAfterTask :
    bool → ExecutionResult → PlaywrightAgent →
    Outcome unit * (ExecutionResult * PlaywrightAgent)
}.

(** [() => void 0] for each hook. *)
Definition default_hooks : Hooks :=
  {| onBeforeTask := λ a, (Return (), a);
     onBeforeStep := λ _ a, (Return (), a);
     onAfterStep := λ _ entry a, (Return (), (entry, a));
     onAfterTask := λ _ result a, (Return (), (result, a)) |}.

(** Hooks that return and change nothing, as the default hooks do. *)
Definition passive (hooks : Hooks) : Prop :=
  (∀ a, onBeforeTask hooks a = (Return (), a))
  ∧ (∀ step a, onBeforeStep hooks step a = (Return (), a))
  ∧ (∀ step entry a, onAfterStep hooks step entry a = (Return (), (entry, a)))
  ∧ (∀ in_catch result a,
       onAfterTask hooks in_catch result a = (Return (), (result, a))).

(** The [catch] of [execute]: the result is returned, unless
    [onAfterTask] throws once more, which makes [execute] reject. *)
Definition fail (hooks : Hooks) (error : string) (a : PlaywrightAgent)
  : Outcome ExecutionResult * PlaywrightAgent :=
  let result :=
    {| r_success := false; r_data := error; r_history := history a |} in
  match onAfterTask hooks true result a with
  | (Return _, (result, a)) => (Return result, a)
  | (Throw error, (_, a)) => (Throw error, a)
  end.

(** [await onAfterTask.call(this, result); return result] inside the
    [try]. *)
Definition finish (hooks : Hooks) (result : ExecutionResult)
  (a : PlaywrightAgent) : Outcome ExecutionResult * PlaywrightAgent :=
  match onAfterTask hooks false result a with
  | (Return _, (result, a)) => (Return result, a)
  | (Throw error, (_, a)) => fail hooks error a
  end.

(** The [while (true)] of [execute] with its [catch], from the turn
    [step]: [execute] returns a result or rejects.  The test for [done]
    is on the name read before the entry was pushed, the outcome of a
    [done] on the input as [onAfterStep] left it. *)
Fixpoint loop_with_hooks (hooks : Hooks) (max_steps : nat) (w : World)
  (fuel : nat) (step : nat) (a : PlaywrightAgent)
  : option (Outcome ExecutionResult * PlaywrightAgent) :=
  match fuel with
  | O => None
  | S fuel =>
      match onBeforeStep hooks step a with
      | (Throw error, a) => Some (fail hooks error a)
      | (Return _, a) =>
          match run_step w step a with
          | (Throw error, a) => Some (fail hooks error a)
          | (Return entry, a) =>
              match onAfterStep hooks step entry a with
              | (Throw error, (_, a)) => Some (fail hooks error a)
              | (Return _, (entry', a)) =>
                  let step := S step in
                  if max_steps <? step then
                    Some (finish hooks
                            {| r_success := false;
                               r_data := "Step count exceeded maximum limit";
                               r_history := history a |} a)
                  else if bool_decide (name (h_action entry) = "done") then
                    let success :=
                      default false (in_success (input (h_action entry'))) in
                    let text :=
                      Js.or_string (in_text (input (h_action entry')))
                                   "no text provided" in
                    Some (finish hooks
                            {| r_success := success; r_data := text;
                               r_history := history a |} a)
                  else loop_with_hooks hooks max_steps w fuel step a
              end
          end
      end
  end.

(** [execute(task)] for a task that is not empty: [onBeforeTask] is
    awaited before the [try], so that its error makes [execute] reject. *)
Definition execute_with_hooks (hooks : Hooks) (max_steps : nat) (w : World)
  (fuel : nat) (a : PlaywrightAgent)
  : option (Outcome ExecutionResult * PlaywrightAgent) :=
  match onBeforeTask hooks a with
  | (Throw error, a) => Some (Throw error, a)
  | (Return _, a) =>
      loop_with_hooks hooks max_steps w fuel 0 (set_history [] a)
  end.

(** The agent after [n] turns from the turn [step], when each of them
    pushes an entry whose action is not [done]; [None] when one of them
    throws or is a [done]. *)
Fixpoint turns_without_done (w : World) (n : nat) (step : nat)
  (a : PlaywrightAgent) : option PlaywrightAgent :=
  match n with
  | O => Some a
  | S n =>
      match run_step w step a with
      | (Return entry, a) =>
          if bool_decide (name (h_action entry) = "done") then None
          else turns_without_done w n (S step) a
      | (Throw _, _) => None
      end
  end.

(** The macro tool is asked for a [wait] that passes the schema of the
    tool ([seconds] a number from 1 to 10) while the clock does not run
    backwards. *)
Definition valid_wait (w : World) (step : nat) (input : MacroToolInput)
  : Prop :=
  fst (action input) = "wait"
  ∧ (∃ seconds, in_seconds (snd (action input)) = Some seconds
                ∧ (1 <= seconds)%Q ∧ (seconds <= 10)%Q)
  ∧ (0 ≤ duration_at_step w step)%Z.

End Agent.

(** ** src/utils/index.ts *)

Module Utils.
Import Agent.

(** [truncate(text, maxLength)], for a length that is a natural number. *)
Definition truncate (text : string) (maxLength : nat) : string :=
  if maxLength <? String.length text
  then Js.substring0 maxLength text +:+ "..."
  else text.

(** [trimLines(text)]. *)
Definition trimLines (text : string) : string :=
  Js.join Serializer.newline (Js.trim <$> ElementTextMap.split_lines text).

Definition MAX_TRY : nat := 1000.

(** The [while] of [randomID].  [random k] is what
    [Math.random().toString(36).substring(2, 11)] gives at the draw number
    [k], the first draw being number 0; the turn in which [tryCount]
    becomes [k] makes the draw number [k].  [fuel] bounds the number of
    turns and [None] stands for its running out. *)
Fixpoint randomID_while (random : nat → string) (existingIDs : list string)
  (fuel : nat) (id : string) (tryCount : nat) : option (Outcome string) :=
  if bool_decide (id ∈ existingIDs) then
    match fuel with
    | O => None
    | S fuel =>
        let id := random (S tryCount) in
        let tryCount := S tryCount in
        if MAX_TRY <? tryCount
        then Some (Throw "Error: randomID: too many try")
        else randomID_while random existingIDs fuel id tryCount
    end
  else Some (Return id).

(** [randomID(existingIDs)]; [None] for [existingIDs] is [undefined]. *)
Definition randomID (random : nat → string)
  (existingIDs : option (list string)) : option (Outcome string) :=
  let id := random 0 in
  match existingIDs with
  | None => Some (Return id)
  | Some existingIDs => randomID_while random existingIDs (S MAX_TRY) id 0
  end.

(** The variables of the module that [uid] works on. *)
Record UidState := {
  idCounter : nat;
  existingIDs : list string
}.

Definition uid_start : UidState := {| idCounter := 0; existingIDs := [] |}.

(** [`pw_${Date.now()}_${idCounter++}`]. *)
Definition uid_candidate (now : Z) (counter : nat) : string :=
  "pw_" +:+ pretty now +:+ "_" +:+ pretty counter.

(** [uid()].  [clock c] is what [Date.now()] gives in the turn of the
    [do ... while] in which [idCounter] is [c]; [fuel] bounds the number
    of turns and [None] stands for its running out. *)
Fixpoint uid (clock : nat → Z) (fuel : nat) (st : UidState)
  : option (string * UidState) :=
  match fuel with
  | O => None
  | S fuel =>
      let id := uid_candidate (clock (idCounter st)) (idCounter st) in
      let st := {| idCounter := S (idCounter st);
                   existingIDs := existingIDs st |} in
      if bool_decide (id ∈ existingIDs st) then uid clock fuel st
      else Some (id, {| idCounter := idCounter st;
                        existingIDs := existingIDs st ++ [id] |})
  end.

(** [n] calls of [uid] one after the other, each with one unit of fuel:
    the ids returned and the variables afterwards. *)
Fixpoint uids (clock : nat → Z) (n : nat) (st : UidState)
  : option (list string * UidState) :=
  match n with
  | O => Some ([], st)
  | S n =>
      '(id, st) ← uid clock 1 st;
      '(ids, st) ← uids clock n st;
      Some (id :: ids, st)
  end.

(** Every id handed out so far was made from a counter value below the
    present one. *)
Definition uid_inv (st : UidState) : Prop :=
  ∀ id, id ∈ existingIDs st →
        ∃ now counter, id = uid_candidate now counter ∧ counter < idCounter st.

End Utils.

(** ** A small page and a scripted model, to run the definitions on *)

Module Sample.
Import Browser.

Definition plain_style : ComputedStyle :=
  {| cursor := "auto"; visibility := "visible"; display := "block";
     overflowX := "visible"; overflowY := "visible" |}.

(** A visible 10x10 element whose top edge is at [y]. *)
Definition element (tag : string) (attrs : list (string * string)) (y : Z)
  : Element :=
  {| el_tagName := tag; el_attributes := attrs;
     disabled := false; readOnly := false; style := plain_style;
     offsetWidth := 10; offsetHeight := 10;
     rect := {| left := 0; top := y; width := 10; height := 10 |};
     hitFromCentre := true; isContentEditable := false;
     onclickIsFunction := false; el_type := ""; checked := false;
     scrollWidth := 10; clientWidth := 10;
     scrollHeight := 10; clientHeight := 10;
     scrollTop := 0; scrollLeft := 0 |}.

Definition far_input : Node :=
  Elem (element "INPUT" [(marker, "0")] 2000) [].

(** [<body> hello <a href="/x" target="_blank">more<button>ok</button></a>
    <!-- --> <div><input></div></body>], the input far below the
    viewport and still carrying the marker of an earlier pass; a [<title>]
    in the head carries a stale marker too. *)
Definition document : Document :=
  {| outside :=
       [Elem (element "HEAD" [] 0)
          [Elem (element "TITLE" [(marker, "7")] 0) []]];
     body :=
       Some (Elem (element "BODY" [] 0)
               [ Text " hello ";
                 Elem (element "A" [("href", "/x"); ("target", "_blank")] 5)
                   [Text "more"; Elem (element "BUTTON" [] 5) [Text "ok"]];
                 Other;
                 Elem (element "DIV" [] 2000) [far_input] ]) |}.



Definition window : Window := {| innerWidth := 800; innerHeight := 600 |}.

Definition whole_page : DomTree.DomTreeConfig :=
  {| DomTree.viewportExpansion := None; DomTree.include_attributes := None |}.

Definition viewport_only : DomTree.DomTreeConfig :=
  {| DomTree.viewportExpansion := Some 0%Z;
     DomTree.include_attributes := None |}.

Import Agent.

Definition tool_input : ToolInput :=
  {| in_text := None; in_success := None; in_seconds := None;
     in_index := None; in_question := None |}.

Definition call (name : string) (input : ToolInput) : LLMReply :=
  LLMCalls
    {| evaluation_previous_goal := None; memory := Some "m";
       next_goal := None; action := (name, input) |}
    {| promptTokens := 1; completionTokens := 1; totalTokens := 2;
       cachedTokens := None; reasoningTokens := None |}.

Definition wait_1s : ToolInput :=
  {| in_text := None; in_success := None; in_seconds := Some 1%Q;
     in_index := None; in_question := None |}.

Definition click (index : nat) : ToolInput :=
  {| in_text := None; in_success := None; in_seconds := None;
     in_index := Some index; in_question := None |}.

Definition finish (text : string) (success : option bool) : ToolInput :=
  {| in_text := Some text; in_success := success; in_seconds := None;
     in_index := None; in_question := None |}.

(** A quiet world: nothing aborts, the page is [document] at every step and
    answers every click, each tool takes 700 ms, and the model follows
    [script]. *)
Definition world (script : nat → LLMReply) : World :=
  {| aborted_at_step := λ _, false;
     aborted_in_tool := λ _, false;
     pause_times_out_at_step := λ _, false;
     pause_times_out_in_tool := λ _, false;
     page_error_at_step := λ _, None;
     window_at_step := λ _, window;
     document_at_step := λ _, document;
     now_at_step := λ step, (1000 * Z.of_nat step)%Z;
     llm_reply := λ step _, script step;
     page_at_step := λ _, {| page_click := λ _, None |};
     duration_at_step := λ _, 700%Z;
     number_toString := λ q, pretty (Qfloor q) |}.

Definition agent : PlaywrightAgent :=
  let stub := λ (_ : nat) (_ : ToolInput), Return "ok" in
  Agent.new whole_page (default_tools stub stub stub stub stub) [] false.

(** The model that always waits one second, the one that clicks the index
    7, which no snapshot of [document] has, and the one that finishes at
    once. *)
Definition always_waits : World := world (λ _, call "wait" wait_1s).

Definition clicks_7 : World :=
  world (λ _, call "click_element_by_index" (click 7)).




(** The input of the macro tool in the reply of the model at step 0. *)
Definition first_input (w : World) : MacroToolInput :=
  match llm_reply w 0 [] with
  | LLMCalls input _ => input
  | LLMFails _ =>
      {| evaluation_previous_goal := None; memory := None;
         next_goal := None; action := ("", tool_input) |}
  end.

(** [<input name="username" id="username">] with the index 0. *)
Definition username_input : Serializer.TreeElement :=
  {| Serializer.te_tagName := "input";
     Serializer.te_attributes :=
       <["id" := "username"]> (<["name" := "username"]> ∅);
     Serializer.te_isVisible := true;
     Serializer.te_isInteractive := true;
     Serializer.te_isTopElement := true;
     Serializer.te_isNew := false;
     Serializer.te_highlightIndex := Some 0;
     Serializer.te_extra := None |}.

Definition tree_element (tag : string) (index : option nat)
  : Serializer.TreeElement :=
  {| Serializer.te_tagName := tag;
     Serializer.te_attributes := ∅;
     Serializer.te_isVisible := true;
     Serializer.te_isInteractive := bool_decide (is_Some index);
     Serializer.te_isTopElement := true;
     Serializer.te_isNew := false;
     Serializer.te_highlightIndex := index;
     Serializer.te_extra := None |}.

(** [<a>more<button>ok</button></a>], both indexed, and
    [<body>hello<a>...</a></body>] around it. *)
Definition link_tree : Serializer.TreeNode :=
  Serializer.TElement (tree_element "a" (Some 0))
    [ Serializer.TText "more" true;
      Serializer.TElement (tree_element "button" (Some 1))
        [Serializer.TText "ok" true] ].

Definition body_tree : Serializer.TreeNode :=
  Serializer.TElement (tree_element "body" None)
    [Serializer.TText "hello" true; link_tree].

(** [<input name="constructor" id="constructor">] with the index 0. *)
Definition constructor_input : Serializer.TreeElement :=
  {| Serializer.te_tagName := "input";
     Serializer.te_attributes :=
       <["id" := "constructor"]> (<["name" := "constructor"]> ∅);
     Serializer.te_isVisible := true;
     Serializer.te_isInteractive := true;
     Serializer.te_isTopElement := true;
     Serializer.te_isNew := false;
     Serializer.te_highlightIndex := Some 0;
     Serializer.te_extra := None |}.

(** The agent once the snapshot of the first step is taken. *)
Definition refreshed (w : World) : PlaywrightAgent :=
  match assembleUserPrompt w 0 agent with
  | Return a => a
  | Throw _ => agent
  end.

(** A page on which every click times out. *)
Definition dead_page : Page :=
  {| page_click := λ _, Some "TimeoutError: locator.click: Timeout 5000ms exceeded." |}.

(** Hooks whose [onAfterTask] always throws. *)
Definition failing_hooks : Hooks :=
  {| onBeforeTask := onBeforeTask default_hooks;
     onBeforeStep := onBeforeStep default_hooks;
     onAfterStep := onAfterStep default_hooks;
     onAfterTask := λ _ result a, (Throw "Error: no report", (result, a)) |}.

(** The model that waits twice; then its client fails. *)
Definition model_fails_at_2 : World :=
  world (λ step, if step <? 2 then call "wait" wait_1s
                 else LLMFails "Error: 503 Service Unavailable").



Import Playwright.

(** The offset of a container after the calls [calls], when every
    addition to its [scrollTop] is taken in full. *)
Fixpoint scrollTop_after (calls : list Call) : Q :=
  match calls with
  | [] => 0
  | AddScrollTop _ amount :: calls => amount + scrollTop_after calls
  | _ :: calls => scrollTop_after calls
  end.

(** A page with a viewport 600 pixels high, on which every call resolves,
    containers scroll freely and no dropdown has an option.  The numbers
    that occur are integers, printed in decimal. *)
Definition quiet_page : Env :=
  {| answer := λ calls c,
       match c with
       | GetScrollTop _ => Resolve (Number (scrollTop_after calls))
       | CountOptions _ => Resolve (Number 0)
       | _ => Resolve Undefined
       end;
     number_toString := λ q, pretty (Qfloor q);
     viewport_height := Some 600%Q |}.

End Sample.

(** ** Properties of the extractor *)

Section ExtractorProps.
Import Browser DomTree.

(** Induction on a node with the induction hypothesis for every child. *)
Lemma Node_ind_children (P : Node → Prop) :
  (∀ t, P (Text t)) →
  P Other →
  (∀ e cs, Forall P cs → P (Elem e cs)) →
  ∀ n, P n.
Proof.
  intros HText HOther HElem. fix IH 1. intros [t|e cs|].
  - apply HText.
  - apply HElem. induction cs as [|c cs IHcs]; constructor; [apply IH|apply IHcs].
  - apply HOther.
Qed.

(** *** Lists of indices *)

Lemma indices_between_split m lo mid hi :
  lo ≤ mid → mid ≤ hi →
  indices_between m lo hi
  = indices_between m lo mid ++ indices_between m mid hi.
Proof.
  intros H1 H2. unfold indices_between.
  replace (hi - lo) with ((mid - lo) + (hi - mid)) by lia.
  rewrite seq_app, omap_app. do 3 f_equal. lia.
Qed.

Lemma indices_between_ext m m' lo hi :
  (∀ k, lo ≤ k < hi → m !! k = m' !! k) →
  indices_between m lo hi = indices_between m' lo hi.
Proof.
  intros Hext. unfold indices_between.
  assert (∀ l : list nat, Forall (λ k, lo ≤ k < hi) l →
            omap (λ k, m !! k ≫= node_index) l
            = omap (λ k, m' !! k ≫= node_index) l) as Haux.
  { induction 1 as [|k l Hk _ IH]; [done|]. cbn. by rewrite Hext, IH. }
  apply Haux, Forall_forall. intros k Hk%elem_of_seq. lia.
Qed.

Lemma indices_between_one m k :
  indices_between m k (S k) = option_list (m !! k ≫= node_index).
Proof.
  unfold indices_between. replace (S k - k) with 1 by lia. cbn.
  by destruct (m !! k ≫= node_index).
Qed.

Lemma indices_between_empty m k : indices_between m k k = [].
Proof. unfold indices_between. by rewrite Nat.sub_diag. Qed.

(** *** What a complete piece of the walk does to the variables *)

Lemma walk_ok_refl s : walk_ok s s.
Proof.
  split; [lia|lia|done|intros k Hk; lia|done| |intros k nd Hk; lia].
  by rewrite indices_between_empty, Nat.sub_diag.
Qed.

Lemma walk_ok_trans s1 s2 s3 : walk_ok s1 s2 → walk_ok s2 s3 → walk_ok s1 s3.
Proof.
  intros H12 H23. destruct H12, H23. split.
  - lia.
  - lia.
  - intros k Hk. rewrite ok_old1 by lia. by apply ok_old0.
  - intros k Hk. destruct (decide (k < ID s2)).
    + rewrite ok_old1 by done. apply ok_new0. lia.
    + apply ok_new1. lia.
  - intros k Hk Hnone. apply ok_above1; [done|]. apply ok_above0; [lia|done].
  - rewrite (indices_between_split _ (ID s1) (ID s2) (ID s3)) by done.
    rewrite (indices_between_ext _ (DOM_HASH_MAP s2) (ID s1) (ID s2)).
    2:{ intros k Hk. apply ok_old1. lia. }
    rewrite ok_indices0, ok_indices1.
    replace (nextIndex s3 - nextIndex s1)
      with ((nextIndex s2 - nextIndex s1) + (nextIndex s3 - nextIndex s2))
      by lia.
    rewrite seq_app.
    by replace (nextIndex s1 + (nextIndex s2 - nextIndex s1))
      with (nextIndex s2) by lia.
  - intros k nd Hk Hlook Hidx. destruct (decide (k < ID s2)).
    + rewrite ok_old1 in Hlook by done. apply (ok_interactive0 k); [lia|done..].
    + apply (ok_interactive1 k); [lia|done..].
Qed.

Lemma text_child_ok t s id s' : text_child t s = (id, s') → walk_ok s s'.
Proof.
  unfold text_child. case_bool_decide.
  - intros [= <- <-]. apply walk_ok_refl.
  - intros [= <- <-]. split; cbn [ID DOM_HASH_MAP nextIndex]; try lia.
    + intros k Hk. by rewrite lookup_insert_ne by lia.
    + intros k Hk. assert (k = ID s) as -> by lia.
      rewrite lookup_insert_eq. by eexists.
    + intros k Hk Hnone. by rewrite lookup_insert_ne by lia.
    + rewrite indices_between_one, lookup_insert_eq, Nat.sub_diag. done.
    + intros k nd Hk. assert (k = ID s) as -> by lia.
      by rewrite lookup_insert_eq.
Qed.

(** *** The equations of the walk *)

Lemma process_children_cons build child rest s :
  process_children build (child :: rest) s =
    let '(id, child', s1) := child_step build child s in
    let '(ids, rest', s2) := process_children build rest s1 in
    (option_list id ++ ids, child' :: rest', s2).
Proof. reflexivity. Qed.

Lemma buildDomTree_Elem w expansion element childNodes s :
  buildDomTree w expansion (Elem element childNodes) s =
    let tagName := Js.toLowerCase (el_tagName element) in
    if bool_decide (tagName ∈ skipTags)
    then (None, Elem element childNodes, s)
    else
      let '(nodeData, element', next) :=
        classify w expansion element (nodeData_new tagName) (nextIndex s) in
      let nodeData := scrollability element' nodeData in
      let '(ids, childNodes', s) :=
        process_children (buildDomTree w expansion) childNodes
                         (set_nextIndex next s) in
      let '(id, s) := record_node (set_children ids nodeData) s in
      (Some id, Elem element' childNodes', s).
Proof. reflexivity. Qed.

(** The two ways out of the block "Check visibility and interactivity":
    nothing assigned, or the next index assigned and stamped. *)
Lemma classify_cases w expansion element d next nd element' next' :
  classify w expansion element d next = (nd, element', next') →
  highlightIndex d = None →
  (next' = next ∧ element' = element ∧ highlightIndex nd = None)
  ∨ (next' = S next
     ∧ element' = setAttribute marker (pretty next) element
     ∧ highlightIndex nd = Some next
     ∧ isInteractive nd = Some true).
Proof.
  unfold classify. intros Hc Hd.
  destruct (isElementVisible element); [|injection Hc as <- <- <-; by left].
  destruct (isTopElement w element expansion && isInteractiveElement element);
    [|injection Hc as <- <- <-; by left].
  destruct (isInViewport w element expansion || (expansion =? -1)%Z);
    injection Hc as <- <- <-; [by right|by left].
Qed.

Lemma scrollability_fields element d :
  highlightIndex (scrollability element d) = highlightIndex d
  ∧ isInteractive (scrollability element d) = isInteractive d
  ∧ locator (scrollability element d) = locator d
  ∧ tagName (scrollability element d) = tagName d.
Proof. unfold scrollability. by destruct (isScrollableElement element). Qed.

Lemma child_step_ok build child :
  (∀ s id n' s', build child s = (id, n', s') → walk_ok s s') →
  ∀ s id n' s', child_step build child s = (id, n', s') → walk_ok s s'.
Proof.
  intros Hbuild s id n' s'. destruct child as [t|e cs|]; cbn.
  - destruct (text_child t s) as [id1 s1] eqn:Ht. intros [= <- <- <-].
    by eapply text_child_ok.
  - apply Hbuild.
  - intros [= <- <- <-]. apply walk_ok_refl.
Qed.

Lemma process_children_ok build cs :
  Forall (λ n, ∀ s id n' s', build n s = (id, n', s') → walk_ok s s') cs →
  ∀ s ids cs' s', process_children build cs s = (ids, cs', s') →
  walk_ok s s'.
Proof.
  induction 1 as [|child rest Hchild _ IH]; intros s ids cs' s'.
  - intros [= <- <- <-]. apply walk_ok_refl.
  - rewrite process_children_cons.
    destruct (child_step build child s) as [[id child'] s1] eqn:Hstep.
    destruct (process_children build rest s1) as [[ids1 rest'] s2] eqn:Hrest.
    intros [= <- <- <-].
    eapply walk_ok_trans; [by eapply child_step_ok|by eapply IH].
Qed.

(** The walk of a subtree allocates the keys and the indices it uses in
    sequence, and leaves the earlier entries alone. *)
Lemma buildDomTree_ok w expansion : ∀ n s id n' s',
  buildDomTree w expansion n s = (id, n', s') → walk_ok s s'.
Proof.
  induction n as [t| |element cs IH] using Node_ind_children;
    intros s id n' s'.
  - intros [= <- <- <-]. apply walk_ok_refl.
  - intros [= <- <- <-]. apply walk_ok_refl.
  - rewrite buildDomTree_Elem. cbn zeta. case_bool_decide as Hskip.
    { intros [= <- <- <-]. apply walk_ok_refl. }
    destruct (classify _ _ _ _ _) as [[nd element'] next] eqn:Hclass.
    destruct (process_children _ _ _) as [[ids cs'] s2] eqn:Hkids.
    intros [= <- <- <-].
    apply process_children_ok in Hkids; [|done].
    destruct Hkids as [HID Hnext Hold Hnew Habove Hidx Hint].
    cbn [set_nextIndex ID nextIndex DOM_HASH_MAP] in *.
    destruct (scrollability_fields element' nd) as (Hs1 & Hs2 & _ & _).
    apply classify_cases in Hclass as Hcases; [|done].
    split; cbn [record_node snd fst ID nextIndex DOM_HASH_MAP].
    + lia.
    + destruct Hcases as [(-> & _)|(-> & _)]; lia.
    + intros k Hk. rewrite lookup_insert_ne by lia. by apply Hold.
    + intros k Hk. destruct (decide (k = ID s2)) as [->|].
      * rewrite lookup_insert_eq. by eexists.
      * rewrite lookup_insert_ne by done. apply Hnew. lia.
    + intros k Hk Hnone. rewrite lookup_insert_ne by lia.
      apply Habove; [lia|done].
    + rewrite (indices_between_split _ (ID s) (ID s2) (S (ID s2))) by lia.
      rewrite indices_between_one, lookup_insert_eq.
      rewrite (indices_between_ext _ (DOM_HASH_MAP s2) (ID s) (ID s2)).
      2:{ intros k Hk. by rewrite lookup_insert_ne by lia. }
      rewrite Hidx. cbn. rewrite Hs1.
      destruct Hcases as [(-> & _ & ->)|(-> & _ & -> & _)]; cbn.
      * by rewrite app_nil_r.
      * rewrite <- Permutation_cons_append.
        replace (nextIndex s2 - nextIndex s)
          with (S (nextIndex s2 - S (nextIndex s))) by lia.
        done.
    + intros k nd' Hk. destruct (decide (k = ID s2)) as [->|].
      * rewrite lookup_insert_eq. intros [= <-]. cbn. rewrite Hs1, Hs2.
        destruct Hcases as [(_ & _ & ->)|(_ & _ & _ & ->)]; [|done].
        by intros [? ?].
      * rewrite lookup_insert_ne by done. apply Hint. lia.
Qed.

(** *** Marker attributes *)

Lemma omap_concat {A B} (f : A → option B) (ls : list (list A)) :
  omap f (concat ls) = concat ((λ l : list A, omap f l) <$> ls).
Proof.
  induction ls as [|l ls IH]; [done|]. cbn. by rewrite omap_app, IH.
Qed.

Lemma markers_Elem e cs :
  markers (Elem e cs)
  = option_list (getAttribute marker e) ++ concat (markers <$> cs).
Proof.
  unfold markers at 1. cbn [elements].
  change (e :: concat (elements <$> cs))
    with ([e] ++ concat (elements <$> cs)).
  by rewrite omap_app, omap_concat, <- list_fmap_compose.
Qed.

Lemma concat_nil_Forall {A} (ls : list (list A)) :
  concat ls = [] → Forall (λ l, l = []) ls.
Proof.
  induction ls as [|l ls IH]; [constructor|]. cbn.
  intros [-> Hls]%app_eq_nil. constructor; auto.
Qed.

Lemma markers_Elem_nil e cs :
  markers (Elem e cs) = [] →
  getAttribute marker e = None ∧ Forall (λ c, markers c = []) cs.
Proof.
  rewrite markers_Elem. intros [He Hcs]%app_eq_nil. split.
  - by destruct (getAttribute marker e).
  - apply concat_nil_Forall in Hcs. by apply Forall_fmap in Hcs.
Qed.

Lemma assoc_filter_ne name attrs :
  assoc name (filter (λ kv, fst kv ≠ name) attrs) = None.
Proof.
  induction attrs as [|[k v] attrs IH]; [done|].
  rewrite filter_cons. cbn. case_decide as Hk; [|done].
  cbn. by rewrite decide_False.
Qed.

Lemma assoc_None_not_in name attrs :
  name ∉ fst <$> attrs → assoc name attrs = None.
Proof.
  induction attrs as [|[k v] attrs IH]; [done|]. cbn.
  intros Hnot. rewrite not_elem_of_cons in Hnot. destruct Hnot as [Hne Hnot].
  rewrite decide_False by done. by apply IH.
Qed.

Lemma getAttribute_setAttribute name value e :
  getAttribute name (setAttribute name value e) = Some value.
Proof.
  unfold getAttribute, setAttribute, hasAttribute. cbn.
  case_bool_decide as Hin.
  - induction (el_attributes e) as [|[k v] attrs IH]; [by inversion Hin|].
    cbn in *. destruct (decide (k = name)) as [->|Hne].
    + cbn. by rewrite decide_True.
    + cbn. rewrite decide_False by done. apply IH.
      apply elem_of_cons in Hin as [?|?]; [congruence|done].
  - induction (el_attributes e) as [|[k v] attrs IH].
    + cbn. by rewrite decide_True.
    + cbn in *. rewrite not_elem_of_cons in Hin. destruct Hin as [Hne Hin].
      rewrite decide_False by done. by apply IH.
Qed.

Lemma markers_clean_node : ∀ n, markers (clean_node n) = [].
Proof.
  induction n as [t| |e cs IH] using Node_ind_children; [done..|].
  cbn [clean_node]. rewrite markers_Elem.
  unfold getAttribute, removeAttribute. cbn. rewrite assoc_filter_ne. cbn.
  rewrite <- list_fmap_compose.
  induction IH as [|c cs Hc _ IHcs]; [done|]. cbn. by rewrite Hc, IHcs.
Qed.

Lemma child_step_markers w expansion child :
  (∀ s id n' s',
     markers child = [] →
     buildDomTree w expansion child s = (id, n', s') →
     markers n' = pretty <$> seq (nextIndex s) (nextIndex s' - nextIndex s)) →
  ∀ s id n' s',
    markers child = [] →
    child_step (buildDomTree w expansion) child s = (id, n', s') →
    markers n' = pretty <$> seq (nextIndex s) (nextIndex s' - nextIndex s).
Proof.
  intros Hbuild s id n' s' Hclean. destruct child as [t|e cs|]; cbn.
  - unfold text_child. case_bool_decide; intros [= <- <- <-]; cbn;
      by rewrite Nat.sub_diag.
  - by apply Hbuild.
  - intros [= <- <- <-]. by rewrite Nat.sub_diag.
Qed.

Lemma process_children_markers w expansion cs :
  Forall (λ n, ∀ s id n' s',
            markers n = [] →
            buildDomTree w expansion n s = (id, n', s') →
            markers n'
            = pretty <$> seq (nextIndex s) (nextIndex s' - nextIndex s)) cs →
  Forall (λ c, markers c = []) cs →
  ∀ s ids cs' s',
    process_children (buildDomTree w expansion) cs s = (ids, cs', s') →
    concat (markers <$> cs')
    = pretty <$> seq (nextIndex s) (nextIndex s' - nextIndex s).
Proof.
  induction 1 as [|child rest Hchild Hrest IH]; intros Hclean s ids cs' s'.
  - intros [= <- <- <-]. cbn. by rewrite Nat.sub_diag.
  - rewrite process_children_cons.
    destruct (child_step _ child s) as [[id child'] s1] eqn:Hstep.
    destruct (process_children _ rest s1) as [[ids1 rest'] s2] eqn:Hkids.
    intros [= <- <- <-].
    apply Forall_cons in Hclean as [Hc Hcs].
    assert (walk_ok s s1) as Hok1.
    { eapply child_step_ok; [|done]. apply buildDomTree_ok. }
    assert (walk_ok s1 s2) as Hok2.
    { eapply process_children_ok; [|done].
      apply Forall_forall. intros ? _. apply buildDomTree_ok. }
    destruct Hok1 as [_ Hn1 _ _ _ _ _], Hok2 as [_ Hn2 _ _ _ _ _].
    cbn. rewrite (child_step_markers _ _ _ Hchild _ _ _ _ Hc Hstep).
    rewrite (IH Hcs _ _ _ _ Hkids). rewrite <- fmap_app. f_equal.
    replace (nextIndex s2 - nextIndex s)
      with ((nextIndex s1 - nextIndex s) + (nextIndex s2 - nextIndex s1))
      by lia.
    rewrite seq_app. do 2 f_equal. lia.
Qed.

(** On a subtree without markers, the walk stamps the indices it assigns
    in document order. *)
Lemma buildDomTree_markers w expansion : ∀ n s id n' s',
  markers n = [] →
  buildDomTree w expansion n s = (id, n', s') →
  markers n' = pretty <$> seq (nextIndex s) (nextIndex s' - nextIndex s).
Proof.
  induction n as [t| |element cs IH] using Node_ind_children;
    intros s id n' s' Hclean.
  - intros [= <- <- <-]. by rewrite Nat.sub_diag.
  - intros [= <- <- <-]. by rewrite Nat.sub_diag.
  - rewrite buildDomTree_Elem. cbn zeta. case_bool_decide as Hskip.
    { intros [= <- <- <-]. by rewrite Nat.sub_diag. }
    destruct (classify _ _ _ _ _) as [[nd element'] next] eqn:Hclass.
    destruct (process_children _ _ _) as [[ids cs'] s2] eqn:Hkids.
    intros [= <- <- <-].
    apply markers_Elem_nil in Hclean as [He Hcs].
    pose proof Hkids as Hok. apply process_children_ok in Hok.
    2:{ apply Forall_forall. intros ? _. apply buildDomTree_ok. }
    destruct Hok as [_ Hnext _ _ _ _ _].
    apply (process_children_markers _ _ _ IH Hcs) in Hkids.
    cbn [set_nextIndex nextIndex record_node snd] in *.
    rewrite markers_Elem, Hkids.
    apply classify_cases in Hclass; [|done].
    destruct Hclass as [(-> & -> & _)|(-> & -> & _)].
    + by rewrite He.
    + rewrite getAttribute_setAttribute. cbn.
      replace (nextIndex s2 - nextIndex s)
        with (S (nextIndex s2 - S (nextIndex s))) by lia.
      done.
Qed.

(** *** The selector map *)

Lemma elem_of_entries (m : gmap nat DomNode) id x :
  (id, x) ∈ SelectorMap.entries m ↔ m !! id = Some x.
Proof.
  unfold SelectorMap.entries. rewrite merge_sort_Permutation.
  apply elem_of_map_to_list.
Qed.

Lemma fold_admit_sound l : ∀ acc i nd,
  foldl SelectorMap.admit_node acc l !! i = Some nd →
  acc !! i = Some nd
  ∨ ∃ id, (id, ELEMENT nd) ∈ l
          ∧ isInteractive nd = Some true ∧ highlightIndex nd = Some i.
Proof.
  induction l as [|[id x] l IH]; intros acc i nd; [by left|].
  cbn [foldl]. intros [Hacc|(id' & Hin & Hrest)]%IH.
  - unfold SelectorMap.admit_node in Hacc. cbn [snd] in Hacc.
    destruct x as [t|e]; [by left|].
    destruct (isInteractive e) as [[|]|] eqn:Hi; [|by left..].
    destruct (highlightIndex e) as [j|] eqn:Hj; [|by left].
    destruct (decide (j = i)) as [->|Hne].
    + rewrite lookup_insert_eq in Hacc. injection Hacc as <-.
      right. exists id. split; [left|done].
    + rewrite lookup_insert_ne in Hacc by done. by left.
  - right. exists id'. split; [by right|done].
Qed.

Lemma fold_admit_mono l : ∀ acc i,
  is_Some (acc !! i) → is_Some (foldl SelectorMap.admit_node acc l !! i).
Proof.
  induction l as [|[id x] l IH]; intros acc i Hacc; [done|].
  cbn [foldl]. apply IH. unfold SelectorMap.admit_node. cbn [snd].
  destruct x as [t|e]; [done|].
  destruct (isInteractive e) as [[|]|]; [|done..].
  destruct (highlightIndex e) as [j|]; [|done].
  destruct (decide (j = i)) as [->|Hne].
  - rewrite lookup_insert_eq. by eexists.
  - by rewrite lookup_insert_ne.
Qed.

Lemma fold_admit_complete l : ∀ acc id nd i,
  (id, ELEMENT nd) ∈ l →
  isInteractive nd = Some true →
  highlightIndex nd = Some i →
  is_Some (foldl SelectorMap.admit_node acc l !! i).
Proof.
  induction l as [|[id' x] l IH]; intros acc id nd i Hin Hi Hj.
  { by inversion Hin. }
  cbn [foldl]. apply elem_of_cons in Hin as [[= <- <-]|Hin].
  - apply fold_admit_mono. unfold SelectorMap.admit_node. cbn [snd].
    rewrite Hi, Hj, lookup_insert_eq. by eexists.
  - by eapply IH.
Qed.

(** Every entry of the selector map is a node of the flat tree that is
    interactive and carries the index it is filed under. *)
Lemma getSelectorMap_sound ft i nd :
  SelectorMap.getSelectorMap ft !! i = Some nd →
  ∃ id, map ft !! id = Some (ELEMENT nd)
        ∧ isInteractive nd = Some true ∧ highlightIndex nd = Some i.
Proof.
  unfold SelectorMap.getSelectorMap.
  intros [Hempty|(id & Hin & Hrest)]%fold_admit_sound.
  - by rewrite lookup_empty in Hempty.
  - exists id. by rewrite <- elem_of_entries.
Qed.

Lemma getSelectorMap_complete ft id nd i :
  map ft !! id = Some (ELEMENT nd) →
  isInteractive nd = Some true →
  highlightIndex nd = Some i →
  is_Some (SelectorMap.getSelectorMap ft !! i).
Proof.
  intros Hlook Hi Hj. unfold SelectorMap.getSelectorMap.
  eapply fold_admit_complete; [|done..]. by apply elem_of_entries.
Qed.

Lemma size_initial_segment {A} (m : gmap nat A) n :
  (∀ i, is_Some (m !! i) ↔ i < n) → size m = n.
Proof.
  intros Hdom. rewrite <- size_dom.
  assert (dom m = set_seq 0 n) as ->.
  { apply set_eq. intros i. rewrite elem_of_dom, elem_of_set_seq, Hdom. lia. }
  apply size_set_seq.
Qed.

(** *** Locators *)

Lemma string_length_app (a b : string) :
  String.length (a +:+ b) = String.length a + String.length b.
Proof.
  induction a as [|c a IH]; [done|].
  change (S (String.length (a +:+ b)) = S (String.length a + String.length b)).
  by rewrite IH.
Qed.

Lemma string_app_inv_tail (s a b : string) : a +:+ s = b +:+ s → a = b.
Proof.
  revert b. induction a as [|c a IH]; intros [|c' b] Heq; [done| | |].
  - apply (f_equal String.length) in Heq.
    rewrite !string_length_app in Heq. cbn in Heq. lia.
  - apply (f_equal String.length) in Heq.
    rewrite !string_length_app in Heq. cbn in Heq. lia.
  - injection Heq as -> Heq. f_equal. by apply IH.
Qed.

Lemma matches_marker_selector i e :
  matches (page_locator (marker_selector i)) e = true
  ↔ getAttribute marker e = Some (pretty i).
Proof.
  unfold matches, page_locator, marker_selector. cbn [selector].
  destruct (getAttribute marker e) as [v|]; [|done].
  rewrite bool_decide_eq_true. split.
  - intros Heq. apply (inj (String.app _)) in Heq.
    apply string_app_inv_tail in Heq. by injection Heq as ->.
  - by intros [= ->].
Qed.

Lemma filter_omap_length {A B} `{EqDecision B} (f : A → option B) v l :
  length (filter (λ x, f x = Some v) l)
  = length (filter (λ y, y = v) (omap f l)).
Proof.
  induction l as [|x l IH]; [done|].
  rewrite filter_cons.
  change (omap f (x :: l))
    with (match f x with Some y => y :: omap f l | None => omap f l end).
  destruct (f x) as [y|] eqn:Hx.
  - rewrite filter_cons. destruct (decide (y = v)) as [->|Hne].
    + rewrite decide_True by done. cbn. by rewrite IH.
    + rewrite decide_False by congruence. done.
  - rewrite decide_False by done. done.
Qed.

Lemma count_pretty_seq i n :
  length (filter (λ y, y = pretty i) (pretty <$> seq 0 n))
  = if decide (i < n) then 1 else 0.
Proof.
  induction n as [|n IH]; [done|].
  rewrite seq_S, fmap_app, filter_app, length_app, IH.
  change (pretty <$> [0 + n]) with [pretty n].
  rewrite filter_cons, filter_nil.
  destruct (decide (pretty n = pretty i)) as [Heq|Hne].
  - apply (inj pretty) in Heq as ->.
    rewrite decide_False by lia. rewrite decide_True by lia. done.
  - assert (n ≠ i) by congruence.
    destruct (decide (i < n)).
    + rewrite decide_True by lia. done.
    + rewrite decide_False by lia. done.
Qed.

(** In a document whose markers are [0], ..., [N - 1], the locator of an
    index below [N] resolves to exactly one element. *)
Lemma resolve_marker_unique d i n :
  document_markers d = pretty <$> seq 0 n →
  i < n →
  length (resolve (page_locator (marker_selector i)) d) = 1.
Proof.
  intros Hmarkers Hi. unfold resolve.
  rewrite (list_filter_iff _ (λ e, getAttribute marker e = Some (pretty i))).
  2:{ intros e. apply matches_marker_selector. }
  rewrite filter_omap_length. fold (document_markers d).
  rewrite Hmarkers, count_pretty_seq. by rewrite decide_True.
Qed.

(** *** The element behind an index *)

Lemma stamped_nil s els : stamped s s els.
Proof. intros k nd i Hk. lia. Qed.

Lemma stamped_app s1 s2 s3 els1 els2 :
  walk_ok s1 s2 → walk_ok s2 s3 →
  stamped s1 s2 els1 → stamped s2 s3 els2 → stamped s1 s3 (els1 ++ els2).
Proof.
  intros H12 H23 Hs1 Hs2 k nd i Hk Hlook Hi.
  destruct H12 as [? _ _ _ _ _ _], H23 as [? _ Hold _ _ _ _].
  destruct (decide (k < ID s2)).
  - rewrite Hold in Hlook by done.
    destruct (Hs1 k nd i) as (e & He & Hrest); [lia|done..|].
    exists e. split; [apply elem_of_app; by left|done].
  - destruct (Hs2 k nd i) as (e & He & Hrest); [lia|done..|].
    exists e. split; [apply elem_of_app; by right|done].
Qed.

Lemma child_step_stamped w expansion child :
  (∀ s id n' s', buildDomTree w expansion child s = (id, n', s') →
                 stamped s s' (elements n')) →
  ∀ s id n' s', child_step (buildDomTree w expansion) child s = (id, n', s') →
                stamped s s' (elements n').
Proof.
  intros Hbuild s id n' s'. destruct child as [t|e cs|]; cbn [child_step].
  - unfold text_child. case_bool_decide; intros [= <- <- <-].
    + apply stamped_nil.
    + intros k nd i Hk. cbn [ID DOM_HASH_MAP] in *.
      assert (k = ID s) as -> by lia. by rewrite lookup_insert_eq.
  - apply Hbuild.
  - intros [= <- <- <-]. apply stamped_nil.
Qed.

Lemma process_children_stamped w expansion cs :
  Forall (λ n, ∀ s id n' s', buildDomTree w expansion n s = (id, n', s') →
                             stamped s s' (elements n')) cs →
  ∀ s ids cs' s',
    process_children (buildDomTree w expansion) cs s = (ids, cs', s') →
    stamped s s' (concat (elements <$> cs')).
Proof.
  induction 1 as [|child rest Hchild _ IH]; intros s ids cs' s'.
  - intros [= <- <- <-]. apply stamped_nil.
  - rewrite process_children_cons.
    destruct (child_step _ child s) as [[id child'] s1] eqn:Hstep.
    destruct (process_children _ rest s1) as [[ids1 rest'] s2] eqn:Hkids.
    intros [= <- <- <-]. cbn [fmap list_fmap concat].
    eapply stamped_app.
    + eapply child_step_ok; [|done]. apply buildDomTree_ok.
    + eapply process_children_ok; [|done].
      apply Forall_forall. intros ? _. apply buildDomTree_ok.
    + by eapply child_step_stamped.
    + by eapply IH.
Qed.

Lemma classify_tagName w expansion element d next nd element' next' :
  classify w expansion element d next = (nd, element', next') →
  tagName nd = tagName d ∧ el_tagName element' = el_tagName element.
Proof.
  unfold classify.
  destruct (isElementVisible element); [|by intros [= <- <- <-]].
  destruct (_ && _); [|by intros [= <- <- <-]].
  destruct (_ || _); by intros [= <- <- <-].
Qed.

(** The walk stamps the element of every entry to which it gives an
    index. *)
Lemma buildDomTree_stamped w expansion : ∀ n s id n' s',
  buildDomTree w expansion n s = (id, n', s') → stamped s s' (elements n').
Proof.
  induction n as [t| |element cs IH] using Node_ind_children;
    intros s id n' s'.
  - intros [= <- <- <-]. apply stamped_nil.
  - intros [= <- <- <-]. apply stamped_nil.
  - rewrite buildDomTree_Elem. cbn zeta. case_bool_decide as Hskip.
    { intros [= <- <- <-]. apply stamped_nil. }
    destruct (classify _ _ _ _ _) as [[nd element'] next] eqn:Hclass.
    destruct (process_children _ _ _) as [[ids cs'] s2] eqn:Hkids.
    intros [= <- <- <-].
    pose proof Hkids as Hok. apply process_children_ok in Hok.
    2:{ apply Forall_forall. intros ? _. apply buildDomTree_ok. }
    apply (process_children_stamped _ _ _ IH) in Hkids.
    destruct (scrollability_fields element' nd) as (Hs1 & _ & _ & Hs4).
    pose proof (classify_tagName _ _ _ _ _ _ _ _ Hclass) as [Htag Htag'].
    apply classify_cases in Hclass; [|done].
    intros k nd' i Hk Hlook Hi.
    cbn [record_node snd ID DOM_HASH_MAP set_nextIndex] in *.
    destruct (decide (k = ID s2)) as [->|Hne].
    + rewrite lookup_insert_eq in Hlook. injection Hlook as <-.
      cbn [set_children highlightIndex tagName] in *.
      rewrite Hs1 in Hi. rewrite Hs4, Htag. cbn [nodeData_new tagName].
      destruct Hclass as [(_ & _ & Hnone)|(_ & -> & Hsome & _)];
        [congruence|].
      rewrite Hsome in Hi. injection Hi as <-.
      exists (setAttribute marker (pretty (nextIndex s)) element).
      split; [left|]. split; [apply getAttribute_setAttribute|done].
    + rewrite lookup_insert_ne in Hlook by done.
      destruct (Hkids k nd' i) as (e & He & Hrest); [cbn; lia|done..|].
      exists e. split; [right; exact He|done].
Qed.

(** *** The snapshot of one extraction pass *)

Lemma omap_NoDup_inj {A B} (f : A → option B) l x x' y :
  NoDup (omap f l) → x ∈ l → x' ∈ l → f x = Some y → f x' = Some y → x = x'.
Proof.
  induction l as [|a l IH]; intros Hnd Hx Hx' Hfx Hfx'; [by inversion Hx|].
  change (omap f (a :: l))
    with (match f a with Some b => b :: omap f l | None => omap f l end)
    in Hnd.
  apply elem_of_cons in Hx as [->|Hx]; apply elem_of_cons in Hx' as [->|Hx'].
  - done.
  - rewrite Hfx in Hnd. apply NoDup_cons in Hnd as [Hnot _].
    destruct Hnot. apply list_elem_of_omap. eauto.
  - rewrite Hfx' in Hnd. apply NoDup_cons in Hnd as [Hnot _].
    destruct Hnot. apply list_elem_of_omap. eauto.
  - apply IH; try done. destruct (f a); [by apply NoDup_cons in Hnd as [_ ?]|done].
Qed.

Lemma document_markers_clean d : document_markers (clean d) = [].
Proof.
  unfold document_markers, document_elements, clean. cbn [outside body].
  rewrite omap_app.
  assert (omap (getAttribute marker)
            (concat (elements <$> (clean_node <$> outside d))) = []) as ->.
  { induction (outside d) as [|n l IH]; [done|]. cbn.
    rewrite omap_app, IH. fold (markers (clean_node n)).
    by rewrite markers_clean_node. }
  destruct (body d) as [b|]; [|done]. cbn.
  fold (markers (clean_node b)). by rewrite markers_clean_node.
Qed.

(** The script: the indices carried by the entries of the map it returns
    are 0, ..., [n - 1], each carried by one interactive entry, and the
    markers it leaves in the document are these indices in document
    order. *)
Lemma evaluate_snapshot w expansion d :
  ∃ n,
    (∀ i, i < n →
       ∃ id nd, map (evaluate w expansion d).1 !! id = Some (ELEMENT nd)
                ∧ highlightIndex nd = Some i)
    ∧ (∀ id nd i,
         map (evaluate w expansion d).1 !! id = Some (ELEMENT nd) →
         highlightIndex nd = Some i →
         i < n ∧ isInteractive nd = Some true)
    ∧ (∀ id id' nd nd' i,
         map (evaluate w expansion d).1 !! id = Some (ELEMENT nd) →
         map (evaluate w expansion d).1 !! id' = Some (ELEMENT nd') →
         highlightIndex nd = Some i →
         highlightIndex nd' = Some i →
         id = id')
    ∧ document_markers (evaluate w expansion d).2 = pretty <$> seq 0 n
    ∧ (∀ id nd i,
         map (evaluate w expansion d).1 !! id = Some (ELEMENT nd) →
         highlightIndex nd = Some i →
         ∃ e, e ∈ document_elements (evaluate w expansion d).2
              ∧ getAttribute marker e = Some (pretty i)
              ∧ Js.toLowerCase (el_tagName e) = tagName nd).
Proof.
  unfold evaluate.
  destruct (body (clean d)) as [b|] eqn:Hbody.
  2:{ exists 0. cbn [fst snd map]. split; [|split; [|split; [|split]]].
      - intros i Hi. lia.
      - intros id nd i Hid. by rewrite lookup_empty in Hid.
      - intros id id' nd nd' i Hid. by rewrite lookup_empty in Hid.
      - apply document_markers_clean.
      - intros id nd i Hid. by rewrite lookup_empty in Hid. }
  destruct (buildDomTree w expansion b walk_start) as [[root b'] s'] eqn:Hwalk.
  cbn [fst snd map].
  assert (markers b = []) as Hclean.
  { unfold clean in Hbody. cbn in Hbody.
    destruct (body d) as [b0|]; [|done]. injection Hbody as <-.
    apply markers_clean_node. }
  pose proof (buildDomTree_markers _ _ _ _ _ _ _ Hclean Hwalk) as Hmarkers.
  pose proof (buildDomTree_stamped _ _ _ _ _ _ _ Hwalk) as Hstamped.
  apply buildDomTree_ok in Hwalk as [_ _ _ Hnew Habove Hidx Hint].
  cbn [walk_start ID nextIndex DOM_HASH_MAP] in *.
  rewrite Nat.sub_0_r in *.
  set (m := DOM_HASH_MAP s') in *. set (n := nextIndex s') in *.
  assert (∀ k x, m !! k = Some x → k ∈ seq 0 (ID s' - 0)) as Hdom.
  { intros k x Hk. apply elem_of_seq. destruct (decide (k < ID s')); [lia|].
    rewrite Habove in Hk; [done|lia|apply lookup_empty]. }
  assert (∀ id nd i, m !! id = Some (ELEMENT nd) → highlightIndex nd = Some i →
            i ∈ indices_between m 0 (ID s')) as Hin.
  { intros id nd i Hid Hi. apply list_elem_of_omap. exists id.
    split; [by eapply Hdom|]. by rewrite Hid. }
  exists n. split; [|split; [|split; [|split]]].
  - intros i Hi.
    assert (i ∈ indices_between m 0 (ID s')) as Hi'.
    { rewrite Hidx. apply elem_of_seq. lia. }
    apply list_elem_of_omap in Hi' as (id & _ & Hid).
    destruct (m !! id) as [[t|nd]|] eqn:Hlook; [done| |done].
    by exists id, nd.
  - intros id nd i Hid Hi. split.
    + pose proof (Hin id nd i Hid Hi) as Hi'. rewrite Hidx in Hi'.
      apply elem_of_seq in Hi'. lia.
    + apply (Hint id); [|done|by eexists].
      apply Hdom, elem_of_seq in Hid. lia.
  - intros id id' nd nd' i Hid Hid' Hi Hi'.
    apply (omap_NoDup_inj (λ k, m !! k ≫= node_index)
             (seq 0 (ID s' - 0)) id id' i).
    + fold (indices_between m 0 (ID s')). rewrite Hidx. apply NoDup_seq.
    + by eapply Hdom.
    + by eapply Hdom.
    + by rewrite Hid.
    + by rewrite Hid'.
  - pose proof (document_markers_clean d) as Hout.
    unfold document_markers, document_elements in Hout |- *.
    rewrite omap_app in Hout. apply app_eq_nil in Hout as [Hout _].
    cbn [outside body from_option]. rewrite omap_app, Hout.
    fold (markers b'). by rewrite Hmarkers.
  - intros id nd i Hid Hi.
    destruct (Hstamped id nd i) as (e & He & Hrest); [|done..|].
    { apply Hdom, elem_of_seq in Hid. cbn [walk_start ID]. lia. }
    exists e. split; [|done]. unfold document_elements.
    cbn [outside body from_option]. apply elem_of_app. by right.
Qed.

Lemma with_locator_ELEMENT x nd :
  with_locator x = ELEMENT nd →
  ∃ nd0, x = ELEMENT nd0
         ∧ highlightIndex nd = highlightIndex nd0
         ∧ (isInteractive nd0 = Some true →
            ∀ i, highlightIndex nd0 = Some i →
                 nd = set_locator (page_locator (marker_selector i)) nd0).
Proof.
  destruct x as [t|nd0]; [done|]. cbn. intros Heq. exists nd0.
  split; [done|].
  destruct (isInteractive nd0) as [[|]|] eqn:Hi;
    destruct (highlightIndex nd0) as [j|] eqn:Hj; injection Heq as <-;
    cbn; rewrite ?Hj; (split; [done|]); intros Hi' i Hj'; try done.
  by injection Hj' as ->.
Qed.

Lemma with_locator_indexed nd0 i :
  isInteractive nd0 = Some true →
  highlightIndex nd0 = Some i →
  with_locator (ELEMENT nd0)
  = ELEMENT (set_locator (page_locator (marker_selector i)) nd0).
Proof. intros Hi Hj. cbn. by rewrite Hi, Hj. Qed.

(** C3: in the snapshot of one extraction pass, the indices are exactly
    0, ..., [N - 1], [N] being the size of the selector map: the selector
    map is defined on these and no other indices, every node of the flat
    tree that carries an index is the entry of the selector map at that
    index (so no two nodes share one) and is interactive; the markers
    stamped on the page, read in document order, are 0, 1, ..., [N - 1];
    and every such node holds the locator made from the selector
    [[data-pw-agent-index="i"]] of its index [i], which resolves to exactly
    one element of the page as the pass leaves it, the element with the
    node's tag that the pass stamped with [i]. *)
Theorem snapshot_indices_contiguous_and_resolvable :
  ∀ w config d,
    let ft := (getFlatTree w config d).1 in
    let d' := (getFlatTree w config d).2 in
    let sel := SelectorMap.getSelectorMap ft in
    let N := size sel in
    (∀ i, is_Some (sel !! i) ↔ i < N)
    ∧ (∀ id nd i,
         map ft !! id = Some (ELEMENT nd) →
         highlightIndex nd = Some i →
         i < N ∧ sel !! i = Some nd)
    ∧ document_markers d' = pretty <$> seq 0 N
    ∧ (∀ i nd,
         sel !! i = Some nd →
         highlightIndex nd = Some i
         ∧ isInteractive nd = Some true
         ∧ locator nd = Some (page_locator (marker_selector i))
         ∧ ∃ e, resolve (page_locator (marker_selector i)) d' = [e]
                ∧ getAttribute marker e = Some (pretty i)
                ∧ Js.toLowerCase (el_tagName e) = tagName nd).
Proof.
  intros w config d ft d' sel N.
  set (expansion := default VIEWPORT_EXPANSION (viewportExpansion config)).
  destruct (evaluate_snapshot w expansion d)
    as (n & Hall & Hrange & Huniq & Hmarkers & Hstamped).
  assert (ft = {| rootId := rootId (evaluate w expansion d).1;
                  map := with_locator <$> map (evaluate w expansion d).1 |})
    as Hft.
  { unfold ft, getFlatTree. fold expansion.
    by destruct (evaluate w expansion d). }
  assert (d' = (evaluate w expansion d).2) as Hd'.
  { unfold d', getFlatTree. fold expansion.
    by destruct (evaluate w expansion d). }
  set (m := map (evaluate w expansion d).1) in *.
  assert (∀ id nd, map ft !! id = Some (ELEMENT nd) →
            ∃ nd0, m !! id = Some (ELEMENT nd0)
                   ∧ highlightIndex nd = highlightIndex nd0
                   ∧ (∀ i, highlightIndex nd0 = Some i →
                        nd = set_locator (page_locator (marker_selector i))
                                         nd0)) as Hback.
  { intros id nd. rewrite Hft. cbn [map]. rewrite lookup_fmap.
    destruct (m !! id) as [x|] eqn:Hx; [|done]. cbn. intros [= Hx'].
    apply with_locator_ELEMENT in Hx' as (nd0 & -> & Hidx & Hloc).
    exists nd0. repeat split; [done|]. intros i Hi. apply Hloc; [|done].
    by apply (Hrange id nd0 i). }
  assert (∀ id nd0 i, m !! id = Some (ELEMENT nd0) →
            highlightIndex nd0 = Some i →
            map ft !! id
            = Some (ELEMENT (set_locator (page_locator (marker_selector i))
                                         nd0))) as Hforth.
  { intros id nd0 i Hid Hi. rewrite Hft. cbn [map].
    rewrite lookup_fmap, Hid. cbn [fmap option_fmap option_map]. f_equal.
    apply with_locator_indexed; [|done]. by apply (Hrange id nd0 i). }
  assert (∀ i, is_Some (sel !! i) ↔ i < n) as Hdom.
  { intros i. split.
    - intros [nd (id & Hid & _ & Hi)%getSelectorMap_sound].
      apply Hback in Hid as (nd0 & Hid & Hidx & _).
      rewrite Hidx in Hi. by apply (Hrange id nd0 i).
    - intros (id & nd0 & Hid & Hi)%Hall.
      eapply getSelectorMap_complete; [by apply Hforth|done|done]. }
  assert (N = n) as HN by (by apply size_initial_segment).
  rewrite HN. split; [done|]. split; [|split].
  - intros id nd i Hid Hi.
    pose proof Hid as (nd0 & Hid0 & Hidx & Hloc)%Hback.
    rewrite Hidx in Hi. split; [by apply (Hrange id nd0 i)|].
    assert (is_Some (sel !! i)) as [nd' Hsel].
    { apply Hdom. by apply (Hrange id nd0 i). }
    pose proof Hsel as (id' & Hid' & _ & Hi')%getSelectorMap_sound.
    pose proof Hid' as (nd0' & Hid0' & Hidx' & _)%Hback.
    rewrite Hidx' in Hi'.
    assert (id = id') as <- by (by eapply Huniq).
    rewrite Hsel. congruence.
  - by rewrite Hd'.
  - intros i nd Hsel.
    pose proof Hsel as (id & Hid & Hint & Hi)%getSelectorMap_sound.
    pose proof Hid as (nd0 & Hid0 & Hidx & Hloc)%Hback.
    rewrite Hidx in Hi. rewrite (Hloc i Hi).
    split; [done|]. split; [done|]. split; [done|].
    destruct (Hstamped id nd0 i Hid0 Hi) as (e & He & Hmark & Htag).
    exists e. rewrite Hd'. split; [|by split].
    assert (length (resolve (page_locator (marker_selector i))
                      (evaluate w expansion d).2) = 1) as Hone.
    { eapply resolve_marker_unique; [done|]. by apply (Hrange id nd0 i). }
    assert (e ∈ resolve (page_locator (marker_selector i))
                  (evaluate w expansion d).2) as Hin.
    { apply list_elem_of_filter. split; [|done].
      by apply matches_marker_selector. }
    destruct (resolve _ _) as [|e0 [|e1 l]]; [done| |done].
    by apply list_elem_of_singleton in Hin as ->.
Qed.

(** *** Every element the walk comes to is a call of [buildDomTree] *)

Lemma keeps_trans s1 s2 s3 : keeps s1 s2 → keeps s2 s3 → keeps s1 s3.
Proof.
  intros [H1 H1'] [H2 H2']. split; [lia|].
  intros k Hk. rewrite H2' by lia. by apply H1'.
Qed.

Lemma walk_ok_keeps s s' : walk_ok s s' → keeps s s'.
Proof. intros [? _ ? _ _ _ _]. by split. Qed.

Lemma elem_of_concat_intro {A} (x : A) l ls : x ∈ l → l ∈ ls → x ∈ concat ls.
Proof.
  intros Hx Hl. induction Hl as [l ls|l l' ls _ IH]; cbn;
    apply elem_of_app; auto.
Qed.

Lemma subtrees_self n : n ∈ subtrees n.
Proof. destruct n; left. Qed.

Lemma subtrees_child e cs c n :
  c ∈ cs → n ∈ subtrees c → n ∈ subtrees (Elem e cs).
Proof.
  intros Hc Hn. cbn [subtrees]. right.
  eapply elem_of_concat_intro; [done|]. by apply list_elem_of_fmap_2.
Qed.

Lemma child_step_call w expansion child s id child' s' :
  child_step (buildDomTree w expansion) child s = (id, child', s') →
  ∃ id1 s1, buildDomTree w expansion child s = (id1, child', s1)
            ∧ walk_ok s1 s'.
Proof.
  destruct child as [t|e cs|]; cbn [child_step].
  - destruct (text_child t s) as [id1 s1] eqn:Ht. intros [= <- <- <-].
    exists None, s. split; [done|]. by eapply text_child_ok.
  - intros Hb. exists id, s'. split; [done|]. apply walk_ok_refl.
  - intros [= <- <- <-]. exists None, s. split; [done|]. apply walk_ok_refl.
Qed.

Lemma process_children_reaches w expansion cs : ∀ c,
  c ∈ cs →
  ∀ s ids cs' s',
    process_children (buildDomTree w expansion) cs s = (ids, cs', s') →
    ∃ s0 id0 c' s0',
      buildDomTree w expansion c s0 = (id0, c', s0')
      ∧ c' ∈ cs'
      ∧ keeps s0' s'.
Proof.
  induction cs as [|child rest IH]; intros c Hc s ids cs' s';
    [by inversion Hc|].
  rewrite process_children_cons.
  destruct (child_step _ child s) as [[id child'] s1] eqn:Hstep.
  destruct (process_children _ rest s1) as [[ids1 rest'] s2] eqn:Hkids.
  intros [= <- <- <-].
  apply elem_of_cons in Hc as [->|Hc].
  - apply child_step_call in Hstep as (id1 & s1' & Hcall & Hok).
    exists s, id1, child', s1'. split; [done|]. split; [left|].
    apply walk_ok_keeps. eapply walk_ok_trans; [done|].
    eapply process_children_ok; [|done].
    apply Forall_forall. intros ? _. apply buildDomTree_ok.
  - destruct (IH c Hc _ _ _ _ Hkids)
      as (s0 & id0 & c' & s0' & Hcall & Hin & Hok).
    exists s0, id0, c', s0'. split; [done|]. split; [by right|done].
Qed.

(** The walk from [root] calls [buildDomTree] on every node it comes to;
    what the call leaves on the page is part of what the walk leaves, and
    the entries the call has written stay as they are. *)
Lemma walked_call w expansion root n :
  walked root n →
  ∀ s id root' s',
    buildDomTree w expansion root s = (id, root', s') →
    ∃ s0 id0 n' s0',
      buildDomTree w expansion n s0 = (id0, n', s0')
      ∧ n' ∈ subtrees root'
      ∧ keeps s0' s'.
Proof.
  induction 1 as [n|element cs c n Hskip Hc Hwalked IH];
    intros s id root' s' Hroot.
  - exists s, id, root', s'. split; [done|].
    split; [apply subtrees_self|]. by split.
  - rewrite buildDomTree_Elem in Hroot. cbn zeta in Hroot.
    rewrite bool_decide_eq_false_2 in Hroot by done.
    destruct (classify _ _ _ _ _) as [[nd element'] next] eqn:Hclass.
    destruct (process_children _ _ _) as [[ids cs'] s2] eqn:Hkids.
    injection Hroot as <- <- <-.
    destruct (process_children_reaches _ _ _ _ Hc _ _ _ _ Hkids)
      as (s0 & id0 & c' & s0' & Hcall & Hin & Hok).
    destruct (IH _ _ _ _ Hcall) as (sn & idn & n' & sn' & Hn & Hsub & Hokn).
    exists sn, idn, n', sn'. split; [done|].
    split; [by eapply subtrees_child|].
    eapply keeps_trans; [done|]. eapply keeps_trans; [done|].
    split; cbn [record_node snd ID nextIndex DOM_HASH_MAP]; [lia|].
    intros k Hk. by rewrite lookup_insert_ne by lia.
Qed.

End ExtractorProps.

(** ** Interactive elements outside the viewport *)

Section ViewportProps.
Import Browser.

(** With an expansion that is not negative, an element whose hit test
    has an answer lies in the expanded viewport: the centre of its
    rectangle is a point of the window. *)
Lemma topmost_in_viewport w element expansion :
  (0 ≤ expansion)%Z →
  DomTree.isTopElement w element expansion = true →
  DomTree.isInViewport w element expansion = true.
Proof.
  intros Hexp. unfold DomTree.isTopElement, DomTree.isInViewport.
  assert ((expansion =? -1)%Z = false) as -> by lia.
  destruct (_ || _); [done|].
  unfold DomTree.centre_in_window, right, bottom.
  rewrite !andb_true_iff, !Z.leb_le.
  intros [(((Hx0 & Hx1) & Hy0) & Hy1) _].
  rewrite negb_true_iff, !orb_false_iff, !Z.ltb_ge. lia.
Qed.

(** The entry [DomTree.buildDomTree] writes for an element outside the
    expanded viewport, when the expansion is not negative. *)
Lemma buildDomTree_out_of_viewport w expansion element childNodes s :
  (0 ≤ expansion)%Z →
  Js.toLowerCase (el_tagName element) ∉ DomTree.skipTags →
  DomTree.isInViewport w element expansion = false →
  ∃ id nd childNodes' s',
    DomTree.buildDomTree w expansion (Elem element childNodes) s
    = (Some id, Elem element childNodes', s')
    ∧ DomTree.DOM_HASH_MAP s' !! id = Some (ELEMENT nd)
    ∧ id < DomTree.ID s'
    ∧ tagName nd = Js.toLowerCase (el_tagName element)
    ∧ isVisible nd = (if DomTree.isElementVisible element then Some true
                      else None)
    ∧ isTopElement nd = (if DomTree.isElementVisible element then Some false
                         else None)
    ∧ isInViewport nd = (if DomTree.isElementVisible element
                         then Some false else None)
    ∧ isInteractive nd = None
    ∧ highlightIndex nd = None
    ∧ locator nd = None.
Proof.
  intros Hexp Hskip Hout.
  assert (DomTree.isTopElement w element expansion = false) as Htop.
  { destruct (DomTree.isTopElement w element expansion) eqn:Htop; [|done].
    apply topmost_in_viewport in Htop; [congruence|done]. }
  rewrite buildDomTree_Elem. cbn zeta.
  rewrite bool_decide_eq_false_2 by done.
  unfold DomTree.classify. rewrite Htop, Hout.
  destruct (DomTree.isElementVisible element); cbn [andb];
    destruct (DomTree.process_children _ _ _) as [[ids cs'] s2] eqn:Hkids;
    cbn [DomTree.record_node];
    (eexists _, _, _, _; split; [reflexivity|];
     cbn [DomTree.ID DomTree.DOM_HASH_MAP]; rewrite lookup_insert_eq;
     split; [reflexivity|]; split; [lia|];
     unfold DomTree.scrollability;
     by destruct (DomTree.isScrollableElement element)).
Qed.

Lemma walked_markers root n :
  DomTree.walked root n → markers root = [] → markers n = [].
Proof.
  induction 1 as [n|element cs c n Hskip Hc Hwalked IH]; [done|].
  intros [_ Hcs]%markers_Elem_nil. apply IH.
  by eapply Forall_forall in Hcs.
Qed.

End ViewportProps.

(** ** Properties of the serializer *)

Section SerializerProps.
Import Serializer SerializerSpec.










(** *** Bare text lines *)









(** *** Folded texts *)




(** *** The nearest indexed ancestor *)


End SerializerProps.

(** ** The serializer on the snapshot of an extraction pass *)

Section SnapshotProps.
Import Browser DomTree.

Lemma with_locator_children nd :
  ∃ nd', with_locator (ELEMENT nd) = ELEMENT nd'
         ∧ children nd' = children nd.
Proof.
  cbn. destruct (isInteractive nd) as [[|]|], (highlightIndex nd);
    eexists; split; reflexivity.
Qed.

Lemma snapshot_of_keeps m s s' : keeps s s' → snapshot_of m s' → snapshot_of m s.
Proof.
  intros [HID Hold] Hm k Hk. rewrite Hm by lia. by rewrite Hold.
Qed.

Lemma builds_element fuel ft id nd :
  map ft !! id = Some (ELEMENT nd) →
  Forall (Serializer.builds fuel ft) (default [] (children nd)) →
  Serializer.builds (S fuel) ft id.
Proof.
  intros Hid Hkids. unfold Serializer.builds. cbn [Serializer.buildTreeNode].
  rewrite Hid.
  destruct (mapM_is_Some_2 (Serializer.buildTreeNode fuel ft)
              (default [] (children nd))) as [built ->].
  { eapply Forall_impl; [exact Hkids|]. intros k [t Ht]. cbn. by rewrite Ht. }
  cbn. by eexists.
Qed.

Lemma child_step_builds w expansion ft child :
  (∀ s id n' s' fuel,
     buildDomTree w expansion child s = (Some id, n', s') →
     snapshot_of (map ft) s' → ID s' - ID s ≤ fuel → Serializer.builds fuel ft id) →
  ∀ s id n' s' fuel,
    child_step (buildDomTree w expansion) child s = (Some id, n', s') →
    snapshot_of (map ft) s' → ID s' - ID s ≤ fuel → Serializer.builds fuel ft id.
Proof.
  intros Hbuild s id n' s' fuel. destruct child as [t|e cs|]; cbn.
  - unfold text_child. case_bool_decide; [done|].
    intros [= <- <- <-] Hm Hfuel. cbn [ID] in *.
    destruct fuel as [|fuel]; [lia|].
    exists (Serializer.TText (Js.trim t) true). cbn.
    rewrite Hm by (cbn; lia). cbn. by rewrite lookup_insert_eq.
  - apply Hbuild.
  - done.
Qed.

Lemma process_children_builds w expansion ft cs :
  Forall (λ n, ∀ s id n' s' fuel,
            buildDomTree w expansion n s = (Some id, n', s') →
            snapshot_of (map ft) s' → ID s' - ID s ≤ fuel →
            Serializer.builds fuel ft id) cs →
  ∀ s ids cs' s' fuel,
    process_children (buildDomTree w expansion) cs s = (ids, cs', s') →
    snapshot_of (map ft) s' → ID s' - ID s ≤ fuel →
    Forall (Serializer.builds fuel ft) ids.
Proof.
  induction 1 as [|child rest Hchild _ IH]; intros s ids cs' s' fuel.
  - intros [= <- <- <-] _ _. constructor.
  - rewrite process_children_cons.
    destruct (child_step _ child s) as [[id child'] s1] eqn:Hstep.
    destruct (process_children _ rest s1) as [[ids1 rest'] s2] eqn:Hkids.
    intros [= <- <- <-] Hm Hfuel.
    assert (walk_ok s s1) as Hok1.
    { eapply child_step_ok; [|done]. apply buildDomTree_ok. }
    assert (walk_ok s1 s2) as Hok2.
    { eapply process_children_ok; [|done].
      apply Forall_forall. intros ? _. apply buildDomTree_ok. }
    apply Forall_app. split.
    + destruct id as [id|]; [|constructor]. repeat constructor.
      eapply (child_step_builds _ _ _ _ Hchild); [done| |].
      * eapply snapshot_of_keeps; [by apply walk_ok_keeps|done].
      * destruct Hok1, Hok2. lia.
    + eapply IH; [done|done|]. destruct Hok1, Hok2. lia.
Qed.

(** The entries the walk writes for a subtree can be built back into a
    tree, with as much fuel as the subtree has entries. *)
Lemma buildDomTree_builds w expansion ft : ∀ n s id n' s' fuel,
  buildDomTree w expansion n s = (Some id, n', s') →
  snapshot_of (map ft) s' → ID s' - ID s ≤ fuel → Serializer.builds fuel ft id.
Proof.
  induction n as [t| |element cs IH] using Node_ind_children;
    intros s id n' s' fuel; [done..|].
  rewrite buildDomTree_Elem. cbn zeta. case_bool_decide as Hskip; [done|].
  destruct (classify _ _ _ _ _) as [[nd element'] next] eqn:Hclass.
  destruct (process_children _ _ _) as [[ids cs'] s2] eqn:Hkids.
  intros [= <- <- <-] Hm Hfuel.
  cbn [record_node snd ID] in *.
  pose proof Hkids as Hok. apply process_children_ok in Hok.
  2:{ apply Forall_forall. intros ? _. apply buildDomTree_ok. }
  destruct Hok as [HID _ _ _ _ _ _]. cbn [set_nextIndex ID] in HID.
  destruct fuel as [|fuel]; [lia|].
  destruct (with_locator_children
              (set_children ids (scrollability element' nd)))
    as (nd' & Hnd' & Hkids').
  apply (builds_element _ _ _ nd').
  - rewrite Hm by (cbn; lia). cbn [DOM_HASH_MAP]. rewrite lookup_insert_eq.
    cbn [fmap option_fmap option_map]. by f_equal.
  - rewrite Hkids'. cbn [set_children children default].
    eapply (process_children_builds _ _ _ _ IH); [done| |].
    + intros k Hk. rewrite Hm by (cbn; lia). cbn [DOM_HASH_MAP].
      by rewrite lookup_insert_ne by lia.
    + cbn [set_nextIndex ID]. lia.
Qed.

Lemma buildDomTree_None w expansion n s n' s' :
  buildDomTree w expansion n s = (None, n', s') → s' = s.
Proof.
  destruct n as [t|element cs|]; [by intros [= <- <-]| |by intros [= <- <-]].
  rewrite buildDomTree_Elem. cbn zeta. case_bool_decide; [by intros [= <- <-]|].
  destruct (classify _ _ _ _ _) as [[nd element'] next].
  by destruct (process_children _ _ _) as [[ids cs'] s2].
Qed.

(** The fuel [updateTree] gives the serializer is enough on every
    snapshot: the refresh of the snapshot always returns. *)
Lemma flatTreeToString_snapshot w config d include :
  let ft := (getFlatTree w config d).1 in
  is_Some (Serializer.flatTreeToString (S (size (map ft))) ft include).
Proof.
  intros ft. unfold Serializer.flatTreeToString.
  assert (∃ r, Serializer.buildTreeNode (S (size (map ft))) ft (rootId ft)
               = Some r) as [r ->]; [|cbn; by destruct r].
  unfold ft, getFlatTree.
  set (expansion := default VIEWPORT_EXPANSION (viewportExpansion config)).
  unfold evaluate. destruct (body (clean d)) as [b|].
  2:{ cbn. by eexists. }
  destruct (buildDomTree w expansion b walk_start) as [[[id|] b'] s'] eqn:Hwalk.
  2:{ apply buildDomTree_None in Hwalk as ->. cbn. by eexists. }
  cbn [fst snd map rootId default].
  set (ft' := {| rootId := id; map := with_locator <$> DOM_HASH_MAP s' |}).
  pose proof Hwalk as Hok. apply buildDomTree_ok in Hok.
  assert (size (with_locator <$> DOM_HASH_MAP s') = ID s') as ->.
  { rewrite map_size_fmap. apply size_initial_segment.
    intros k. destruct Hok as [_ _ _ Hnew Habove _ _].
    cbn [walk_start ID DOM_HASH_MAP] in *. split.
    - intros Hsome. destruct (decide (k < ID s')); [done|].
      rewrite Habove in Hsome; [by destruct Hsome|lia|apply lookup_empty].
    - intros Hk. apply Hnew. lia. }
  destruct (buildDomTree_builds w expansion ft' _ _ _ _ _ (S (ID s')) Hwalk)
    as [t Ht].
  - intros k Hk. unfold ft'. cbn [map]. apply lookup_fmap.
  - cbn. lia.
  - exists (Some t). exact Ht.
Qed.

Lemma updateTree_total config now w d c :
  is_Some (Controller.updateTree config now w d c).
Proof.
  unfold Controller.updateTree.
  pose proof (flatTreeToString_snapshot w config d (include_attributes config))
    as Hs.
  destruct (getFlatTree w config d) as [ft d']. cbn [fst] in Hs.
  destruct Hs as [html ->]. cbn. by eexists.
Qed.

End SnapshotProps.

(** ** Attribute deduplication *)

Section DedupProps.
Import Serializer.

Lemma assoc_app_Some k o o' v :
  Browser.assoc k o = Some v → Browser.assoc k (o ++ o') = Some v.
Proof.
  induction o as [|[k' v'] o IH]; [done|]. cbn.
  destruct (decide (k' = k)); [done|]. apply IH.
Qed.

Lemma assoc_app_None k o o' :
  k ∉ fst <$> o → Browser.assoc k (o ++ o') = Browser.assoc k o'.
Proof.
  induction o as [|[k' v'] o IH]; [done|]. cbn.
  intros Hnot. apply not_elem_of_cons in Hnot as [Hne Hnot].
  rewrite decide_False by done. by apply IH.
Qed.

Lemma assoc_Some_key k o v : Browser.assoc k o = Some v → k ∈ fst <$> o.
Proof.
  induction o as [|[k' v'] o IH]; [done|]. cbn.
  destruct (decide (k' = k)) as [->|]; [left|right; by apply IH].
Qed.

Lemma assoc_Some_elem k o v : Browser.assoc k o = Some v → (k, v) ∈ o.
Proof.
  induction o as [|[k' v'] o IH]; [done|]. cbn.
  destruct (decide (k' = k)) as [->|]; [intros [= ->]; left|right; by apply IH].
Qed.

Lemma elem_assoc_NoDup k v o :
  NoDup (fst <$> o) → (k, v) ∈ o → Browser.assoc k o = Some v.
Proof.
  induction o as [|[k' v'] o IH]; intros Hnd Hin; [by inversion Hin|].
  cbn in Hnd. apply NoDup_cons in Hnd as [Hnot Hnd].
  apply elem_of_cons in Hin as [[= -> ->]|Hin]; cbn.
  - by rewrite decide_True.
  - rewrite decide_False; [by apply IH|].
    intros ->. apply Hnot. apply list_elem_of_fmap. by exists (k, v).
Qed.

(** *** The object [attributesToInclude] *)

Lemma obj_set_keys k v o :
  ∀ k', k' ∈ fst <$> obj_set k v o ↔ k' = k ∨ k' ∈ fst <$> o.
Proof.
  intros k'. unfold obj_set. case_bool_decide as Hin.
  - rewrite <- list_fmap_compose.
    assert (fst ∘ (λ kv : string * string,
                     if decide (fst kv = k) then (k, v) else kv)
            <$> o = fst <$> o) as ->.
    { apply list_fmap_ext. intros _ [k0 v0] _. cbn. by case_decide. }
    split; [by right|]. by intros [->|?].
  - rewrite fmap_app, elem_of_app. cbn. rewrite list_elem_of_singleton.
    tauto.
Qed.

Lemma obj_set_NoDup k v o :
  NoDup (fst <$> o) → NoDup (fst <$> obj_set k v o).
Proof.
  intros Hnd. unfold obj_set. case_bool_decide as Hin.
  - rewrite <- list_fmap_compose.
    assert (fst ∘ (λ kv : string * string,
                     if decide (fst kv = k) then (k, v) else kv)
            <$> o = fst <$> o) as ->; [|done].
    apply list_fmap_ext. intros _ [k0 v0] _. cbn. by case_decide.
  - rewrite fmap_app. apply NoDup_app. split; [done|]. split.
    + intros k' Hk' ->%list_elem_of_singleton. done.
    + apply NoDup_singleton.
Qed.

Lemma filter_attributes_keys keys attrs :
  NoDup (fst <$> filter_attributes keys attrs)
  ∧ ∀ k, k ∈ fst <$> filter_attributes keys attrs → k ∈ keys.
Proof.
  unfold filter_attributes.
  assert (∀ acc : list (string * string),
            NoDup (fst <$> acc) →
            ∀ seen : list string,
              (∀ k, k ∈ fst <$> acc → k ∈ seen) →
              let r := foldl
                (λ attributesToInclude key,
                   match attrs !! key with
                   | Some value =>
                       if negb (bool_decide (value = ""))
                          && negb (bool_decide (Js.trim value = ""))
                       then obj_set key (Js.trim value) attributesToInclude
                       else attributesToInclude
                   | None => attributesToInclude
                   end) acc keys in
              NoDup (fst <$> r) ∧ ∀ k, k ∈ fst <$> r → k ∈ seen ++ keys)
    as Haux.
  { induction keys as [|key keys IH]; intros acc Hnd seen Hseen r.
    - subst r. cbn. split; [done|]. intros k Hk. rewrite app_nil_r. auto.
    - subst r. cbn [foldl].
      set (acc' := match attrs !! key with
                   | Some value => _
                   | None => acc
                   end).
      destruct (IH acc') with (seen := seen ++ [key]) as [H1 H2].
      + subst acc'. destruct (attrs !! key); [|done].
        destruct (_ && _); [|done]. by apply obj_set_NoDup.
      + intros k Hk. subst acc'. apply elem_of_app.
        destruct (attrs !! key); [|left; auto].
        destruct (_ && _); [|left; auto].
        apply obj_set_keys in Hk as [->|Hk]; [right; left|left; auto].
      + split; [done|]. intros k Hk. apply H2 in Hk.
        by rewrite <- app_assoc in Hk. }
  destruct (Haux [] (NoDup_nil_2) []) as [H1 H2].
  { intros k Hk. by inversion Hk. }
  split; [done|]. intros k Hk. by apply H2 in Hk.
Qed.

Lemma elem_of_obj_delete k o kv :
  kv ∈ obj_delete k o ↔ kv ∈ o ∧ fst kv ≠ k.
Proof. unfold obj_delete. rewrite list_elem_of_filter. tauto. Qed.

Lemma elem_of_delete_all o (remove : list string) kv :
  kv ∈ foldl (λ o key, obj_delete key o) o remove
  ↔ kv ∈ o ∧ fst kv ∉ remove.
Proof.
  revert o. induction remove as [|k remove IH]; intros o; cbn [foldl].
  - split; [intros ?; split; [done|by intros ?%elem_of_nil]|by intros [? _]].
  - rewrite IH, elem_of_obj_delete, not_elem_of_cons. tauto.
Qed.

(** *** The loop over [orderedKeys] *)

Lemma dedup_step_first_holders A visited st key :
  first_holders A visited st →
  first_holders A (visited ++ [key]) (dedup_step A st key).
Proof.
  destruct st as [remove seen]. intros HJ k Hk Hlen Hkeep.
  unfold dedup_step in *.
  destruct (5 <? String.length (default "" (obj_get key A))) eqn:Hlong.
  2:{ apply elem_of_app in Hk as [Hk|Hk%list_elem_of_singleton];
        [by apply HJ|]. subst k.
      apply Nat.ltb_ge in Hlong. lia. }
  destruct (Js.in_object _ _) eqn:Hin.
  - cbn [fst snd] in *.
    assert ((k ∉ remove) ∧ (k ≠ key)) as [Hkeep' Hne].
    { case_bool_decide; [split; [done|congruence]|].
      apply not_elem_of_app in Hkeep as [? Hk'].
      split; [done|]. intros ->. apply Hk'. left. }
    apply elem_of_app in Hk as [Hk|Hk%list_elem_of_singleton]; [|done].
    by apply (HJ k).
  - cbn [fst snd] in *. unfold Js.in_object in Hin.
    apply orb_false_iff in Hin as [Hown _].
    apply bool_decide_eq_false in Hown.
    unfold obj_set. rewrite bool_decide_eq_false_2 by done.
    destruct (decide (k = key)) as [->|Hne].
    + unfold obj_get. rewrite assoc_app_None by done. cbn.
      by rewrite decide_True.
    + apply elem_of_app in Hk as [Hk|?%list_elem_of_singleton]; [|done].
      unfold obj_get. apply assoc_app_Some. by apply (HJ k).
Qed.

Lemma dedup_loop_first_holders A keys : ∀ visited st,
  first_holders A visited st →
  first_holders A (visited ++ keys) (foldl (dedup_step A) st keys).
Proof.
  induction keys as [|key keys IH]; intros visited st HJ; cbn [foldl].
  - by rewrite app_nil_r.
  - replace (visited ++ key :: keys) with ((visited ++ [key]) ++ keys)
      by (by rewrite <- app_assoc).
    apply IH. by apply dedup_step_first_holders.
Qed.

Lemma two_elements_length {A} (x y : A) l :
  x ∈ l → y ∈ l → x ≠ y → 1 < length l.
Proof.
  intros Hx Hy Hne. destruct l as [|a [|b l]]; cbn; [by inversion Hx| |lia].
  apply list_elem_of_singleton in Hx, Hy. congruence.
Qed.

(** After "Remove duplicate values", no two attributes share a value of
    more than five characters, whatever the allow-list is. *)
Lemma remove_duplicate_values_differ keys attrs k1 k2 v :
  let A := filter_attributes keys attrs in
  (k1, v) ∈ remove_duplicate_values keys A →
  (k2, v) ∈ remove_duplicate_values keys A →
  5 < String.length v →
  k1 = k2.
Proof.
  intros A H1 H2 Hlen.
  destruct (filter_attributes_keys keys attrs) as [Hnd Hkeys]. fold A in Hnd, Hkeys.
  unfold remove_duplicate_values in H1, H2.
  set (orderedKeys := filter (λ key, key ∈ fst <$> A) keys) in *.
  assert (∀ k v', (k, v') ∈ A → k ∈ orderedKeys) as Hordered.
  { intros k v' Hin. apply list_elem_of_filter.
    assert (k ∈ fst <$> A) by (apply list_elem_of_fmap; by exists (k, v')).
    split; [done|]. by apply Hkeys. }
  destruct (1 <? length orderedKeys) eqn:Hmany.
  - destruct (foldl (dedup_step A) ([], []) orderedKeys)
      as [remove seen] eqn:Hloop.
    apply elem_of_delete_all in H1 as [H1 Hk1], H2 as [H2 Hk2].
    cbn [fst] in Hk1, Hk2.
    pose proof (dedup_loop_first_holders A orderedKeys [] ([], [])) as HJ.
    rewrite Hloop in HJ. cbn [app] in HJ.
    assert (first_holders A [] ([], [])) as H0
      by (intros k Hk; by inversion Hk).
    specialize (HJ H0).
    pose proof (HJ k1 (Hordered _ _ H1)) as HJ1.
    pose proof (HJ k2 (Hordered _ _ H2)) as HJ2.
    unfold obj_get in HJ1, HJ2.
    rewrite (elem_assoc_NoDup _ _ _ Hnd H1) in HJ1.
    rewrite (elem_assoc_NoDup _ _ _ Hnd H2) in HJ2.
    cbn [default fst snd] in HJ1, HJ2.
    specialize (HJ1 Hlen Hk1). specialize (HJ2 Hlen Hk2). congruence.
  - destruct (decide (k1 = k2)) as [|Hne]; [done|].
    apply Nat.ltb_ge in Hmany.
    pose proof (two_elements_length k1 k2 orderedKeys
                  (Hordered _ _ H1) (Hordered _ _ H2) Hne). lia.
Qed.

Lemma remove_role_subset tag o kv : kv ∈ remove_role tag o → kv ∈ o.
Proof.
  unfold remove_role. case_bool_decide; [|done].
  by intros [? _]%elem_of_obj_delete.
Qed.

Lemma remove_text_duplicates_subset text o kv :
  kv ∈ remove_text_duplicates text o → kv ∈ o.
Proof.
  unfold remove_text_duplicates.
  generalize ["aria-label"; "placeholder"; "title"].
  intros attrs. revert o. induction attrs as [|attr attrs IH]; intros o; [done|].
  cbn [foldl]. intros Hin%IH. destruct (obj_get attr o); [|done].
  destruct (_ && _); [|done]. by apply elem_of_obj_delete in Hin as [? _].
Qed.

(** The first half of C5 holds for every allow-list and every element: no
    two attributes retained on an element line share a value of more than
    five characters. *)
Lemma retained_values_differ keys e text k1 k2 v :
  (k1, v) ∈ retained_attributes keys e text →
  (k2, v) ∈ retained_attributes keys e text →
  5 < String.length v →
  k1 = k2.
Proof.
  unfold retained_attributes. destruct (0 <? length keys); [|by inversion 1].
  intros H1%remove_text_duplicates_subset%remove_role_subset
         H2%remove_text_duplicates_subset%remove_role_subset.
  by apply (remove_duplicate_values_differ keys (te_attributes e) k1 k2 v).
Qed.

(** *** The first occurrence, when the allow-list repeats no name *)

(** How one turn of the loop changes [keysToRemove] and the keys of
    [seenValues]. *)
Lemma dedup_step_changes A st key :
  let value := default "" (obj_get key A) in
  let st' := dedup_step A st key in
  (∀ x, x ∈ fst st → x ∈ fst st')
  ∧ (∀ x, x ∈ fst st' → x ∈ fst st ∨ x = key)
  ∧ (∀ y, y ∈ fst <$> snd st → y ∈ fst <$> snd st')
  ∧ (∀ y, y ∈ fst <$> snd st' → y ∈ fst <$> snd st ∨ y = value)
  ∧ (5 < String.length value → value ∈ fst <$> snd st → key ∈ fst st')
  ∧ (5 < String.length value → value ∉ Js.Object_prototype_names →
     value ∈ fst <$> snd st').
Proof.
  destruct st as [remove seen]. cbn zeta. unfold dedup_step.
  set (value := default "" (obj_get key A)).
  destruct (5 <? String.length value) eqn:Hlong.
  2:{ apply Nat.ltb_ge in Hlong. cbn [fst snd].
      repeat split; try (by auto); intros; lia. }
  apply Nat.ltb_lt in Hlong. unfold Js.in_object.
  destruct (bool_decide (value ∈ fst <$> seen)) eqn:Hown.
  - cbn [orb fst snd]. apply bool_decide_eq_true in Hown.
    repeat split; try (by auto).
    + intros x Hx. case_bool_decide; [done|]. apply elem_of_app. by left.
    + intros x Hx. case_bool_decide; [by left|].
      apply elem_of_app in Hx as [?|?%list_elem_of_singleton]; auto.
    + intros _ _. case_bool_decide; [done|]. apply elem_of_app. right. left.
  - cbn [orb]. apply bool_decide_eq_false in Hown.
    destruct (bool_decide (value ∈ Js.Object_prototype_names)) eqn:Hproto.
    + cbn [fst snd]. apply bool_decide_eq_true in Hproto.
      repeat split; try (by auto); try done.
      * intros x Hx. case_bool_decide; [done|]. apply elem_of_app. by left.
      * intros x Hx. case_bool_decide; [by left|].
        apply elem_of_app in Hx as [?|?%list_elem_of_singleton]; auto.
    + cbn [fst snd]. apply bool_decide_eq_false in Hproto.
      repeat split; try (by auto); try done.
      * intros y Hy. apply obj_set_keys. by right.
      * intros y Hy. apply obj_set_keys in Hy as [-> |?]; auto.
      * intros _ _. apply obj_set_keys. by left.
Qed.

Lemma dedup_loop_changes A keys : ∀ st,
  let st' := foldl (dedup_step A) st keys in
  (∀ x, x ∈ fst st → x ∈ fst st')
  ∧ (∀ x, x ∈ fst st' → x ∈ fst st ∨ x ∈ keys)
  ∧ (∀ y, y ∈ fst <$> snd st → y ∈ fst <$> snd st')
  ∧ (∀ y, y ∈ fst <$> snd st' →
       y ∈ fst <$> snd st ∨ ∃ k, k ∈ keys ∧ default "" (obj_get k A) = y)
  ∧ (∀ k, k ∈ keys → 5 < String.length (default "" (obj_get k A)) →
       default "" (obj_get k A) ∈ fst <$> snd st → k ∈ fst st').
Proof.
  induction keys as [|key keys IH]; intros st; cbn zeta; cbn [foldl].
  - split; [auto|]. split; [intros x Hx; by left|]. split; [auto|].
    split; [intros y Hy; by left|]. intros k Hk. by inversion Hk.
  - destruct (dedup_step_changes A st key) as (S1 & S2 & S3 & S4 & S5 & _).
    destruct (IH (dedup_step A st key)) as (L1 & L2 & L3 & L4 & L5).
    cbn zeta in *. repeat split.
    + auto.
    + intros x [Hx|Hx]%L2; [|right; by right].
      apply S2 in Hx as [?| ->]; [by left|right; left].
    + auto.
    + intros y [Hy|(k & Hk & Hy)]%L4.
      * apply S4 in Hy as [?| ->]; [by left|]. right. exists key. split; [left|done].
      * right. exists k. split; [by right|done].
    + intros k [->|Hk]%elem_of_cons Hlen Hseen.
      * apply L1. by apply S5.
      * apply L5; auto.
Qed.

(** When the allow-list repeats no name, "Remove duplicate values" keeps
    the first attribute, in allow-list order, that carries a value of more
    than five characters, and drops every later attribute with that value
    (the value not being the name of a member of [Object.prototype]). *)
Lemma first_occurrence_kept keys attrs pre k post v :
  let A := filter_attributes keys attrs in
  NoDup keys →
  filter (λ key, key ∈ fst <$> A) keys = pre ++ k :: post →
  obj_get k A = Some v →
  5 < String.length v →
  v ∉ Js.Object_prototype_names →
  (∀ k', k' ∈ pre → obj_get k' A ≠ Some v) →
  (k, v) ∈ remove_duplicate_values keys A
  ∧ ∀ k2, k2 ∈ post → obj_get k2 A = Some v →
          (k2, v) ∉ remove_duplicate_values keys A.
Proof.
  intros A Hnd Hordered Hk Hlen Hproto Hfirst.
  assert (NoDup (pre ++ k :: post)) as Hnd'.
  { rewrite <- Hordered. by apply NoDup_filter. }
  apply NoDup_app in Hnd' as (_ & Hpre & [Hpost _]%NoDup_cons).
  unfold remove_duplicate_values. rewrite Hordered.
  destruct (1 <? length (pre ++ k :: post)) eqn:Hmany.
  2:{ apply Nat.ltb_ge in Hmany. rewrite length_app in Hmany. cbn in Hmany.
      assert (post = []) as -> by (destruct post; [done|cbn in Hmany; lia]).
      split; [by apply assoc_Some_elem|]. intros k2 Hk2. by inversion Hk2. }
  rewrite foldl_app. cbn [foldl].
  destruct (dedup_loop_changes A pre ([], [])) as (_ & P2 & _ & P4 & _).
  cbn zeta in P2, P4.
  destruct (foldl (dedup_step A) ([], []) pre) as [remove1 seen1].
  cbn [fst snd] in P2, P4.
  assert (k ∉ remove1) as Hk1.
  { intros [?%elem_of_nil|Hin]%P2; [done|]. apply (Hpre k Hin). left. }
  assert (v ∉ fst <$> seen1) as Hv1.
  { intros [?%elem_of_nil|(k' & Hk' & Hval)]%P4; [done|].
    apply (Hfirst k' Hk'). destruct (obj_get k' A) as [v'|]; cbn in Hval.
    - by subst v'.
    - subst v. cbn in Hlen. lia. }
  assert (dedup_step A (remove1, seen1) k = (remove1, obj_set v k seen1))
    as ->.
  { unfold dedup_step. rewrite Hk. cbn [from_option id].
    assert ((5 <? String.length v) = true) as -> by (by apply Nat.ltb_lt).
    unfold Js.in_object.
    by rewrite (bool_decide_eq_false_2 _ Hv1), (bool_decide_eq_false_2 _ Hproto). }
  destruct (dedup_loop_changes A post (remove1, obj_set v k seen1))
    as (_ & L2 & _ & _ & L5).
  cbn zeta in L2, L5.
  destruct (foldl (dedup_step A) (remove1, obj_set v k seen1) post)
    as [remove seen].
  cbn [fst snd] in L2, L5.
  split.
  - apply elem_of_delete_all. split; [by apply assoc_Some_elem|].
    cbn [fst]. intros [?|?]%L2; [done|]. by apply Hpost.
  - intros k2 Hk2 Hval. rewrite elem_of_delete_all. intros [_ Hkeep].
    apply Hkeep. cbn [fst]. apply L5; [done| |]; rewrite Hval;
      cbn [from_option id].
    + done.
    + apply obj_set_keys. by left.
Qed.

End DedupProps.

(** ** Properties of the controller *)

Section ControllerProps.

(** C10: before the first [updateTree] (the freshly constructed
    controller), and again after [dispose()] whatever the controller held,
    [getSimplifiedHTML()] is the sentinel ["<EMPTY>"] (which is not the
    empty string), [getElementCount()] is 0 and [getElementText(i)] is
    [undefined] for every index [i]. *)
Theorem controller_empty_before_update_and_after_dispose :
  Controller.holds_no_snapshot Controller.new
  ∧ ∀ c, Controller.holds_no_snapshot (Controller.dispose c).
Proof.
  split; [|intros c]; repeat split; done.
Qed.

(** C6: a click whose [scrollIntoViewIfNeeded] or [click] rejects, on an
    index that the selector map resolves to a node with a locator.  The
    action [clickElement] returns the failure, and the controller passes
    it on, unless the snapshot attributes of the node have
    [target="_blank"]: that branch does not look at the result of the
    action and returns [success = true] with the message that the element
    was clicked, followed by the warning about new tabs. *)
Theorem failed_click_on_target_blank_is_reported_as_clicked :
  ∀ pg c index node l err,
    selectorMap c !! index = Some node →
    locator node = Some l →
    page_click pg l = Some err →
    Actions.clickElement pg (locator node)
    = {| success := false;
         message := "❌ Failed to click element: " +:+ err |}
    ∧ Controller.clickElement pg c index
      = if bool_decide (attributes node ≫= (.!! "target") = Some "_blank")
        then {| success := true;
                message := "✅ Clicked element ("
                  +:+ Controller.elem_label c index +:+
                  "). ⚠️ Link opens in a new tab. You are not capable of reading new tabs." |}
        else {| success := false;
                message := "❌ Failed to click element: " +:+ err |}.
Proof.
  intros pg c index node l err Hsel Hloc Herr.
  unfold Controller.clickElement, Actions.clickElement.
  rewrite Hsel, Hloc, Herr. cbn [success message].
  split; [done|]. by case_bool_decide.
Qed.

End ControllerProps.

(** ** Properties of the agent loop *)

Section AgentProps.
Import Agent.

Lemma assembleUserPrompt_history w step a a' :
  assembleUserPrompt w step a = Return a' → history a' = history a.
Proof.
  unfold assembleUserPrompt.
  destruct (page_error_at_step w step); [done|].
  destruct (Controller.updateTree _ _ _ _ _) as [[c d]|]; [|done].
  by intros [= <-].
Qed.

Lemma macroTool_execute_history w step a input r a' :
  macroTool_execute w step a input = (r, a') →
  history a' = if aborted_in_tool w step then [] else history a.
Proof.
  unfold macroTool_execute.
  destruct (aborted_in_tool w step); [by intros [= <- <-]|].
  destruct (pause_times_out_in_tool w step); [by intros [= <- <-]|].
  destruct (action input) as [toolName toolInput].
  destruct (tools a !! toolName) as [tool|]; [|by intros [= <- <-]].
  destruct (run_tool w step a tool toolInput); [|by intros [= <- <-]].
  case_bool_decide; by intros [= <- <-].
Qed.

(** A turn that does not throw appends exactly its entry to the history. *)
Lemma run_step_pushes w step a entry a' :
  run_step w step a = (Return entry, a') →
  history a' = history a ++ [entry].
Proof.
  unfold run_step.
  destruct (aborted_at_step w step); [done|].
  destruct (pause_times_out_at_step w step); [done|].
  destruct (assembleUserPrompt w step a) as [a1|] eqn:Hp; [|done].
  apply assembleUserPrompt_history in Hp.
  destruct (llm_reply w step (history a1)) as [|input usage]; [done|].
  destruct (macroTool_execute w step a1 input) as [[m|] a2] eqn:Hm; [|done].
  pose proof (macroTool_execute_history _ _ _ _ _ _ Hm) as Hh.
  unfold macroTool_execute in Hm.
  destruct (aborted_in_tool w step); [done|].
  intros [= <- <-]. simpl. by rewrite Hh, Hp.
Qed.

(** A turn that throws leaves the history as it was, unless it throws
    for an abort, which finds the history empty. *)
Lemma run_step_throw_history w step a e a' :
  run_step w step a = (Throw e, a') →
  (history a' = history a ∨ history a' = [])
  ∧ (aborted_at_step w step = false → aborted_in_tool w step = false →
     history a' = history a)
  ∧ (aborted_at_step w step = true →
     e = "Error: AbortError" ∧ history a' = []).
Proof.
  unfold run_step.
  destruct (aborted_at_step w step).
  { intros [= <- <-]. cbn. split; [by right|]. by split. }
  destruct (pause_times_out_at_step w step);
    [intros [= <- <-]; split; [by left|by split]|].
  destruct (assembleUserPrompt w step a) as [a1|] eqn:Hp;
    [|intros [= <- <-]; split; [by left|by split]].
  apply assembleUserPrompt_history in Hp.
  destruct (llm_reply w step (history a1)) as [|input usage];
    [intros [= <- <-]; split; [by left|by split]|].
  destruct (macroTool_execute w step a1 input) as [[m|] a2] eqn:Hm;
    [done|].
  apply macroTool_execute_history in Hm.
  intros [= <- <-]. rewrite Hm, Hp.
  destruct (aborted_in_tool w step); (split; [|by split]); [by right|by left].
Qed.

Lemma turns_without_done_history w n : ∀ step a a',
  turns_without_done w n step a = Some a' →
  length (history a') = length (history a) + n.
Proof.
  induction n as [|n IH]; intros step a a'; simpl.
  - intros [= <-]. lia.
  - destruct (run_step w step a) as [[entry|e] a1] eqn:Hs; [|done].
    case_bool_decide; [done|].
    intros Ht. apply IH in Ht. apply run_step_pushes in Hs.
    rewrite Ht, Hs, length_app. simpl. lia.
Qed.

(** The loop from the turn [step], when the remaining turns up to the
    turn [max_steps] all go on: it stops on the step limit. *)
Lemma loop_reaches_limit max_steps w : ∀ n fuel step a a',
  step + n = S max_steps →
  n ≤ fuel →
  turns_without_done w n step a = Some a' →
  0 < n →
  loop max_steps w fuel step a =
    Some ({| r_success := false;
             r_data := "Step count exceeded maximum limit";
             r_history := history a' |}, a').
Proof.
  induction n as [|n IH]; intros fuel step a a' Hn Hfuel Ht Hpos; [lia|].
  destruct fuel as [|fuel]; [lia|].
  cbn [turns_without_done] in Ht. cbn [loop].
  destruct (run_step w step a) as [[entry|e] a1] eqn:Hs; [|done].
  case_bool_decide as Hdone; [done|].
  destruct n as [|n].
  - cbn [turns_without_done] in Ht. injection Ht as <-.
    assert ((max_steps <? S step) = true) as -> by (apply Nat.ltb_lt; lia).
    done.
  - assert ((max_steps <? S step) = false) as -> by (apply Nat.ltb_ge; lia).
    apply IH; [lia|lia|done|lia].
Qed.

Lemma default_hooks_passive : passive default_hooks.
Proof. by repeat split. Qed.

(** With hooks that return and change nothing, [execute] is the loop
    without hooks, and it returns. *)
Lemma loop_with_passive_hooks hooks max_steps w :
  passive hooks →
  ∀ fuel step a,
    loop_with_hooks hooks max_steps w fuel step a
    = (λ ra, (Return ra.1, ra.2)) <$> loop max_steps w fuel step a.
Proof.
  intros (Hbt & Hbs & Has & Hat).
  induction fuel as [|fuel IH]; intros step a; [done|].
  cbn [loop_with_hooks loop]. rewrite Hbs.
  destruct (run_step w step a) as [[entry|e] a1].
  - rewrite Has. destruct (max_steps <? S step).
    { unfold finish. by rewrite Hat. }
    case_bool_decide; [|apply IH].
    unfold finish. by rewrite Hat.
  - unfold fail. by rewrite Hat.
Qed.

Lemma execute_with_passive_hooks hooks max_steps w fuel a :
  passive hooks →
  execute_with_hooks hooks max_steps w fuel a
  = (λ ra, (Return ra.1, ra.2)) <$> execute_with max_steps w fuel a.
Proof.
  intros Hp. unfold execute_with_hooks, execute_with.
  destruct Hp as (Hbt & Hp). rewrite Hbt.
  by apply loop_with_passive_hooks.
Qed.

(** C1, as the code has it: with lifecycle hooks that return and change
    nothing (the default), when none of the first [MAX_STEPS + 1] turns
    throws (no abort, and no error of the pause, the page, the model
    client or a tool) and none has the action [done], [execute] makes
    exactly [MAX_STEPS + 1] turns, each appending one history entry, and
    returns [success = false] with the data
    ["Step count exceeded maximum limit"], for every bound on the turns
    above [MAX_STEPS]: the history returned has [MAX_STEPS + 1] entries,
    51 for the default 50 and 4 for [MAX_STEPS = 3]. *)
Theorem execute_stops_at_step_limit :
  ∀ hooks max_steps w fuel a a',
    passive hooks →
    max_steps < fuel →
    turns_without_done w (S max_steps) 0 (set_history [] a) = Some a' →
    execute_with_hooks hooks max_steps w fuel a =
      Some (Return {| r_success := false;
                      r_data := "Step count exceeded maximum limit";
                      r_history := history a' |}, a')
    ∧ length (history a') = S max_steps.
Proof.
  intros hooks max_steps w fuel a a' Hp Hfuel Ht. split.
  - rewrite execute_with_passive_hooks by done. unfold execute_with.
    by rewrite (loop_reaches_limit max_steps w (S max_steps) fuel 0 _ a')
      by (done || lia).
  - apply turns_without_done_history in Ht. by rewrite Ht.
Qed.






(** C8, as the code has it: after a [wait] that returns, the accumulator
    has grown by [Math.round(seconds + duration / 1000)], the seconds asked
    for plus the measured duration of the tool, and the output is the
    result of the tool followed by the system note, which tells the model
    not to wait any longer exactly when the new total is at least 3; after
    any other tool that returns, the accumulator is zero and the output is
    the result of the tool. *)
Theorem wait_accumulates_and_other_tools_reset :
  ∀ w step a macroInput toolName toolInput tool result,
    aborted_in_tool w step = false →
    pause_times_out_in_tool w step = false →
    action macroInput = (toolName, toolInput) →
    tools a !! toolName = Some tool →
    run_tool w step a tool toolInput = Return result →
    (toolName = "wait" →
     ∀ t s,
       totalWaitTime a = Int t →
       in_seconds toolInput = Some s →
       let total :=
         (t + Math_round (s + inject_Z (duration_at_step w step)
                                / inject_Z 1000))%Z in
       let note :=
         result +:+ String "010"%char "<sys> You have waited "
           +:+ pretty total +:+ " seconds accumulatively." in
       totalWaitTime (snd (macroTool_execute w step a macroInput)) = Int total
       ∧ fst (macroTool_execute w step a macroInput) =
           Return {| mt_input := macroInput;
                     mt_output :=
                       (if (3 <=? total)%Z
                        then note +:+ String "010"%char
                          "Do NOT wait any longer unless you have a good reason."
                          +:+ String "010"%char ""
                        else note) +:+ "</sys>" |})
    ∧ (toolName ≠ "wait" →
       totalWaitTime (snd (macroTool_execute w step a macroInput)) = Int 0
       ∧ fst (macroTool_execute w step a macroInput) =
           Return {| mt_input := macroInput; mt_output := result |}).
Proof.
  intros w step a macroInput toolName toolInput tool result
    Hab Hpa Hact Htool Hrun.
  unfold macroTool_execute. rewrite Hab, Hpa, Hact, Htool, Hrun.
  split.
  - intros -> t s Ht Hs. rewrite bool_decide_eq_true_2 by done.
    rewrite Ht, Hs. cbn. done.
  - intros Hne. rewrite bool_decide_eq_false_2 by done. done.
Qed.

End AgentProps.

(** ** The properties on the sample page *)

Section Instances.
Import Agent.

(** Evaluate both sides. *)
Local Ltac run := vm_compute; reflexivity.

Lemma failed_click_on_target_blank_is_reported_as_clicked_witness :
  let c := playwrightController (Sample.refreshed Sample.clicks_7) in
  ∃ l,
    locator <$> selectorMap c !! 0 = Some (Some l)
    ∧ Actions.clickElement Sample.dead_page (Some l)
      = {| success := false;
           message := "❌ Failed to click element: TimeoutError: locator.click: Timeout 5000ms exceeded." |}
    ∧ Controller.clickElement Sample.dead_page c 0
      = {| success := true;
           message := "✅ Clicked element ([0]<a target=_blank>more />). ⚠️ Link opens in a new tab. You are not capable of reading new tabs." |}.
Proof.
  intros c.
  set (node := default (DomTree.nodeData_new "") (selectorMap c !! 0)).
  set (l := default {| selector := "" |} (locator node)).
  exists l.
  destruct (failed_click_on_target_blank_is_reported_as_clicked
              Sample.dead_page c 0 node l
              "TimeoutError: locator.click: Timeout 5000ms exceeded.")
    as [Haction Hclick]; [vm_compute; reflexivity..|].
  split; [vm_compute; reflexivity|]. split.
  - vm_compute. reflexivity.
  - rewrite Hclick. vm_compute. reflexivity.
Defined.


Lemma snapshot_indices_contiguous_and_resolvable_witness :
  let r := DomTree.getFlatTree Sample.window Sample.whole_page
             Sample.document in
  let sel := SelectorMap.getSelectorMap r.1 in
  size sel = 3
  ∧ Browser.document_markers r.2 = ["0"; "1"; "2"]
  ∧ (locator <$> sel !! 2)
    = Some (Some (DomTree.page_locator (DomTree.marker_selector 2)))
  ∧ (Browser.el_tagName
       <$> Browser.resolve
             (DomTree.page_locator (DomTree.marker_selector 2)) r.2)
    = ["INPUT"].
Proof.
  intros r sel.
  destruct (snapshot_indices_contiguous_and_resolvable
              Sample.window Sample.whole_page Sample.document)
    as (Hdom & Hnodes & Hmarkers & Hsel).
  fold r in Hdom, Hnodes, Hmarkers, Hsel. fold sel in Hdom, Hnodes, Hmarkers, Hsel.
  assert (size sel = 3) as Hsize by (vm_compute; reflexivity).
  rewrite Hsize in Hdom, Hmarkers.
  split; [done|]. split; [exact Hmarkers|].
  destruct (proj2 (Hdom 2) ltac:(lia)) as [nd Hnd].
  destruct (Hsel 2 nd Hnd) as (_ & _ & Hloc & e & Hone & _ & Htag).
  rewrite Hnd. cbn. rewrite Hloc. split; [done|].
  vm_compute. reflexivity.
Defined.

Lemma execute_stops_at_step_limit_witness :
  let a' :=
    default Sample.agent
      (turns_without_done Sample.always_waits 4 0
         (set_history [] Sample.agent)) in
  execute_with_hooks default_hooks 3 Sample.always_waits 10 Sample.agent =
    Some (Return {| r_success := false;
                    r_data := "Step count exceeded maximum limit";
                    r_history := history a' |}, a')
  ∧ length (history a') = 4.
Proof.
  intros a'.
  apply (execute_stops_at_step_limit default_hooks 3 Sample.always_waits 10
           Sample.agent a').
  - by repeat split.
  - lia.
  - vm_compute; reflexivity.
Defined.

(** The model client fails in the third turn, after two [wait]s: no
    action is [done] and nothing is aborted, and [execute] returns after
    two steps with the error of the client, far below the step limit. *)
Lemma model_failure_ends_the_run_before_the_limit :
  let w := Sample.model_fails_at_2 in
  (∀ step, aborted_at_step w step = false ∧ aborted_in_tool w step = false)
  ∧ ∃ r a',
      execute_with_hooks default_hooks MAX_STEPS w 60 Sample.agent
      = Some (Return r, a')
      ∧ r_success r = false
      ∧ r_data r = "Error: 503 Service Unavailable"
      ∧ (name ∘ h_action) <$> r_history r = ["wait"; "wait"].
Proof.
  intros w. split; [done|].
  destruct (execute_with_hooks default_hooks MAX_STEPS w 60 Sample.agent)
    as [[[r|e] a']|] eqn:He; try (by vm_compute in He).
  exists r, a'. split; [done|].
  vm_compute in He. by injection He as <- <-.
Qed.





Lemma wait_accumulates_and_other_tools_reset_witness :
  let w := Sample.always_waits in
  let a := Sample.refreshed w in
  totalWaitTime (snd (macroTool_execute w 0 a (Sample.first_input w)))
    = Int 2
  ∧ totalWaitTime
      (snd (macroTool_execute Sample.clicks_7 0
              (set_totalWaitTime (Int 2) a)
              (Sample.first_input Sample.clicks_7)))
    = Int 0.
Proof.
  intros w a. split.
  - pose proof (wait_accumulates_and_other_tools_reset w 0 a
                  (Sample.first_input w) "wait" Sample.wait_1s wait
                  "✅ Waited for 1 seconds."
                  ltac:(run) ltac:(run) ltac:(run) ltac:(run) ltac:(run))
      as [Hwait _].
    pose proof (Hwait eq_refl 0%Z 1%Q ltac:(run) ltac:(run)) as [Htotal _].
    rewrite Htotal. run.
  - pose proof (wait_accumulates_and_other_tools_reset Sample.clicks_7 0
                  (set_totalWaitTime (Int 2) a)
                  (Sample.first_input Sample.clicks_7)
                  "click_element_by_index" (Sample.click 7)
                  click_element_by_index
                  "❌ Failed to click element: Error: No interactive element found at index 7"
                  ltac:(run) ltac:(run) ltac:(run) ltac:(run) ltac:(run))
      as [_ Hother].
    destruct Hother as [Hzero _]; [discriminate|]. exact Hzero.
Defined.

(** C8, as it is stated, fails on the amount: a [wait] of one second whose
    tool ran for 700 ms takes the accumulator from 0 to 2, which is
    neither the second that was asked for nor the 0.7 s that elapsed. *)
Lemma wait_adds_more_than_the_elapsed_wait :
  let w := Sample.always_waits in
  let a := Sample.refreshed w in
  in_seconds (snd (action (Sample.first_input w))) = Some 1%Q
  ∧ duration_at_step w 0 = 700%Z
  ∧ totalWaitTime a = Int 0
  ∧ totalWaitTime (snd (macroTool_execute w 0 a (Sample.first_input w)))
    = Int 2
  ∧ Int 2 ≠ Int (0 + 1)
  ∧ ¬ (inject_Z 2 == inject_Z 700 / inject_Z 1000)%Q.
Proof.
  repeat split; try (vm_compute; reflexivity); [discriminate|].
  vm_compute. discriminate.
Qed.

(** C5 on [<input name="username" id="username">]: with the default
    allow-list the first of the two attributes that share the value is kept
    and the second dropped; when the caller's names repeat a name of the
    default allow-list ([include_attributes = ["name"]]), the loop meets
    [name] twice, takes its second visit for a duplicate and removes it too,
    so that neither attribute is retained and the line has none.  On
    [<input name="constructor" id="constructor">] the default allow-list
    is enough to lose both: the value is a member of [Object.prototype],
    so [value in seenValues] holds at the first visit already. *)
Theorem repeated_allow_list_name_drops_first_occurrence :
  Serializer.retained_attributes (Serializer.includeAttrs None)
    Sample.username_input "" = [("name", "username")]
  ∧ Serializer.includeAttrs (Some ["name"])
    = "name" :: Serializer.DEFAULT_INCLUDE_ATTRIBUTES
  ∧ Serializer.retained_attributes (Serializer.includeAttrs (Some ["name"]))
      Sample.username_input "" = []
  ∧ Serializer.processNode (Serializer.includeAttrs (Some ["name"])) []
      (Serializer.TElement Sample.username_input []) 0
    = [Serializer.ElementLine "[0]<input  />"]
  ∧ Serializer.retained_attributes (Serializer.includeAttrs None)
      Sample.constructor_input "" = [].
Proof. repeat split; vm_compute; reflexivity. Qed.

End Instances.

(** ** Strings *)

Section StringProps.
Import Js.

Lemma string_app_cons c (a b : string) : String c a +:+ b = String c (a +:+ b).
Proof. reflexivity. Qed.

Lemma string_app_nil_l (a : string) : "" +:+ a = a.
Proof. reflexivity. Qed.

Lemma string_app_assoc (a b c : string) : (a +:+ b) +:+ c = a +:+ b +:+ c.
Proof.
  induction a as [|x a IH]; [done|]. rewrite !string_app_cons. by rewrite IH.
Qed.

Lemma string_app_nil_r (a : string) : a +:+ "" = a.
Proof.
  induction a as [|x a IH]; [done|]. rewrite string_app_cons. by rewrite IH.
Qed.

Lemma has_char_app c (a b : string) :
  has_char c (a +:+ b) = has_char c a || has_char c b.
Proof.
  induction a as [|x a IH]; [done|]. rewrite string_app_cons. cbn.
  by rewrite IH, orb_assoc.
Qed.

(** *** Reversal *)

Lemma rev_app_spec (s t : string) : String.rev_app s t = String.rev s +:+ t.
Proof.
  unfold String.rev. revert t. induction s as [|c s IH]; intros t; [done|].
  cbn [String.rev_app]. rewrite (IH (String c t)), (IH (String c "")).
  by rewrite string_app_assoc.
Qed.

Lemma string_rev_cons c (s : string) :
  String.rev (String c s) = String.rev s +:+ String c "".
Proof. unfold String.rev at 1. cbn [String.rev_app]. apply rev_app_spec. Qed.

Lemma string_rev_app (a b : string) :
  String.rev (a +:+ b) = String.rev b +:+ String.rev a.
Proof.
  induction a as [|c a IH].
  - by rewrite string_app_nil_r.
  - rewrite string_app_cons, !string_rev_cons, IH. apply string_app_assoc.
Qed.

Lemma string_rev_involutive (s : string) : String.rev (String.rev s) = s.
Proof.
  induction s as [|c s IH]; [done|].
  by rewrite string_rev_cons, string_rev_app, IH.
Qed.

(** *** [trimStart], [trimEnd] and [trim] *)

Lemma trimStart_app (a b : string) :
  trimStart (a +:+ b)
  = if bool_decide (trimStart a = "") then trimStart b
    else trimStart a +:+ b.
Proof.
  induction a as [|c a IH]; [done|]. rewrite string_app_cons. cbn.
  destruct (is_white c); [done|]. by rewrite bool_decide_eq_false_2.
Qed.

(** [trimEnd] by recursion from the front. *)
Lemma trimEnd_cons c (s : string) :
  trimEnd (String c s)
  = match trimEnd s with
    | EmptyString => if is_white c then "" else String c ""
    | t => String c t
    end.
Proof.
  unfold trimEnd. rewrite string_rev_cons, trimStart_app.
  case_bool_decide as Hempty.
  - rewrite Hempty. cbn. by destruct (is_white c).
  - rewrite string_rev_app. cbn.
    destruct (String.rev (trimStart (String.rev s))) eqn:Hrev; [|done].
    apply (f_equal String.rev) in Hrev.
    by rewrite string_rev_involutive in Hrev.
Qed.

Lemma trimEnd_nil : trimEnd "" = "".
Proof. reflexivity. Qed.

Lemma trimStart_fixed (s : string) : starts_black s = true → trimStart s = s.
Proof. destruct s as [|c s]; [done|]. cbn. by destruct (is_white c). Qed.

Lemma trimStart_starts_black (s : string) : starts_black (trimStart s) = true.
Proof.
  induction s as [|c s IH]; [done|]. cbn.
  destruct (is_white c) eqn:Hc; [done|]. cbn. by rewrite Hc.
Qed.

Lemma trimEnd_starts_black (s : string) :
  starts_black s = true → starts_black (trimEnd s) = true.
Proof.
  destruct s as [|c s]; [done|]. cbn [starts_black]. intros Hc.
  rewrite trimEnd_cons.
  destruct (trimEnd s); [|done].
  destruct (is_white c) eqn:E; cbn in *; [done|by rewrite E].
Qed.

Lemma trimEnd_idempotent (s : string) : trimEnd (trimEnd s) = trimEnd s.
Proof.
  induction s as [|c s IH]; [done|]. rewrite trimEnd_cons.
  destruct (trimEnd s) as [|c' t] eqn:Ht.
  - destruct (is_white c) eqn:Hc; [done|].
    by rewrite trimEnd_cons, trimEnd_nil, Hc.
  - by rewrite trimEnd_cons, IH.
Qed.

Lemma trimEnd_ends_black (s : string) : ends_black (trimEnd s) = true.
Proof.
  induction s as [|c s IH]; [done|]. rewrite trimEnd_cons.
  destruct (trimEnd s) as [|c' t] eqn:Ht.
  - destruct (is_white c) eqn:Hc; [done|]. cbn. by rewrite Hc.
  - done.
Qed.

Lemma trimEnd_fixed (s : string) : ends_black s = true → trimEnd s = s.
Proof.
  induction s as [|c s IH]; [done|]. rewrite trimEnd_cons.
  destruct s as [|c' s].
  - cbn. by destruct (is_white c).
  - intros Hs. rewrite IH by done. done.
Qed.

(** [trim] is idempotent, and leaves alone what begins and ends with
    something else than white space. *)
Lemma trim_idempotent (s : string) : trim (trim s) = trim s.
Proof.
  unfold trim.
  rewrite (trimStart_fixed (trimEnd (trimStart s))).
  - apply trimEnd_idempotent.
  - apply trimEnd_starts_black, trimStart_starts_black.
Qed.

Lemma trim_fixed (s : string) :
  starts_black s = true → ends_black s = true → trim s = s.
Proof.
  intros Hs He. unfold trim. rewrite trimStart_fixed by done.
  by apply trimEnd_fixed.
Qed.

Lemma trim_black (s : string) :
  starts_black (trim s) = true ∧ ends_black (trim s) = true.
Proof.
  unfold trim. split.
  - apply trimEnd_starts_black, trimStart_starts_black.
  - apply trimEnd_ends_black.
Qed.

Lemma trimStart_has_char c (s : string) :
  has_char c (trimStart s) = true → has_char c s = true.
Proof.
  induction s as [|x s IH]; [done|]. cbn.
  destruct (is_white x); [|done]. intros H%IH. by rewrite H, orb_true_r.
Qed.

Lemma trimEnd_has_char c (s : string) :
  has_char c (trimEnd s) = true → has_char c s = true.
Proof.
  induction s as [|x s IH]; [done|]. rewrite trimEnd_cons. cbn.
  destruct (trimEnd s) as [|c' t].
  - destruct (is_white x); [done|]. cbn. rewrite orb_false_r. by intros ->.
  - cbn. destruct (Ascii.eqb x c); [done|]. cbn. intros H.
    by rewrite IH.
Qed.

Lemma trim_has_char c (s : string) :
  has_char c (trim s) = true → has_char c s = true.
Proof. intros H%trimEnd_has_char. by apply trimStart_has_char. Qed.

(** *** Lines *)

Lemma split_lines_go_spec (s cur : string) :
  ElementTextMap.split_lines_go cur s
  = match ElementTextMap.split_lines s with
    | l :: ls => (String.rev cur +:+ l) :: ls
    | [] => []
    end.
Proof.
  unfold ElementTextMap.split_lines. revert cur.
  induction s as [|c s IH]; intros cur; cbn [ElementTextMap.split_lines_go].
  - by rewrite string_app_nil_r.
  - destruct (Ascii.eqb c "010").
    + by rewrite string_app_nil_r.
    + rewrite (IH (String c cur)), (IH (String c "")).
      destruct (ElementTextMap.split_lines_go "" s) as [|l ls]; [done|].
      by rewrite string_rev_cons, string_app_assoc.
Qed.

(** [split] by recursion on the string. *)
Lemma split_lines_nil : ElementTextMap.split_lines "" = [""].
Proof. reflexivity. Qed.

Lemma split_lines_cons c (s : string) :
  ElementTextMap.split_lines (String c s)
  = if Ascii.eqb c LF then "" :: ElementTextMap.split_lines s
    else match ElementTextMap.split_lines s with
         | l :: ls => String c l :: ls
         | [] => []
         end.
Proof.
  unfold ElementTextMap.split_lines at 1. cbn [ElementTextMap.split_lines_go].
  unfold LF. destruct (Ascii.eqb c "010"); [done|].
  by rewrite split_lines_go_spec.
Qed.

Lemma split_lines_not_nil (s : string) : ElementTextMap.split_lines s ≠ [].
Proof.
  induction s as [|c s IH]; [done|]. rewrite split_lines_cons.
  destruct (Ascii.eqb c LF); [done|].
  by destruct (ElementTextMap.split_lines s).
Qed.

Lemma join_cons_cons sep (p q : string) rest :
  join sep (p :: q :: rest) = p +:+ sep +:+ join sep (q :: rest).
Proof. reflexivity. Qed.

(** Splitting and joining again gives the string back. *)
Lemma join_split_lines (s : string) :
  join Serializer.newline (ElementTextMap.split_lines s) = s.
Proof.
  induction s as [|c s IH]; [done|]. rewrite split_lines_cons.
  pose proof (split_lines_not_nil s) as Hne.
  destruct (Ascii.eqb c LF) eqn:Hc.
  - apply Ascii.eqb_eq in Hc as ->.
    destruct (ElementTextMap.split_lines s) as [|l ls]; [done|].
    rewrite join_cons_cons, IH. done.
  - destruct (ElementTextMap.split_lines s) as [|l [|l' ls]]; [done| |].
    + cbn in *. by rewrite IH.
    + rewrite join_cons_cons in *. rewrite string_app_cons. by rewrite IH.
Qed.

Lemma split_lines_has_no_LF (s : string) :
  Forall (λ l, has_char LF l = false) (ElementTextMap.split_lines s).
Proof.
  induction s as [|c s IH]; [by repeat constructor|]. rewrite split_lines_cons.
  destruct (Ascii.eqb c LF) eqn:Hc; [by constructor|].
  destruct (ElementTextMap.split_lines s) as [|l ls]; [done|].
  apply Forall_cons in IH as [Hl Hls]. constructor; [|done].
  cbn. by rewrite Hc, Hl.
Qed.

Lemma split_lines_app_LF (a b : string) :
  ElementTextMap.split_lines (a +:+ String LF b)
  = ElementTextMap.split_lines a ++ ElementTextMap.split_lines b.
Proof.
  induction a as [|c a IH].
  - by rewrite string_app_nil_l, split_lines_cons, Ascii.eqb_refl.
  - rewrite string_app_cons, !split_lines_cons, IH.
    destruct (Ascii.eqb c LF); [done|].
    pose proof (split_lines_not_nil a).
    by destruct (ElementTextMap.split_lines a).
Qed.

Lemma split_lines_one (l : string) :
  has_char LF l = false → ElementTextMap.split_lines l = [l].
Proof.
  induction l as [|c l IH]; [done|]. cbn [has_char].
  intros [Hc Hl]%orb_false_elim. by rewrite split_lines_cons, Hc, IH.
Qed.

(** Joining and splitting again gives the lines back, when none holds a
    line feed. *)
Lemma split_lines_join (ls : list string) :
  ls ≠ [] →
  ElementTextMap.split_lines (join Serializer.newline ls)
  = concat (ElementTextMap.split_lines <$> ls).
Proof.
  induction ls as [|l ls IH]; [done|]. intros _.
  destruct ls as [|l' ls].
  - cbn. by rewrite app_nil_r.
  - rewrite join_cons_cons. unfold Serializer.newline at 1.
    rewrite string_app_cons, string_app_nil_l.
    change (String "010" ?x) with (String LF x).
    rewrite split_lines_app_LF, IH by done. done.
Qed.

Lemma split_lines_join_id (ls : list string) :
  ls ≠ [] →
  Forall (λ l, has_char LF l = false) ls →
  ElementTextMap.split_lines (join Serializer.newline ls) = ls.
Proof.
  intros Hne Hls. rewrite split_lines_join by done. clear Hne.
  induction Hls as [|l ls Hl _ IH]; [done|]. cbn.
  by rewrite split_lines_one, IH.
Qed.

End StringProps.

(** ** Texts folded into the lines of indexed elements *)

Section FoldedTextProps.
Import Js Serializer SerializerSpec.




End FoldedTextProps.

(** ** The loop of [execute] in every world *)

Section LoopProps.
Import Agent.

Lemma loop_returns max_steps w : ∀ n fuel step a,
  step + n = S max_steps →
  0 < n ≤ fuel →
  length (history a) = step →
  ∃ r a', loop max_steps w fuel step a = Some (r, a')
          ∧ length (r_history r) ≤ S max_steps
          ∧ r_history r = history a'.
Proof.
  induction n as [|n IH]; intros fuel step a Hn [Hpos Hfuel] Hlen; [lia|].
  destruct fuel as [|fuel]; [lia|]. cbn [loop].
  destruct (run_step w step a) as [[entry|e] a1] eqn:Hs.
  - apply run_step_pushes in Hs.
    assert (length (history a1) = S step) as Hlen1.
    { rewrite Hs, length_app. cbn. lia. }
    destruct (max_steps <? S step) eqn:Hlimit.
    { eexists _, _. split; [done|]. cbn. split; [lia|done]. }
    case_bool_decide.
    { eexists _, _. split; [done|]. cbn. split; [lia|done]. }
    apply Nat.ltb_ge in Hlimit. apply (IH fuel (S step) a1); lia.
  - apply run_step_throw_history in Hs as [[Hs|Hs] _];
      (eexists _, _; split; [done|]; cbn; rewrite Hs; split; [|done]);
      cbn; lia.
Qed.

(** The [catch] of [execute] rejects only with an error that
    [onAfterTask], called from the [catch], throws. *)
Lemma fail_rejects hooks e a error a' :
  fail hooks e a = (Throw error, a') →
  ∃ result a0, fst (onAfterTask hooks true result a0) = Throw error.
Proof.
  unfold fail.
  destruct (onAfterTask hooks true _ a) as [[[]|error'] [result a1]] eqn:Hh;
    [done|].
  intros [= -> _]. eexists _, a. by rewrite Hh.
Qed.

Lemma finish_rejects hooks r a error a' :
  finish hooks r a = (Throw error, a') →
  ∃ result a0, fst (onAfterTask hooks true result a0) = Throw error.
Proof.
  unfold finish.
  destruct (onAfterTask hooks false r a) as [[[]|e] [result a1]]; [done|].
  apply fail_rejects.
Qed.

Lemma loop_with_hooks_settles hooks max_steps w : ∀ n fuel step a,
  step + n = S max_steps →
  0 < n ≤ fuel →
  ∃ o a', loop_with_hooks hooks max_steps w fuel step a = Some (o, a')
          ∧ ∀ error, o = Throw error →
              ∃ result a0,
                fst (onAfterTask hooks true result a0) = Throw error.
Proof.
  induction n as [|n IH]; intros fuel step a Hn [Hpos Hfuel]; [lia|].
  destruct fuel as [|fuel]; [lia|]. cbn [loop_with_hooks].
  assert (∀ e a0, ∃ o a',
            Some (fail hooks e a0) = Some (o, a')
            ∧ ∀ error, o = Throw error →
                ∃ result a1,
                  fst (onAfterTask hooks true result a1) = Throw error)
    as Hfail.
  { intros e a0. destruct (fail hooks e a0) as [o a'] eqn:Hf.
    exists o, a'. split; [done|]. intros error ->.
    by eapply fail_rejects. }
  assert (∀ r a0, ∃ o a',
            Some (finish hooks r a0) = Some (o, a')
            ∧ ∀ error, o = Throw error →
                ∃ result a1,
                  fst (onAfterTask hooks true result a1) = Throw error)
    as Hfinish.
  { intros r a0. destruct (finish hooks r a0) as [o a'] eqn:Hf.
    exists o, a'. split; [done|]. intros error ->.
    by eapply finish_rejects. }
  destruct (onBeforeStep hooks step a) as [[[]|e] a0]; [|apply Hfail].
  destruct (run_step w step a0) as [[entry|e] a1]; [|apply Hfail].
  destruct (onAfterStep hooks step entry a1) as [[[]|e] [entry' a2]];
    [|apply Hfail].
  destruct (max_steps <? S step) eqn:Hlimit; [apply Hfinish|].
  case_bool_decide; [apply Hfinish|].
  apply Nat.ltb_ge in Hlimit. apply (IH fuel (S step) a2); lia.
Qed.

(** X1: [execute] settles in every world, whatever the hooks, the model,
    the page and the tools do: a bound on the turns above [MAX_STEPS] is
    never used up.  It rejects only with an error thrown by
    [onBeforeTask], or by [onAfterTask] when called from the [catch]; with
    hooks that return and change nothing (the default) it returns a
    result, whose history is the history the agent is left with and has
    at most [MAX_STEPS + 1] entries. *)
Theorem execute_settles_within_step_limit :
  ∀ hooks max_steps w fuel a,
    max_steps < fuel →
    ∃ o a',
      execute_with_hooks hooks max_steps w fuel a = Some (o, a')
      ∧ (∀ error, o = Throw error →
           fst (onBeforeTask hooks a) = Throw error
           ∨ ∃ result a0,
               fst (onAfterTask hooks true result a0) = Throw error)
      ∧ (passive hooks →
         ∃ r, o = Return r
              ∧ length (r_history r) ≤ S max_steps
              ∧ r_history r = history a').
Proof.
  intros hooks max_steps w fuel a Hfuel.
  assert (∃ o a', execute_with_hooks hooks max_steps w fuel a = Some (o, a')
                  ∧ ∀ error, o = Throw error →
                      fst (onBeforeTask hooks a) = Throw error
                      ∨ ∃ result a0,
                          fst (onAfterTask hooks true result a0)
                          = Throw error)
    as (o & a' & Hex & Hrej).
  { unfold execute_with_hooks.
    destruct (onBeforeTask hooks a) as [[[]|e] a0].
    - destruct (loop_with_hooks_settles hooks max_steps w (S max_steps) fuel
                  0 (set_history [] a0)) as (o & a' & Hl & Hrej);
        [lia|lia|].
      exists o, a'. split; [done|]. intros error ->. right. by apply Hrej.
    - eexists _, _. split; [done|]. intros error [= ->]. by left. }
  exists o, a'. split; [done|]. split; [done|].
  intros Hp. rewrite execute_with_passive_hooks in Hex by done.
  unfold execute_with in Hex.
  destruct (loop_returns max_steps w (S max_steps) fuel 0 (set_history [] a))
    as (r & a1 & Hl & Hlen & Hh); [lia|lia|done|].
  rewrite Hl in Hex. injection Hex as <- <-. by exists r.
Qed.





End LoopProps.

(** ** The registry of tools and the wait accumulator *)

Section RegistryProps.
Import Agent.

Lemma customTools_lookup (name : string) (customTools : list (string * option Tool)) :
  ∀ base : gmap string Tool,
  foldl (λ (m : gmap string Tool) kv,
           match snd kv with
           | None => delete (fst kv) m
           | Some tool => <[fst kv := tool]> m
           end) base customTools !! name
  = match last (filter (λ kv, fst kv = name) customTools) with
    | Some kv => snd kv
    | None => base !! name
    end.
Proof.
  induction customTools as [|[k v] l IH] using rev_ind; intros base; [done|].
  rewrite foldl_app, filter_app. cbn [foldl fst snd].
  rewrite filter_cons. cbn [fst]. case_decide as Hk.
  - subst k. rewrite filter_nil, last_snoc. cbn [snd].
    destruct v as [tool|].
    + by rewrite lookup_insert_eq.
    + by rewrite lookup_delete_eq.
  - rewrite filter_nil, app_nil_r, <- IH.
    destruct v as [tool|].
    + by rewrite lookup_insert_ne.
    + by rewrite lookup_delete_ne.
Qed.

(** X5: the registry the constructor builds.  A name has the tool of
    its last entry in [customTools], none when that entry is [null], and
    the built-in tool when [customTools] does not mention it; and without
    the experimental flag there is no [execute_javascript], not even the
    one [customTools] supplies. *)
Theorem constructor_registry :
  ∀ config base customTools experimentalScriptExecutionTool name,
    tools (new config base customTools experimentalScriptExecutionTool)
      !! name
    = if negb experimentalScriptExecutionTool
         && bool_decide (name = "execute_javascript")
      then None
      else match last (filter (λ kv, fst kv = name) customTools) with
           | Some kv => snd kv
           | None => base !! name
           end.
Proof.
  intros config base customTools flag name. unfold new. cbn [tools].
  destruct flag; cbn [negb andb].
  - apply customTools_lookup.
  - case_bool_decide as Hname.
    + subst name. apply lookup_delete_eq.
    + rewrite lookup_delete_ne by done. apply customTools_lookup.
Qed.

Lemma Math_round_at_least_1 (x : Q) : (1 <= x)%Q → (1 ≤ Math_round x)%Z.
Proof.
  intros Hx. unfold Math_round.
  change 1%Z with (Qfloor 1). apply Qfloor_resp_le.
  apply Qle_trans with x; [done|].
  rewrite <- (Qplus_0_r x) at 1. by apply Qplus_le_r.
Qed.

(** What a valid [wait] does to the accumulator and to its output. *)
Lemma valid_wait_accumulates w step a input r a' t :
  valid_wait w step input →
  totalWaitTime a = Int t →
  macroTool_execute w step a input = (Return r, a') →
  ∃ t' result,
    totalWaitTime a' = Int t'
    ∧ (t + 1 ≤ t')%Z
    ∧ mt_output r =
        result +:+ String "010"%char "<sys> You have waited "
          +:+ pretty t' +:+ " seconds accumulatively."
          +:+ (if (3 <=? t')%Z
               then String "010"%char
                      "Do NOT wait any longer unless you have a good reason."
                      +:+ String "010"%char ""
               else "")
          +:+ "</sys>".
Proof.
  intros (Hname & (seconds & Hsec & Hmin & _) & Hdur) Ht.
  unfold macroTool_execute.
  destruct (aborted_in_tool w step); [done|].
  destruct (pause_times_out_in_tool w step); [done|].
  destruct (action input) as [toolName toolInput]. cbn [fst snd] in *.
  subst toolName.
  destruct (tools a !! "wait") as [tool|]; [|done].
  destruct (run_tool w step a tool toolInput) as [result|]; [|done].
  rewrite bool_decide_eq_true_2 by done.
  rewrite Ht, Hsec. cbn [add_wait at_least_3 template_number].
  set (t' := (t + Math_round (seconds + inject_Z (duration_at_step w step)
                                          / inject_Z 1000))%Z).
  intros [= <- <-]. exists t', result. cbn [totalWaitTime mt_output].
  split; [done|]. split.
  - assert (1 ≤ Math_round (seconds + inject_Z (duration_at_step w step)
                                       / inject_Z 1000))%Z; [|lia].
    apply Math_round_at_least_1.
    apply Qle_trans with seconds; [done|].
    rewrite <- (Qplus_0_r seconds) at 1. apply Qplus_le_r.
    apply Qle_shift_div_l; [done|]. rewrite Qmult_0_l.
    change 0%Q with (inject_Z 0). by rewrite <- Zle_Qle.
  - destruct (3 <=? t')%Z; by rewrite !string_app_assoc.
Qed.

(** X6: the third [wait] in a row always carries the note.  When the
    macro tool runs three valid [wait]s one after the other, starting with
    an accumulator that is not negative, the accumulator ends at 3 or more
    and the output of the third ends with the request not to wait any
    longer. *)
Theorem third_wait_in_a_row_carries_the_note :
  ∀ w k1 k2 k3 a0 a1 a2 a3 i1 i2 i3 r1 r2 r3 t0,
    totalWaitTime a0 = Int t0 →
    (0 ≤ t0)%Z →
    valid_wait w k1 i1 → valid_wait w k2 i2 → valid_wait w k3 i3 →
    macroTool_execute w k1 a0 i1 = (Return r1, a1) →
    macroTool_execute w k2 a1 i2 = (Return r2, a2) →
    macroTool_execute w k3 a2 i3 = (Return r3, a3) →
    ∃ t3 result,
      totalWaitTime a3 = Int t3
      ∧ (3 ≤ t3)%Z
      ∧ mt_output r3 =
          result +:+ String "010"%char "<sys> You have waited "
            +:+ pretty t3 +:+ " seconds accumulatively."
            +:+ String "010"%char
                  "Do NOT wait any longer unless you have a good reason."
            +:+ String "010"%char "" +:+ "</sys>".
Proof.
  intros w k1 k2 k3 a0 a1 a2 a3 i1 i2 i3 r1 r2 r3 t0 Ht0 Hpos
    Hv1 Hv2 Hv3 H1 H2 H3.
  destruct (valid_wait_accumulates _ _ _ _ _ _ _ Hv1 Ht0 H1)
    as (t1 & _ & Ht1 & Hle1 & _).
  destruct (valid_wait_accumulates _ _ _ _ _ _ _ Hv2 Ht1 H2)
    as (t2 & _ & Ht2 & Hle2 & _).
  destruct (valid_wait_accumulates _ _ _ _ _ _ _ Hv3 Ht2 H3)
    as (t3 & result & Ht3 & Hle3 & Hout).
  exists t3, result. split; [done|]. split; [lia|].
  rewrite Hout.
  assert ((3 <=? t3)%Z = true) as -> by (apply Z.leb_le; lia).
  by rewrite !string_app_assoc.
Qed.

End RegistryProps.

(** ** More properties of the extractor *)

Section WalkProps.
Import Browser DomTree.

(** *** Which elements get an index *)

(** What a call of [buildDomTree] on an element does, by the outcome of
    the test. *)
Lemma buildDomTree_classified w expansion element childNodes s :
  Js.toLowerCase (el_tagName element) ∉ skipTags →
  ∃ id nd element' childNodes' s',
    buildDomTree w expansion (Elem element childNodes) s
    = (Some id, Elem element' childNodes', s')
    ∧ DOM_HASH_MAP s' !! id = Some (ELEMENT nd)
    ∧ id < ID s'
    ∧ tagName nd = Js.toLowerCase (el_tagName element)
    ∧ locator nd = None
    ∧ if addressable w expansion element
      then highlightIndex nd = Some (nextIndex s)
           ∧ isInteractive nd = Some true
           ∧ attributes nd = Some (getElementAttributes element)
           ∧ element' = setAttribute marker (pretty (nextIndex s)) element
      else highlightIndex nd = None
           ∧ attributes nd = Some ∅
           ∧ element' = element.
Proof.
  intros Hskip. rewrite buildDomTree_Elem. cbn zeta.
  rewrite bool_decide_eq_false_2 by done.
  destruct (classify _ _ _ _ _) as [[nd element'] next] eqn:Hclass.
  destruct (process_children _ _ _) as [[ids cs'] s2] eqn:Hkids.
  cbn [record_node].
  eexists _, _, _, _, _. split; [reflexivity|].
  cbn [ID DOM_HASH_MAP]. rewrite lookup_insert_eq.
  split; [reflexivity|]. split; [lia|].
  unfold classify, addressable in *.
  destruct (isElementVisible element); cbn [andb];
    [|injection Hclass as <- <- <-;
      unfold scrollability; by destruct (isScrollableElement element)].
  destruct (isTopElement w element expansion && isInteractiveElement element);
    cbn [andb];
    [|injection Hclass as <- <- <-;
      unfold scrollability; by destruct (isScrollableElement element)].
  destruct (isInViewport w element expansion || (expansion =? -1)%Z);
    injection Hclass as <- <- <-;
    unfold scrollability; by destruct (isScrollableElement _).
Qed.

(** X11: which elements get an index.  An element that the walk comes to
    (and whose tag is not skipped) is given an index exactly when it is
    visible, topmost and interactive and, unless the whole page is taken,
    in the viewport.  If so, its entry in the snapshot carries the index,
    the attributes read from the element and the locator of the index, and
    the element is left on the page with the marker of that index; if
    not, its entry has no index, no attributes and no locator, and the
    element is left as it was, without a marker. *)
Theorem element_is_indexed_iff_addressable :
  ∀ w config d b element childNodes,
    let expansion :=
      default VIEWPORT_EXPANSION (viewportExpansion config) in
    body (clean d) = Some b →
    walked b (Elem element childNodes) →
    Js.toLowerCase (el_tagName element) ∉ skipTags →
    let ft := (getFlatTree w config d).1 in
    let d' := (getFlatTree w config d).2 in
    ∃ id nd element' childNodes' b',
      map ft !! id = Some (ELEMENT nd)
      ∧ tagName nd = Js.toLowerCase (el_tagName element)
      ∧ body d' = Some b'
      ∧ Elem element' childNodes' ∈ subtrees b'
      ∧ if addressable w expansion element
        then ∃ i, highlightIndex nd = Some i
                  ∧ isInteractive nd = Some true
                  ∧ attributes nd = Some (getElementAttributes element)
                  ∧ locator nd = Some (page_locator (marker_selector i))
                  ∧ element' = setAttribute marker (pretty i) element
        else highlightIndex nd = None
             ∧ attributes nd = Some ∅
             ∧ locator nd = None
             ∧ element' = element
             ∧ getAttribute marker element = None.
Proof.
  intros w config d b element childNodes expansion Hbody Hwalked Hskip ft d'.
  subst ft d'.
  assert (markers b = []) as Hclean.
  { unfold clean in Hbody. cbn in Hbody.
    destruct (body d) as [b0|]; [|done]. injection Hbody as <-.
    apply markers_clean_node. }
  destruct (buildDomTree w expansion b walk_start)
    as [[root b'] s'] eqn:Hwalk.
  assert (getFlatTree w config d
          = ({| rootId := default 0 root;
                map := with_locator <$> DOM_HASH_MAP s' |},
             {| outside := outside (clean d); body := Some b' |})) as ->.
  { unfold getFlatTree, evaluate. fold expansion.
    by rewrite Hbody, Hwalk. }
  cbn [fst snd map body].
  destruct (walked_call w expansion _ _ Hwalked _ _ _ _ Hwalk)
    as (s0 & id0 & n' & s0' & Hcall & Hsub & Hkeeps).
  destruct (buildDomTree_classified w expansion element childNodes s0 Hskip)
    as (id & nd & element' & cs' & s1 & Hcall' & Hid & Hlt & Htag & Hloc
        & Hcase).
  rewrite Hcall' in Hcall. injection Hcall as <- <- <-.
  destruct Hkeeps as [_ Hkeeps].
  assert ((with_locator <$> DOM_HASH_MAP s') !! id
          = Some (with_locator (ELEMENT nd))) as Hentry.
  { by rewrite lookup_fmap, Hkeeps, Hid. }
  destruct (addressable w expansion element).
  - destruct Hcase as (Hidx & Hint & Hattrs & Helem).
    rewrite (with_locator_indexed nd (nextIndex s0) Hint Hidx) in Hentry.
    eexists id, _, element', cs', b'. split; [exact Hentry|].
    split; [done|]. split; [done|]. split; [done|].
    exists (nextIndex s0). by cbn.
  - destruct Hcase as (Hidx & Hattrs & Helem).
    cbn in Hentry. rewrite Hidx in Hentry.
    exists id, nd, element', cs', b'. split.
    { rewrite Hentry. by destruct (isInteractive nd) as [[|]|]. }
    split; [done|]. split; [done|]. split; [done|].
    repeat split; try done.
    apply (walked_markers _ _ Hwalked) in Hclean.
    by apply markers_Elem_nil in Hclean as [? _].
Qed.

(** *** A second pass over the same page *)

Lemma with_attributes_twice e a a' :
  with_attributes (with_attributes e a) a' = with_attributes e a'.
Proof. reflexivity. Qed.

Lemma removeAttribute_setAttribute name value e :
  removeAttribute name (setAttribute name value e) = removeAttribute name e.
Proof.
  unfold removeAttribute, setAttribute. rewrite with_attributes_twice.
  f_equal. cbn [el_attributes with_attributes].
  destruct (hasAttribute name e).
  - induction (el_attributes e) as [|[k v] l IH]; [done|].
    rewrite fmap_cons, !filter_cons. cbn [fst].
    destruct (decide (k = name)) as [->|Hne].
    + cbn [fst]. rewrite !decide_False by (by intros ?). exact IH.
    + cbn [fst]. rewrite !decide_True by done. by rewrite IH.
  - rewrite filter_app, filter_cons, filter_nil. cbn [fst].
    rewrite decide_False by (by intros ?). by rewrite app_nil_r.
Qed.

Lemma removeAttribute_twice name e :
  removeAttribute name (removeAttribute name e) = removeAttribute name e.
Proof.
  unfold removeAttribute. rewrite with_attributes_twice. f_equal.
  cbn [el_attributes with_attributes].
  induction (el_attributes e) as [|[k v] l IH]; [done|].
  rewrite filter_cons. cbn [fst]. case_decide as Hk; [|done].
  rewrite filter_cons. cbn [fst]. rewrite decide_True by done. by rewrite IH.
Qed.

Lemma clean_node_twice : ∀ n, clean_node (clean_node n) = clean_node n.
Proof.
  induction n as [t| |e cs IH] using Node_ind_children; [done..|].
  cbn [clean_node]. rewrite removeAttribute_twice. f_equal.
  rewrite <- list_fmap_compose. apply Forall_fmap_ext_1.
  eapply Forall_impl; [exact IH|]. intros n Hn. unfold compose. exact Hn.
Qed.

Lemma child_step_clean w expansion child :
  (∀ s id n' s', buildDomTree w expansion child s = (id, n', s') →
                 clean_node n' = clean_node child) →
  ∀ s id n' s',
    child_step (buildDomTree w expansion) child s = (id, n', s') →
    clean_node n' = clean_node child.
Proof.
  intros Hbuild s id n' s'. destruct child as [t|e cs|]; cbn [child_step].
  - destruct (text_child t s). by intros [= <- <- <-].
  - apply Hbuild.
  - by intros [= <- <- <-].
Qed.

Lemma process_children_clean w expansion cs :
  Forall (λ n, ∀ s id n' s', buildDomTree w expansion n s = (id, n', s') →
                             clean_node n' = clean_node n) cs →
  ∀ s ids cs' s',
    process_children (buildDomTree w expansion) cs s = (ids, cs', s') →
    clean_node <$> cs' = clean_node <$> cs.
Proof.
  induction 1 as [|child rest Hchild _ IH]; intros s ids cs' s'.
  - by intros [= <- <- <-].
  - rewrite process_children_cons.
    destruct (child_step _ child s) as [[id child'] s1] eqn:Hstep.
    destruct (process_children _ rest s1) as [[ids1 rest'] s2] eqn:Hkids.
    intros [= <- <- <-]. cbn.
    rewrite (child_step_clean _ _ _ Hchild _ _ _ _ Hstep).
    by rewrite (IH _ _ _ _ Hkids).
Qed.

(** The walk changes nothing on the page but marker attributes. *)
Lemma buildDomTree_clean w expansion : ∀ n s id n' s',
  buildDomTree w expansion n s = (id, n', s') →
  clean_node n' = clean_node n.
Proof.
  induction n as [t| |element cs IH] using Node_ind_children;
    intros s id n' s'; [by intros [= <- <- <-]..|].
  rewrite buildDomTree_Elem. cbn zeta. case_bool_decide as Hskip.
  { by intros [= <- <- <-]. }
  destruct (classify _ _ _ _ _) as [[nd element'] next] eqn:Hclass.
  destruct (process_children _ _ _) as [[ids cs'] s2] eqn:Hkids.
  intros [= <- <- <-]. cbn [clean_node].
  rewrite (process_children_clean _ _ _ IH _ _ _ _ Hkids). f_equal.
  apply classify_cases in Hclass; [|done].
  destruct Hclass as [(_ & -> & _)|(_ & -> & _)]; [done|].
  apply removeAttribute_setAttribute.
Qed.

Lemma clean_evaluate w expansion d :
  clean (evaluate w expansion d).2 = clean d.
Proof.
  unfold evaluate.
  assert (clean (clean d) = clean d) as Htwice.
  { unfold clean. cbn [outside body]. f_equal.
    - rewrite <- list_fmap_compose. apply list_fmap_ext.
      intros i n _. apply clean_node_twice.
    - destruct (body d) as [b|]; [|done]. cbn. f_equal.
      apply clean_node_twice. }
  destruct (body (clean d)) as [b|] eqn:Hbody; [|done].
  destruct (buildDomTree w expansion b walk_start) as [[root b'] s'] eqn:Hwalk.
  cbn [snd]. apply buildDomTree_clean in Hwalk.
  rewrite <- Htwice at 2. unfold clean at 1 3. cbn [outside body].
  rewrite Hbody. cbn. by rewrite Hwalk.
Qed.

(** X12: a second pass over the page as the first pass left it, the
    page answering as before, returns the same snapshot and leaves the
    same page: the markers of the first pass are cleared before anything
    is read, and the walk changes nothing on the page but markers. *)
Theorem second_pass_gives_the_same_snapshot :
  ∀ w config d,
    getFlatTree w config (getFlatTree w config d).2
    = getFlatTree w config d.
Proof.
  intros w config d. unfold getFlatTree.
  set (expansion := default VIEWPORT_EXPANSION (viewportExpansion config)).
  assert (evaluate w expansion (evaluate w expansion d).2
          = evaluate w expansion d) as Heval.
  { unfold evaluate at 1. rewrite clean_evaluate. reflexivity. }
  destruct (evaluate w expansion d) as [ft d'] eqn:He. cbn [snd].
  cbn [snd] in Heval. by rewrite Heval.
Qed.

(** *** The keys of the flat map *)

Lemma buildDomTree_id w expansion n s id n' s' :
  buildDomTree w expansion n s = (Some id, n', s') →
  ID s ≤ id ∧ ID s' = S id.
Proof.
  destruct n as [t|element cs|]; [done| |done].
  rewrite buildDomTree_Elem. cbn zeta. case_bool_decide; [done|].
  destruct (classify _ _ _ _ _) as [[nd element'] next] eqn:Hclass.
  destruct (process_children _ _ _) as [[ids cs'] s2] eqn:Hkids.
  intros [= <- <- <-]. cbn [record_node snd ID].
  apply process_children_ok in Hkids.
  2:{ apply Forall_forall. intros ? _. apply buildDomTree_ok. }
  destruct Hkids as [HID _ _ _ _ _ _]. cbn [set_nextIndex ID] in HID.
  split; [lia|done].
Qed.

Lemma child_step_id w expansion child s id n' s' :
  child_step (buildDomTree w expansion) child s = (Some id, n', s') →
  ID s ≤ id ∧ ID s' = S id.
Proof.
  destruct child as [t|element cs|]; cbn [child_step]; [| |done].
  - unfold text_child. case_bool_decide; [done|].
    intros [= <- <- <-]. cbn. lia.
  - apply buildDomTree_id.
Qed.

Lemma process_children_ids w expansion cs : ∀ s ids cs' s',
  process_children (buildDomTree w expansion) cs s = (ids, cs', s') →
  Forall (λ c, ID s ≤ c < ID s') ids.
Proof.
  induction cs as [|child rest IH]; intros s ids cs' s'.
  - intros [= <- <- <-]. constructor.
  - rewrite process_children_cons.
    destruct (child_step _ child s) as [[id child'] s1] eqn:Hstep.
    destruct (process_children _ rest s1) as [[ids1 rest'] s2] eqn:Hkids.
    intros [= <- <- <-].
    assert (walk_ok s s1) as [HID1 _ _ _ _ _ _].
    { eapply child_step_ok; [|done]. intros ????. apply buildDomTree_ok. }
    assert (walk_ok s1 s2) as [HID2 _ _ _ _ _ _].
    { eapply process_children_ok; [|done].
      apply Forall_forall. intros ? _. apply buildDomTree_ok. }
    apply Forall_app. split.
    + destruct id as [id|]; [|constructor].
      constructor; [|constructor]. apply child_step_id in Hstep. lia.
    + eapply Forall_impl; [by eapply IH|]. cbn. intros c ?. lia.
Qed.

(** *** What every entry looks like *)

Lemma written_nil P s : written P s s.
Proof. intros k x Hk. lia. Qed.

Lemma written_app P s1 s2 s3 :
  walk_ok s1 s2 → walk_ok s2 s3 →
  written P s1 s2 → written P s2 s3 → written P s1 s3.
Proof.
  intros [? _ _ _ _ _ _] [? _ Hold _ _ _ _] H12 H23 k x Hk Hlook.
  destruct (decide (k < ID s2)).
  - rewrite Hold in Hlook by done. apply (H12 k); [lia|done].
  - apply (H23 k); [lia|done].
Qed.

(** To show that every entry a walk writes has the property [P], it is
    enough to look at the two places where entries are written: the text
    child, and the end of [buildDomTree], for an element with the
    property [Q] that all elements of the subtree have. *)
Lemma buildDomTree_written (P : nat → DomNode → Prop) (Q : Element → Prop)
  w expansion :
  (∀ k t, Js.trim t ≠ "" →
          P k (TEXT_NODE {| text := Js.trim t; text_isVisible := true |})) →
  (∀ k element next nd element' next' ids,
     Q element →
     classify w expansion element
       (nodeData_new (Js.toLowerCase (el_tagName element))) next
     = (nd, element', next') →
     Forall (λ c, c < k) ids →
     P k (ELEMENT (set_children ids (scrollability element' nd)))) →
  ∀ n s id n' s',
    Forall Q (elements n) →
    buildDomTree w expansion n s = (id, n', s') →
    written P s s'.
Proof.
  intros Htext Helem.
  induction n as [t| |element cs IH] using Node_ind_children;
    intros s id n' s' HQ.
  - intros [= <- <- <-]. apply written_nil.
  - intros [= <- <- <-]. apply written_nil.
  - rewrite buildDomTree_Elem. cbn zeta. case_bool_decide as Hskip.
    { intros [= <- <- <-]. apply written_nil. }
    destruct (classify _ _ _ _ _) as [[nd element'] next] eqn:Hclass.
    destruct (process_children _ _ _) as [[ids cs'] s2] eqn:Hkids.
    intros [= <- <- <-].
    cbn [elements] in HQ. apply Forall_cons in HQ as [HQe HQcs].
    pose proof (process_children_ids _ _ _ _ _ _ _ Hkids) as Hids.
    assert (walk_ok (set_nextIndex next s) s2) as Hok.
    { eapply process_children_ok; [|done].
      apply Forall_forall. intros ? _. apply buildDomTree_ok. }
    assert (written P (set_nextIndex next s) s2) as Hw.
    { clear Hids Hok Hclass. revert HQcs Hkids.
      generalize (set_nextIndex next s). revert ids cs' s2.
      induction IH as [|child rest Hchild _ IHrest]; intros ids cs' s2 s0 HQcs.
      - intros [= <- <- <-]. apply written_nil.
      - rewrite process_children_cons.
        destruct (child_step _ child s0) as [[id1 child'] s1] eqn:Hstep.
        destruct (process_children _ rest s1) as [[ids1 rest'] s3] eqn:Hrest.
        intros [= <- <- <-].
        cbn in HQcs. apply Forall_app in HQcs as [HQc HQrest].
        apply (written_app P s0 s1 s3).
        + eapply child_step_ok; [|done]. intros ????. apply buildDomTree_ok.
        + eapply process_children_ok; [|done].
          apply Forall_forall. intros ? _. apply buildDomTree_ok.
        + destruct child as [t|e cs0|]; cbn [child_step] in Hstep.
          * unfold text_child in Hstep. case_bool_decide as Hempty.
            { injection Hstep as <- <- <-. apply written_nil. }
            injection Hstep as <- <- <-. intros k x Hk. cbn in Hk.
            assert (k = ID s0) as -> by lia. cbn.
            rewrite lookup_insert_eq. intros [= <-]. by apply Htext.
          * by eapply Hchild.
          * injection Hstep as <- <- <-. apply written_nil.
        + by eapply IHrest. }
    destruct Hok as [HID _ Hold _ _ _ _]. cbn [set_nextIndex ID] in *.
    intros k x Hk. cbn [record_node snd ID DOM_HASH_MAP] in *.
    destruct (decide (k = ID s2)) as [->|Hne].
    + rewrite lookup_insert_eq. intros [= <-].
      eapply Helem; [done|done|].
      eapply Forall_impl; [exact Hids|]. cbn. intros c ?. lia.
    + rewrite lookup_insert_ne by done. apply Hw. cbn. lia.
Qed.

(** The entries of the flat tree, from those of the walk. *)
Lemma getFlatTree_entries (P : nat → DomNode → Prop) (Q : Element → Prop)
  w config d :
  let expansion := default VIEWPORT_EXPANSION (viewportExpansion config) in
  (∀ k t, Js.trim t ≠ "" →
          P k (TEXT_NODE {| text := Js.trim t; text_isVisible := true |})) →
  (∀ k element next nd element' next' ids,
     Q element →
     classify w expansion element
       (nodeData_new (Js.toLowerCase (el_tagName element))) next
     = (nd, element', next') →
     Forall (λ c, c < k) ids →
     P k (ELEMENT (set_children ids (scrollability element' nd)))) →
  (∀ b, body (clean d) = Some b → Forall Q (elements b)) →
  ∀ k x, map (getFlatTree w config d).1 !! k = Some x →
         ∃ x0, x = with_locator x0 ∧ P k x0.
Proof.
  intros expansion Htext Helem HQ k x.
  unfold getFlatTree, evaluate. fold expansion.
  destruct (body (clean d)) as [b|] eqn:Hbody.
  2:{ cbn. by rewrite lookup_fmap, lookup_empty. }
  destruct (buildDomTree w expansion b walk_start) as [[root b'] s'] eqn:Hwalk.
  cbn [fst map]. rewrite lookup_fmap.
  destruct (DOM_HASH_MAP s' !! k) as [x0|] eqn:Hk; [|done].
  cbn. intros [= <-]. exists x0. split; [done|].
  pose proof (buildDomTree_written P Q w expansion Htext Helem
                _ _ _ _ _ (HQ b eq_refl) Hwalk) as Hw.
  apply (Hw k); [|done]. split; [cbn; lia|].
  apply buildDomTree_ok in Hwalk as [_ _ _ _ Habove _ _].
  destruct (decide (k < ID s')); [done|].
  rewrite Habove in Hk; [done|lia|apply lookup_empty].
Qed.

Lemma buildDomTree_root w expansion n s id n' s' :
  buildDomTree w expansion n s = (Some id, n', s') →
  ∃ nd, DOM_HASH_MAP s' !! id = Some (ELEMENT nd).
Proof.
  destruct n as [t|element cs|]; [done| |done].
  rewrite buildDomTree_Elem. cbn zeta. case_bool_decide; [done|].
  destruct (classify _ _ _ _ _) as [[nd element'] next] eqn:Hclass.
  destruct (process_children _ _ _) as [[ids cs'] s2] eqn:Hkids.
  intros [= <- <- <-]. cbn [record_node snd ID DOM_HASH_MAP].
  rewrite lookup_insert_eq. by eexists.
Qed.

(** X13: the flat tree is numbered in post-order.  Its keys are 0, ...,
    [n - 1]; the children of an element are entries with smaller keys
    than its own, so that following child ids always ends; and the root,
    which is written last, is the element with the key [n - 1] (the root
    id is 0 when the map is empty). *)
Theorem flat_tree_is_numbered_in_post_order :
  ∀ w config d,
    let ft := (getFlatTree w config d).1 in
    let n := size (map ft) in
    (∀ k, is_Some (map ft !! k) ↔ k < n)
    ∧ (∀ k nd,
         map ft !! k = Some (ELEMENT nd) →
         ∃ ids, children nd = Some ids
                ∧ Forall (λ c, c < k ∧ is_Some (map ft !! c)) ids)
    ∧ (if decide (n = 0) then rootId ft = 0
       else S (rootId ft) = n
            ∧ ∃ nd, map ft !! rootId ft = Some (ELEMENT nd)).
Proof.
  intros w config d ft n.
  set (expansion := default VIEWPORT_EXPANSION (viewportExpansion config)).
  assert (∃ m root,
            ft = {| rootId := default 0 root; map := with_locator <$> m |}
            ∧ (∀ k, is_Some (m !! k) ↔ k < size m)
            ∧ match root with
              | Some id => S id = size m ∧ ∃ nd, m !! id = Some (ELEMENT nd)
              | None => size m = 0
              end) as (m & root & Hft & Hkeys & Hroot).
  { unfold ft, getFlatTree, evaluate. fold expansion.
    destruct (body (clean d)) as [b|].
    2:{ exists ∅, None. cbn. rewrite fmap_empty. split; [done|].
        split; [|done]. intros k. rewrite lookup_empty, map_size_empty.
        split; [by intros [? ?]|lia]. }
    destruct (buildDomTree w expansion b walk_start)
      as [[root b'] s'] eqn:Hwalk.
    exists (DOM_HASH_MAP s'), root. cbn [fst]. split; [done|].
    pose proof Hwalk as Hok. apply buildDomTree_ok in Hok.
    destruct Hok as [_ _ _ Hnew Habove _ _].
    cbn [walk_start ID DOM_HASH_MAP] in *.
    assert (∀ k, is_Some (DOM_HASH_MAP s' !! k) ↔ k < ID s') as Hkeys.
    { intros k. split.
      - intros Hsome. destruct (decide (k < ID s')); [done|].
        rewrite Habove in Hsome; [by destruct Hsome|lia|apply lookup_empty].
      - intros Hk. apply Hnew. lia. }
    assert (size (DOM_HASH_MAP s') = ID s') as Hsize
      by (by apply size_initial_segment).
    rewrite Hsize. split; [done|].
    destruct root as [id|].
    - split; [by apply buildDomTree_id in Hwalk as [_ ->]|].
      by eapply buildDomTree_root.
    - by apply buildDomTree_None in Hwalk as ->. }
  assert (n = size m) as Hn.
  { unfold n. rewrite Hft. cbn [map]. apply map_size_fmap. }
  assert (∀ k, is_Some (map ft !! k) ↔ k < n) as Hkeys'.
  { intros k. rewrite Hn, <- Hkeys, Hft. cbn [map].
    rewrite lookup_fmap. apply fmap_is_Some. }
  split; [done|]. split.
  - intros k nd Hk.
    destruct (getFlatTree_entries
                (λ k x, match x with
                        | ELEMENT nd =>
                            ∃ ids, children nd = Some ids
                                   ∧ Forall (λ c, c < k) ids
                        | TEXT_NODE _ => True
                        end)
                (λ _, True) w config d) with (k := k) (x := ELEMENT nd)
      as (x0 & Hx0 & HP); [done| | |done|].
    + intros k0 element next nd0 element' next' ids _ _ Hids.
      exists ids. split; [|done]. cbn [set_children children]. done.
    + intros b _. apply Forall_forall. done.
    + destruct x0 as [t|nd0]; [done|].
      destruct HP as (ids & Hchildren & Hids).
      destruct (with_locator_children nd0) as (nd' & Hnd' & Hsame).
      rewrite Hnd' in Hx0. injection Hx0 as ->.
      exists ids. split; [congruence|].
      eapply Forall_impl; [exact Hids|]. cbn. intros c Hc.
      split; [done|]. apply Hkeys'.
      assert (k < n) by (apply Hkeys'; by eexists). lia.
  - rewrite Hn. subst ft. rewrite Hft. cbn [rootId map].
    destruct root as [id|].
    + destruct Hroot as [Hid (nd & Hnd)]. rewrite decide_False by lia.
      cbn. split; [done|].
      rewrite lookup_fmap, Hnd. cbn [fmap option_fmap option_map].
      destruct (with_locator_children nd) as (nd' & -> & _). by eexists.
    + by rewrite decide_True.
Qed.

Lemma assoc_None_elem name attrs :
  assoc name attrs = None → name ∉ fst <$> attrs.
Proof.
  induction attrs as [|[k v] attrs IH]; [intros _ H; by inversion H|].
  cbn. case_decide as Hk; [done|]. intros Hnone.
  apply not_elem_of_cons. split; [done|by apply IH].
Qed.

Lemma getElementAttributes_lookup element name :
  name ≠ "checked" →
  getAttribute name element = None →
  getElementAttributes element !! name = None.
Proof.
  intros Hname Hnone%assoc_None_elem. unfold getElementAttributes.
  assert (∀ (m : gmap string string),
            m !! name = None →
            foldl (λ (m : gmap string string) kv, <[fst kv := snd kv]> m) m
                  (el_attributes element) !! name = None) as Hfold.
  { induction (el_attributes element) as [|[k v] l IH]; [done|].
    intros m Hm. cbn in Hnone |- *.
    apply not_elem_of_cons in Hnone as [Hk Hl].
    apply IH; [done|]. by rewrite lookup_insert_ne. }
  destruct (_ && _).
  - rewrite lookup_insert_ne by done. by apply Hfold.
  - by apply Hfold.
Qed.

(** X14: the attributes in the snapshot.  An element entry always has an
    attribute object; it is empty unless the element got an index, and it
    never holds the marker attribute [data-pw-agent-index], which is put
    on the element only after its attributes were read. *)
Theorem snapshot_attributes_hold_no_marker :
  ∀ w config d k nd,
    map (getFlatTree w config d).1 !! k = Some (ELEMENT nd) →
    ∃ attrs,
      attributes nd = Some attrs
      ∧ attrs !! marker = None
      ∧ (highlightIndex nd = None → attrs = ∅).
Proof.
  intros w config d k nd Hk.
  destruct (getFlatTree_entries
              (λ k x, match x with
                      | ELEMENT nd =>
                          ∃ attrs, attributes nd = Some attrs
                                   ∧ attrs !! marker = None
                                   ∧ (highlightIndex nd = None → attrs = ∅)
                      | TEXT_NODE _ => True
                      end)
              (λ e, getAttribute marker e = None) w config d)
    with (k := k) (x := ELEMENT nd) as (x0 & Hx0 & HP); [done| | |done|].
  - intros k0 element next nd0 element' next' ids Hclean Hclass _.
    cbn [set_children attributes highlightIndex].
    unfold classify in Hclass.
    assert (∀ d0 : ElementDomNode,
              attributes (scrollability element' d0) = attributes d0
              ∧ highlightIndex (scrollability element' d0) = highlightIndex d0)
      as Hscroll.
    { intros d0. unfold scrollability.
      by destruct (isScrollableElement element'). }
    destruct (Hscroll nd0) as [-> ->].
    destruct (isElementVisible element);
      [|injection Hclass as <- <- <-; by exists ∅].
    destruct (isTopElement _ element _ && isInteractiveElement element);
      [|injection Hclass as <- <- <-; by exists ∅].
    destruct (isInViewport w element _ || _);
      injection Hclass as <- <- <-; [|by exists ∅].
    exists (getElementAttributes element). cbn. split; [done|].
    split; [|done]. by apply getElementAttributes_lookup.
  - intros b Hbody. unfold clean in Hbody. cbn in Hbody.
    destruct (body d) as [b0|]; [|done]. injection Hbody as <-.
    pose proof (markers_clean_node b0) as Hm. unfold markers in Hm.
    apply Forall_forall. intros e He.
    destruct (getAttribute marker e) as [v|] eqn:Hv; [|done].
    assert (v ∈ omap (getAttribute marker) (elements (clean_node b0))) as Hin
      by (apply list_elem_of_omap; eauto).
    rewrite Hm in Hin. by inversion Hin.
  - destruct x0 as [t|nd0]; [done|].
    destruct HP as (attrs & Hattrs & Hmarker & Hempty).
    exists attrs. cbn in Hx0.
    destruct (isInteractive nd0) as [[|]|], (highlightIndex nd0) as [i|] eqn:Hi;
      injection Hx0 as ->; cbn; rewrite ?Hi; repeat split; try done.
Qed.

(** X15: the texts in the snapshot.  A text entry holds the trimmed
    content of a text node, is never empty, so that it does not change
    when it is trimmed again, and is always marked visible, whatever the
    element around it is. *)
Theorem snapshot_texts_are_trimmed_and_not_empty :
  ∀ w config d k t,
    map (getFlatTree w config d).1 !! k = Some (TEXT_NODE t) →
    text t ≠ ""
    ∧ Js.trim (text t) = text t
    ∧ text_isVisible t = true.
Proof.
  intros w config d k t Hk.
  destruct (getFlatTree_entries
              (λ k x, match x with
                      | TEXT_NODE t =>
                          text t ≠ "" ∧ Js.trim (text t) = text t
                          ∧ text_isVisible t = true
                      | ELEMENT _ => True
                      end)
              (λ _, True) w config d)
    with (k := k) (x := TEXT_NODE t) as (x0 & Hx0 & HP); [| | |done|].
  - intros k0 t0 Hne. cbn. split; [done|]. split; [|done].
    apply trim_idempotent.
  - done.
  - intros b _. apply Forall_forall. done.
  - destruct x0 as [t0|nd0]; [by injection Hx0 as ->|].
    cbn in Hx0. by destruct (isInteractive nd0) as [[|]|], (highlightIndex nd0).
Qed.

End WalkProps.

(** ** Properties of src/utils/index.ts *)

Section UtilsProps.
Import Js Utils Agent.

Lemma substring0_length n (s : string) :
  n ≤ String.length s → String.length (substring0 n s) = n.
Proof.
  revert s. induction n as [|n IH]; intros [|c s]; cbn; try done; [lia|].
  intros H. rewrite IH; lia.
Qed.

Lemma substring0_app n (s t : string) :
  n ≤ String.length s → substring0 n (s +:+ t) = substring0 n s.
Proof.
  revert s. induction n as [|n IH]; intros [|c s]; cbn; try done; [lia|].
  intros H. rewrite string_app_cons. cbn. rewrite IH; [done|lia].
Qed.

Lemma substring0_all n (s : string) :
  String.length s ≤ n → substring0 n s = s.
Proof.
  revert s. induction n as [|n IH]; intros [|c s]; cbn; try done; [lia|].
  intros H. rewrite IH; [done|lia].
Qed.

(** X7: [truncate] never returns more than [maxLength + 3] characters,
    returns a text that is short enough as it is, and is idempotent: a
    text that was cut is cut again at the same place.  [capTextLength] of
    the serializer is the same function. *)
Theorem truncate_is_bounded_and_idempotent :
  ∀ text maxLength,
    String.length (truncate text maxLength) ≤ maxLength + 3
    ∧ (String.length text ≤ maxLength → truncate text maxLength = text)
    ∧ truncate (truncate text maxLength) maxLength = truncate text maxLength
    ∧ Serializer.capTextLength text maxLength = truncate text maxLength.
Proof.
  intros text n. unfold truncate, Serializer.capTextLength.
  destruct (n <? String.length text) eqn:Hlen.
  - apply Nat.ltb_lt in Hlen.
    assert (String.length (substring0 n text +:+ "...") = n + 3) as Hcut.
    { rewrite string_length_app, substring0_length by lia. done. }
    split; [lia|]. split; [|split; [|done]].
    + intros ?. lia.
    + rewrite Hcut.
      assert ((n <? n + 3) = true) as -> by (apply Nat.ltb_lt; lia).
      rewrite substring0_app by (rewrite substring0_length; lia).
      rewrite (substring0_all n (substring0 n text)); [done|].
      rewrite substring0_length; lia.
  - rewrite Hlen. apply Nat.ltb_ge in Hlen. repeat split; try done; lia.
Qed.

Lemma trim_keeps_no_LF (l : string) :
  has_char LF l = false → has_char LF (trim l) = false.
Proof.
  intros Hl. destruct (has_char LF (trim l)) eqn:Ht; [|done].
  apply trim_has_char in Ht. congruence.
Qed.

(** X8: [trimLines] trims line by line: the lines of the result are the
    trimmed lines of the text, as many as before, none of which begins or
    ends with white space any more, so that trimming the lines a second
    time changes nothing. *)
Theorem trimLines_trims_every_line :
  ∀ text,
    ElementTextMap.split_lines (trimLines text)
    = trim <$> ElementTextMap.split_lines text
    ∧ Forall (λ l, trim l = l ∧ starts_black l = true ∧ ends_black l = true)
             (ElementTextMap.split_lines (trimLines text))
    ∧ trimLines (trimLines text) = trimLines text.
Proof.
  intros text.
  assert (ElementTextMap.split_lines (trimLines text)
          = trim <$> ElementTextMap.split_lines text) as Hlines.
  { unfold trimLines. apply split_lines_join_id.
    - pose proof (split_lines_not_nil text).
      by destruct (ElementTextMap.split_lines text).
    - apply Forall_fmap. eapply Forall_impl; [apply split_lines_has_no_LF|].
      intros l. apply trim_keeps_no_LF. }
  split; [done|]. split.
  - rewrite Hlines. apply Forall_fmap, Forall_forall. intros l _. cbn.
    split; [apply trim_idempotent|apply trim_black].
  - unfold trimLines at 1. rewrite Hlines. unfold trimLines. f_equal.
    rewrite <- list_fmap_compose. apply list_fmap_ext.
    intros i l _. apply trim_idempotent.
Qed.

(** *** [randomID] *)

Lemma list_find_cons_false {A} (P : A → Prop) `{∀ x, Decision (P x)} x l :
  ¬ P x → list_find P (x :: l) = prod_map S id <$> list_find P l.
Proof. intros Hx. cbn. by rewrite decide_False. Qed.

Lemma randomID_while_spec random existingIDs : ∀ n t fuel,
  t + n = S MAX_TRY →
  0 < n ≤ fuel →
  randomID_while random existingIDs fuel (random t) t
  = Some (match list_find (λ k, random k ∉ existingIDs) (seq t n) with
          | Some (_, k) => Return (random k)
          | None => Throw "Error: randomID: too many try"
          end).
Proof.
  induction n as [|n IH]; intros t fuel Ht [Hpos Hfuel]; [lia|].
  destruct fuel as [|fuel]; [lia|]. cbn [randomID_while seq].
  case_bool_decide as Hin.
  - rewrite list_find_cons_false by (by intros ?).
    destruct (MAX_TRY <? S t) eqn:Hmax.
    + apply Nat.ltb_lt in Hmax. assert (n = 0) as -> by lia. done.
    + apply Nat.ltb_ge in Hmax. rewrite IH by lia.
      by destruct (list_find _ (seq (S t) n)) as [[i k]|].
  - cbn. by rewrite decide_True.
Qed.

(** X9: [randomID] with a list of ids returns the first of the draws
    number 0 to [MAX_TRY] that is not in the list, and throws when all of
    these are in it; the draw number [MAX_TRY + 1], which the last turn of
    the loop makes, is never looked at.  It always returns or throws. *)
Theorem randomID_returns_the_first_free_draw :
  ∀ random existingIDs,
    randomID random (Some existingIDs)
    = Some (match list_find (λ k, random k ∉ existingIDs)
                            (seq 0 (S MAX_TRY)) with
            | Some (_, k) => Return (random k)
            | None => Throw "Error: randomID: too many try"
            end).
Proof.
  intros random existingIDs. unfold randomID.
  apply randomID_while_spec; [done|lia].
Qed.

(** *** [uid] *)

Lemma pretty_N_char_not_underscore d : Ascii.eqb (pretty_N_char d) "_" = false.
Proof. unfold pretty_N_char. by repeat case_match. Qed.

Lemma pretty_N_go_no_underscore (x : N) : ∀ s,
  has_char "_" (pretty_N_go x s) = has_char "_" s.
Proof.
  induction (N.lt_wf_0 x) as [x _ IH]; intros s.
  destruct (decide (x = 0)%N) as [->|Hx]; [by rewrite pretty_N_go_0|].
  rewrite pretty_N_go_step by lia.
  rewrite IH by (apply N.div_lt; lia). cbn.
  by rewrite pretty_N_char_not_underscore.
Qed.

Lemma pretty_N_no_underscore (x : N) : has_char "_" (pretty x) = false.
Proof.
  unfold pretty, pretty_N. case_decide; [done|].
  by rewrite pretty_N_go_no_underscore.
Qed.

Lemma pretty_Z_no_underscore (x : Z) : has_char "_" (pretty x) = false.
Proof.
  destruct x as [|p|p]; [done| |].
  - apply (pretty_N_no_underscore (N.pos p)).
  - change (pretty (Z.neg p)) with ("-" +:+ pretty (N.pos p)).
    rewrite has_char_app. cbn. apply (pretty_N_no_underscore (N.pos p)).
Qed.

Lemma string_split_at c (a a' b b' : string) :
  has_char c a = false → has_char c a' = false →
  a +:+ String c b = a' +:+ String c b' → a = a' ∧ b = b'.
Proof.
  revert a'. induction a as [|x a IH]; intros [|x' a'] Ha Ha'.
  - rewrite !string_app_nil_l. by intros [= ->].
  - rewrite string_app_nil_l, string_app_cons. intros [= <- _].
    cbn in Ha'. by rewrite Ascii.eqb_refl in Ha'.
  - rewrite string_app_nil_l, string_app_cons. intros [= -> _].
    cbn in Ha. by rewrite Ascii.eqb_refl in Ha.
  - rewrite !string_app_cons. intros [= -> Heq].
    cbn in Ha, Ha'. apply orb_false_elim in Ha as [_ Ha].
    apply orb_false_elim in Ha' as [_ Ha'].
    destruct (IH a' Ha Ha' Heq) as [-> ->]. done.
Qed.

Lemma uid_candidate_inj now now' counter counter' :
  uid_candidate now counter = uid_candidate now' counter' →
  now = now' ∧ counter = counter'.
Proof.
  unfold uid_candidate. intros Heq.
  apply (inj (String.app "pw_")) in Heq.
  apply string_split_at in Heq as [Hnow Hcounter];
    [|apply pretty_Z_no_underscore..].
  split; by apply (inj pretty).
Qed.

Lemma uid_fresh clock st :
  uid_inv st →
  let id := uid_candidate (clock (idCounter st)) (idCounter st) in
  let st' := {| idCounter := S (idCounter st);
                existingIDs := existingIDs st ++ [id] |} in
  uid clock 1 st = Some (id, st') ∧ (id ∉ existingIDs st) ∧ uid_inv st'.
Proof.
  intros Hinv id st'.
  assert (id ∉ existingIDs st) as Hfresh.
  { intros (now & counter & Heq & Hlt)%Hinv.
    apply uid_candidate_inj in Heq as [_ <-]. lia. }
  split; [|split; [done|]].
  - cbn. by rewrite bool_decide_eq_false_2.
  - intros id' [Hold| ->%list_elem_of_singleton]%elem_of_app.
    + destruct (Hinv id' Hold) as (now & counter & -> & Hlt).
      exists now, counter. split; [done|]. cbn. lia.
    + exists (clock (idCounter st)), (idCounter st). split; [done|]. cbn. lia.
Qed.

Lemma uids_spec clock : ∀ n st,
  uid_inv st →
  NoDup (existingIDs st) →
  ∃ ids st',
    uids clock n st = Some (ids, st')
    ∧ length ids = n
    ∧ existingIDs st' = existingIDs st ++ ids
    ∧ NoDup (existingIDs st')
    ∧ idCounter st' = idCounter st + n.
Proof.
  induction n as [|n IH]; intros st Hinv Hnd.
  - exists [], st. cbn. rewrite app_nil_r. repeat split; [done|lia].
  - destruct (uid_fresh clock st Hinv) as (Huid & Hfresh & Hinv').
    cbn zeta in Huid, Hinv'.
    set (id := uid_candidate (clock (idCounter st)) (idCounter st)) in *.
    set (st1 := {| idCounter := S (idCounter st);
                   existingIDs := existingIDs st ++ [id] |}) in *.
    destruct (IH st1 Hinv') as (ids & st' & Hrest & Hlen & Hex & Hnd' & Hc).
    { cbn. apply NoDup_app. split; [done|].
      split; [|apply NoDup_singleton].
      intros x Hx ->%list_elem_of_singleton. done. }
    exists (id :: ids), st'. cbn [uids]. rewrite Huid. cbn. rewrite Hrest. cbn.
    repeat split; [by rewrite Hlen| |done|].
    + rewrite Hex. cbn. by rewrite <- app_assoc.
    + rewrite Hc. cbn. lia.
Qed.

(** X10: [uid] hands out ids that are unique within the process: any
    number of calls, whatever the clock shows, return ids that differ from
    each other, each call after a single turn of its [do ... while],
    because the counter in the id never comes back. *)
Theorem uid_hands_out_distinct_ids :
  ∀ clock n,
    ∃ ids st,
      uids clock n uid_start = Some (ids, st)
      ∧ length ids = n
      ∧ NoDup ids
      ∧ existingIDs st = ids
      ∧ idCounter st = n.
Proof.
  intros clock n.
  destruct (uids_spec clock n uid_start) as (ids & st & H & Hlen & Hex & Hnd & Hc).
  - intros id Hid. by inversion Hid.
  - constructor.
  - exists ids, st. cbn in Hex, Hc. rewrite Hex in Hnd. by rewrite Hex.
Qed.

End UtilsProps.

(** ** The element text map on the lines of the serializer *)

Section TextMapProps.
Import Js Serializer ElementTextMap.

(** *** Decimal numerals *)

Lemma pretty_N_char_digit d :
  (d < 10)%N → Ascii.is_nat (pretty_N_char d) = Some (N.to_nat d).
Proof.
  intros Hd.
  assert (d = 0 ∨ d = 1 ∨ d = 2 ∨ d = 3 ∨ d = 4 ∨ d = 5 ∨ d = 6 ∨ d = 7
          ∨ d = 8 ∨ d = 9)%N as Hcases by lia.
  by repeat (destruct Hcases as [->|Hcases]; [done|]); subst.
Qed.

Lemma pretty_N_go_chars (x : N) : ∀ s c,
  has_char c (pretty_N_go x s) = true →
  is_digit c = true ∨ has_char c s = true.
Proof.
  induction (N.lt_wf_0 x) as [x _ IH]; intros s c.
  destruct (decide (x = 0)%N) as [->|Hx]; [rewrite pretty_N_go_0; auto|].
  rewrite pretty_N_go_step by lia. intros Hc.
  apply IH in Hc as [Hc|Hc]; [by left| |apply N.div_lt; lia]. cbn in Hc.
  apply orb_true_iff in Hc as [Hc|Hc]; [|by right].
  left. apply Ascii.eqb_eq in Hc as <-. unfold is_digit.
  rewrite pretty_N_char_digit by (apply N.mod_lt; lia).
  apply bool_decide_eq_true. by eexists.
Qed.

Lemma pretty_nat_chars (n : nat) c :
  has_char c (pretty n) = true → is_digit c = true.
Proof.
  unfold pretty, pretty_nat, pretty, pretty_N. case_decide.
  - cbn [has_char]. rewrite orb_false_r. by intros <-%Ascii.eqb_eq.
  - intros [?|?]%pretty_N_go_chars; done.
Qed.

Lemma pretty_N_go_not_nil (y : N) : ∀ s, s ≠ "" → pretty_N_go y s ≠ "".
Proof.
  induction (N.lt_wf_0 y) as [y _ IH]; intros s Hs.
  destruct (decide (y = 0)%N) as [->|Hy]; [by rewrite pretty_N_go_0|].
  rewrite pretty_N_go_step by lia. apply IH; [apply N.div_lt; lia|done].
Qed.

Lemma pretty_nat_not_nil (n : nat) : pretty n ≠ "".
Proof.
  unfold pretty, pretty_nat, pretty, pretty_N. case_decide; [done|].
  rewrite pretty_N_go_step by lia. by apply pretty_N_go_not_nil.
Qed.

Lemma parseInt_pretty_N_go (x : N) : ∀ s,
  foldl (λ acc c, 10 * acc + default 0 (Ascii.is_nat c)) 0
        (list_ascii_of_string (pretty_N_go x s))
  = foldl (λ acc c, 10 * acc + default 0 (Ascii.is_nat c)) (N.to_nat x)
          (list_ascii_of_string s).
Proof.
  induction (N.lt_wf_0 x) as [x _ IH]; intros s.
  destruct (decide (x = 0)%N) as [->|Hx]; [by rewrite pretty_N_go_0|].
  rewrite pretty_N_go_step by lia. rewrite IH by (apply N.div_lt; lia).
  cbn [list_ascii_of_string foldl]. f_equal.
  rewrite pretty_N_char_digit by (apply N.mod_lt; lia). cbn [default].
  assert (x = 10 * (x `div` 10) + x `mod` 10)%N as Hdm
    by (apply N.div_mod; lia).
  revert Hdm. generalize (x `div` 10)%N (x `mod` 10)%N. intros q r. unfold id. lia.
Qed.

(** [parseInt] reads back the numeral that was printed. *)
Lemma parseInt_pretty (n : nat) : parseInt (pretty n) = n.
Proof.
  unfold parseInt.
  unfold pretty, pretty_nat, pretty, pretty_N. case_decide as Hn.
  - cbn. lia.
  - rewrite parseInt_pretty_N_go. cbn. lia.
Qed.

(** *** The first line of an element line *)

Lemma span_app_stop (p : ascii → bool) (a : string) x (b : string) :
  (∀ c, has_char c a = true → p c = true) →
  p x = false →
  span p (a +:+ String x b) = (a, String x b).
Proof.
  intros Ha Hx. induction a as [|c a IH].
  - rewrite string_app_nil_l. cbn. by rewrite Hx.
  - rewrite string_app_cons. cbn [span].
    rewrite (Ha c) by (cbn; by rewrite Ascii.eqb_refl).
    rewrite IH; [done|]. intros c' Hc'. apply Ha. cbn.
    by rewrite Hc', orb_true_r.
Qed.

Lemma closes_before_LF_skip (P s : string) :
  has_char ">" P = false → has_char LF P = false →
  closes_before_LF (P +:+ s) = closes_before_LF s.
Proof.
  induction P as [|c P IH]; [done|]. cbn [has_char].
  intros [Hc HP]%orb_false_elim [Hc' HP']%orb_false_elim.
  rewrite string_app_cons. cbn [closes_before_LF].
  unfold LF in Hc'. rewrite Hc, Hc'. by apply IH.
Qed.

Lemma closes_before_LF_split (s : string) :
  closes_before_LF s = true →
  ∃ a b, s = a +:+ String ">" b
         ∧ has_char ">" a = false ∧ has_char LF a = false.
Proof.
  induction s as [|c s IH]; [done|]. cbn [closes_before_LF].
  destruct (Ascii.eqb c ">") eqn:Hc.
  - apply Ascii.eqb_eq in Hc as ->. intros _. by exists "", s.
  - destruct (Ascii.eqb c "010") eqn:Hc'; [done|].
    intros (a & b & -> & Ha & Ha')%IH.
    exists (String c a), b. rewrite string_app_cons. split; [done|].
    cbn [has_char]. unfold LF in *. by rewrite Hc, Hc', Ha, Ha'.
Qed.

Lemma split_lines_app_head (P s : string) :
  has_char LF P = false →
  split_lines (P +:+ s)
  = match split_lines s with
    | l :: ls => (P +:+ l) :: ls
    | [] => []
    end.
Proof.
  induction P as [|c P IH].
  - intros _. rewrite string_app_nil_l. by destruct (split_lines s).
  - cbn [has_char]. intros [Hc HP]%orb_false_elim.
    rewrite string_app_cons, split_lines_cons, Hc, IH by done.
    by destruct (split_lines s).
Qed.

Lemma trimStart_tabs depth (s : string) :
  trimStart (repeat_tab depth +:+ s) = trimStart s.
Proof.
  induction depth as [|depth IH]; [done|].
  cbn [repeat_tab]. rewrite string_app_cons. cbn [trimStart is_white]. exact IH.
Qed.

Lemma trimEnd_app_black (a b : string) :
  trimEnd b ≠ "" → trimEnd (a +:+ b) = a +:+ trimEnd b.
Proof.
  intros Hb. induction a as [|c a IH]; [done|].
  rewrite !string_app_cons, trimEnd_cons, IH.
  destruct (a +:+ trimEnd b) as [|x y] eqn:Hab; [|done].
  destruct a; [|done]. by rewrite string_app_nil_l in Hab.
Qed.

Lemma no_char_lookup c (s : string) :
  has_char c s = false → ∀ x, has_char x s = true → x ≠ c.
Proof. intros Hc x Hx ->. congruence. Qed.

Lemma match_index_line index (a t : string) :
  a ≠ "" →
  has_char ">" a = false →
  match_index ("[" +:+ pretty index +:+ "]<" +:+ a +:+ String ">" t)
  = Some index.
Proof.
  intros Ha Hgt.
  change ("[" +:+ pretty index +:+ "]<" +:+ a +:+ String ">" t)
    with (String "[" (pretty index +:+ String "]" (String "<" (a +:+ String ">" t)))).
  cbn [match_index].
  rewrite span_app_stop; [|apply pretty_nat_chars|done].
  rewrite bool_decide_eq_false_2 by apply pretty_nat_not_nil.
  rewrite span_app_stop.
  - rewrite bool_decide_eq_false_2 by done. by rewrite parseInt_pretty.
  - intros c Hc. apply negb_true_iff.
    destruct (Ascii.eqb c ">") eqn:Heq; [|done].
    apply Ascii.eqb_eq in Heq as ->. congruence.
  - done.
Qed.

(** Every element line has the index in brackets, a less-than sign, the
    tag and a space after its indentation. *)
Lemma element_line_shape keys depth e index text :
  te_isNew e = false →
  ∃ rest,
    element_line keys depth e index text
    = repeat_tab depth +:+ "[" +:+ pretty index +:+ "]<"
        +:+ te_tagName e +:+ String " " rest.
Proof.
  intros Hnew. unfold element_line. rewrite Hnew.
  set (attrs := attributesHtmlStr (retained_attributes keys e text)).
  destruct (bool_decide (attrs = "")), (te_extra e) as [[[|] sd]|],
    (bool_decide (text = ""));
    cbn [scrollable]; rewrite ?string_app_assoc;
    eexists; do 4 f_equal;
    change ("]" +:+ "<" +:+ ?x) with ("]<" +:+ x);
    try reflexivity.
Qed.

Lemma has_char_tabs c depth :
  Ascii.eqb "009" c = false → has_char c (repeat_tab depth) = false.
Proof.
  intros Hc. induction depth as [|depth IH]; [done|].
  cbn [repeat_tab has_char]. by rewrite Hc, IH.
Qed.

Lemma has_char_pretty c (n : nat) :
  is_digit c = false → has_char c (pretty n) = false.
Proof.
  intros Hc. destruct (has_char c (pretty n)) eqn:H; [|done].
  apply pretty_nat_chars in H. congruence.
Qed.

Lemma trimEnd_cons_black c (s : string) :
  is_white c = false → trimEnd (String c s) = String c (trimEnd s).
Proof. intros Hc. rewrite trimEnd_cons, Hc. by destruct (trimEnd s). Qed.

(** The first physical line of an element line, once trimmed, matches
    the pattern of [getElementTextMap] with the index of the line, when
    the tag does not begin with a greater-than sign and a greater-than
    sign comes before any line feed. *)
Lemma element_line_first_line keys depth e index text :
  te_isNew e = false →
  (∀ r, te_tagName e ≠ String ">" r) →
  closes_before_LF (element_line keys depth e index text) = true →
  ∃ l1 rest,
    split_lines (element_line keys depth e index text) = l1 :: rest
    ∧ match_index (trim l1) = Some index.
Proof.
  intros Hnew Htag Hcloses.
  destruct (element_line_shape keys depth e index text Hnew) as [rest0 HL].
  rewrite HL in Hcloses |- *.
  set (body := te_tagName e +:+ String " " rest0) in *.
  set (P := repeat_tab depth +:+ "[" +:+ pretty index +:+ "]<").
  assert (repeat_tab depth +:+ "[" +:+ pretty index +:+ "]<" +:+ body
          = P +:+ body) as HP.
  { unfold P. by rewrite !string_app_assoc. }
  rewrite HP in Hcloses |- *.
  assert (∀ c, Ascii.eqb "009" c = false → is_digit c = false →
               Ascii.eqb "[" c = false → Ascii.eqb "]" c = false →
               Ascii.eqb "<" c = false → has_char c P = false) as HcP.
  { intros c H1 H2 H3 H4 H5. unfold P. rewrite !has_char_app.
    rewrite has_char_tabs, has_char_pretty by done. cbn [has_char].
    by rewrite H3, H4, H5. }
  rewrite closes_before_LF_skip in Hcloses by (by apply HcP).
  apply closes_before_LF_split in Hcloses as (a & b & Hbody & Hgt & Hlf).
  assert (a ≠ "") as Ha.
  { intros ->. rewrite string_app_nil_l in Hbody. unfold body in Hbody.
    destruct (te_tagName e) as [|c t] eqn:Ht.
    - by rewrite string_app_nil_l in Hbody.
    - rewrite string_app_cons in Hbody. injection Hbody as -> _.
      by apply (Htag t). }
  rewrite Hbody.
  pose proof (split_lines_not_nil b) as Hb.
  destruct (split_lines b) as [|b1 ls] eqn:Hsplit; [done|].
  exists (P +:+ a +:+ String ">" b1), ls. split.
  - replace (P +:+ a +:+ String ">" b) with ((P +:+ a +:+ ">") +:+ b).
    2:{ by rewrite !string_app_assoc. }
    rewrite split_lines_app_head, Hsplit.
    + by rewrite !string_app_assoc.
    + rewrite !has_char_app, Hlf, HcP by done. done.
  - unfold P. rewrite !string_app_assoc. unfold trim.
    rewrite trimStart_tabs.
    change ("[" +:+ ?x) with (String "[" x). cbn [trimStart is_white].
    change (String "[" ?x) with ("[" +:+ x).
    replace ("[" +:+ pretty index +:+ "]<" +:+ a +:+ String ">" b1)
      with (("[" +:+ pretty index +:+ "]<" +:+ a) +:+ String ">" b1)
      by (by rewrite !string_app_assoc).
    rewrite trimEnd_app_black.
    2:{ by rewrite trimEnd_cons_black. }
    rewrite trimEnd_cons_black by done. rewrite !string_app_assoc.
    by apply match_index_line.
Qed.

(** *** The map *)

Lemma getElementTextMap_fold lines : ∀ (acc : gmap nat string) l index,
  l ∈ lines →
  match_index l = Some index →
  (∀ i x, acc !! i = Some x → match_index x = Some i) →
  ∃ l', foldl (λ (elementTextMap : gmap nat string) line,
                 match match_index line with
                 | Some index => <[index := line]> elementTextMap
                 | None => elementTextMap
                 end) acc lines !! index = Some l'
        ∧ match_index l' = Some index.
Proof.
  induction lines as [|x lines IH] using rev_ind; intros acc l index Hl Hm Hacc;
    [by inversion Hl|].
  rewrite foldl_app. cbn [foldl].
  assert (∀ acc0 : gmap nat string,
            (∀ i x, acc0 !! i = Some x → match_index x = Some i) →
            ∀ ls i y,
              foldl (λ (elementTextMap : gmap nat string) line,
                       match match_index line with
                       | Some index => <[index := line]> elementTextMap
                       | None => elementTextMap
                       end) acc0 ls !! i = Some y →
              match_index y = Some i) as Hinv.
  { intros acc0 Hacc0 ls. revert acc0 Hacc0.
    induction ls as [|z ls IHls]; intros acc0 Hacc0 i y; [apply Hacc0|].
    cbn [foldl]. apply IHls. intros j u.
    destruct (match_index z) as [k|] eqn:Hz; [|apply Hacc0].
    destruct (decide (k = j)) as [->|Hne].
    - rewrite lookup_insert_eq. by intros [= <-].
    - rewrite lookup_insert_ne by done. apply Hacc0. }
  destruct (match_index x) as [k|] eqn:Hx.
  - destruct (decide (k = index)) as [->|Hne].
    + rewrite lookup_insert_eq. by exists x.
    + rewrite lookup_insert_ne by done.
      apply elem_of_app in Hl as [Hl|Hl%list_elem_of_singleton].
      * by eapply IH.
      * subst. congruence.
  - apply elem_of_app in Hl as [Hl|Hl%list_elem_of_singleton].
    + by eapply IH.
    + subst. congruence.
Qed.

Lemma match_index_not_nil l index : match_index l = Some index → l ≠ "".
Proof. by intros H ->. Qed.

(** X16: the element text map has an entry for every element line of
    the serializer whose first physical line holds the greater-than sign
    that closes the tag part: the text of an indexed element is found
    under its index, and what is found under an index is a line that
    carries this index. *)
Theorem element_lines_are_found_by_index :
  ∀ keys parents root depth0 depth e index text,
    ElementLine (element_line keys depth e index text)
      ∈ processNode keys parents root depth0 →
    te_isNew e = false →
    (∀ r, te_tagName e ≠ String ">" r) →
    closes_before_LF (element_line keys depth e index text) = true →
    ∃ l,
      getElementTextMap
        (join newline
           (line_string <$> processNode keys parents root depth0))
      !! index = Some l
      ∧ match_index l = Some index.
Proof.
  intros keys parents root depth0 depth e index text Hin Hnew Htag Hcloses.
  destruct (element_line_first_line keys depth e index text Hnew Htag Hcloses)
    as (l1 & rest & Hsplit & Hmatch).
  set (ls := line_string <$> processNode keys parents root depth0).
  assert (element_line keys depth e index text ∈ ls) as Hls.
  { unfold ls. apply list_elem_of_fmap.
    by exists (ElementLine (element_line keys depth e index text)). }
  assert (l1 ∈ split_lines (join newline ls)) as Hl1.
  { rewrite split_lines_join by (by intros ->; inversion Hls).
    apply (elem_of_concat_intro _ (l1 :: rest)); [left|].
    rewrite <- Hsplit. by apply list_elem_of_fmap_2. }
  unfold getElementTextMap.
  eapply getElementTextMap_fold; [|exact Hmatch|by intros ??; rewrite lookup_empty].
  apply list_elem_of_filter. split.
  - apply match_index_not_nil in Hmatch.
    destruct (trim l1); [done|]. cbn. lia.
  - by apply list_elem_of_fmap_2.
Qed.

End TextMapProps.

(** ** The other actions of the controller *)

Section ActionProps.
Import Playwright.

Local Ltac run_action :=
  unfold Controller.inputText, Controller.selectOption, Controller.scroll,
    Controller.scrollHorizontally, Controller.executeJavascript,
    Actions.inputTextElement, Actions.selectOptionElement,
    Actions.scrollVertically, Actions.scrollHorizontally,
    Actions.executeJavascript, Actions.scroll_within,
    on_locator, try_catch, bind, throw, ret, call.

(** X18: an index that the selector map does not have.  [inputText] and
    [selectOption] report it as a failure, with the message of
    [clickElement], and make no call on the page; [scroll] and
    [scrollHorizontally] do not report it at all: they go on as if no index
    had been given, and scroll the page. *)
Theorem unknown_index_in_the_other_actions :
  ∀ env c index,
    selectorMap c !! index = None →
    (∀ text calls,
       Controller.inputText env c index text calls
       = (Resolve {| success := false;
                     message := "❌ Failed to input text: Error: No interactive element found at index "
                                  +:+ pretty index |}, calls))
    ∧ (∀ optionText calls,
         Controller.selectOption env c index optionText calls
         = (Resolve {| success := false;
                       message := "❌ Failed to select option: Error: No interactive element found at index "
                                    +:+ pretty index |}, calls))
    ∧ (∀ down numPages pixels calls,
         Controller.scroll env c down numPages pixels (Some index) calls
         = Controller.scroll env c down numPages pixels None calls)
    ∧ (∀ right pixels calls,
         Controller.scrollHorizontally env c right pixels (Some index) calls
         = Controller.scrollHorizontally env c right pixels None calls).
Proof.
  intros env c index Hnone. split; [|split; [|split]]; intros; run_action;
    cbn [mbind option_bind]; rewrite Hnone; cbn; try reflexivity.
  all: unfold Controller.not_found; by rewrite ?string_app_assoc.
Qed.

(** X19: a dropdown without options.  When the element is scrolled into
    view and its options are counted as zero, [selectOption] makes these
    two calls and no other, so nothing is selected; the result is a success
    all the same and its message says that the option was selected, as the
    message of the skipped action is not passed on. *)
Theorem select_without_options_reports_a_selection :
  ∀ env c index node l optionText calls v q,
    selectorMap c !! index = Some node →
    locator node = Some l →
    answer env calls (ScrollIntoViewIfNeeded l) = Resolve v →
    answer env (calls ++ [ScrollIntoViewIfNeeded l]) (CountOptions l)
      = Resolve (Number q) →
    (q == 0)%Q →
    Controller.selectOption env c index optionText calls
    = (Resolve {| success := true;
                  message := "✅ Selected option (" +:+ optionText
                               +:+ ") in element ("
                               +:+ Controller.elem_label c index +:+ ")." |},
       calls ++ [ScrollIntoViewIfNeeded l; CountOptions l]).
Proof.
  intros env c index node l optionText calls v q Hnode Hl Hview Hcount Hq.
  run_action. rewrite Hnode, Hl. cbn. rewrite Hview, Hcount.
  apply Qeq_bool_iff in Hq. rewrite Hq. cbn.
  by rewrite <- app_assoc.
Qed.

(** X20: the amount of a page scroll.  Without an index, [scroll] moves
    the page by [pixels] when they are given, and otherwise by [numPages]
    times the height of the viewport (800 when the page has none), down or
    up; when [pixels] are given the direction [down] changes nothing, for
    any index.  [scrollHorizontally] moves the page by [pixels] to the
    right and by [- pixels] to the left. *)
Theorem page_scroll_amounts :
  ∀ env c numPages calls,
    (∀ (down : bool) pixels v,
       let amount :=
         default (numPages * (if down then 1 else -1)
                  * default 800 (viewport_height env))%Q pixels in
       answer env calls (ScrollBy 0 amount) = Resolve v →
       Controller.scroll env c down numPages pixels None calls
       = (Resolve {| success := true;
                     message := "✅ Scrolled page by "
                                  +:+ number_toString env amount +:+ "px." |},
          calls ++ [ScrollBy 0 amount]))
    ∧ (∀ p index,
         Controller.scroll env c true numPages (Some p) index calls
         = Controller.scroll env c false numPages (Some p) index calls)
    ∧ (∀ (right : bool) pixels v,
         let dx := if right then pixels else (- pixels)%Q in
         answer env calls (ScrollBy dx 0) = Resolve v →
         Controller.scrollHorizontally env c right pixels None calls
         = (Resolve {| success := true;
                       message := "✅ Scrolled page horizontally by "
                                    +:+ number_toString env dx +:+ "px." |},
            calls ++ [ScrollBy dx 0])).
Proof.
  intros env c numPages calls. split; [|split].
  - intros down pixels v amount Hans. run_action. cbn. fold amount.
    by rewrite Hans.
  - reflexivity.
  - intros right pixels v dx Hans. run_action. cbn. fold dx.
    by rewrite Hans.
Qed.

(** X21: the scroll of a container.  For an index of the selector map
    whose three calls on the element resolve, with the numbers [b] and [a]
    as its scroll offset before and after: when the offset moved by more
    than half a pixel the page is not scrolled and the message gives the
    move [a - b]; when it moved by half a pixel or less the page is
    scrolled as well, by the whole amount. *)
Theorem scroll_of_a_container :
  ∀ env c (down : bool) numPages pixels index node l calls b a v,
    let amount :=
      default (numPages * (if down then 1 else -1)
               * default 800 (viewport_height env))%Q pixels in
    let within :=
      calls ++ [GetScrollTop l; AddScrollTop l amount; GetScrollTop l] in
    selectorMap c !! index = Some node →
    locator node = Some l →
    answer env calls (GetScrollTop l) = Resolve (Number b) →
    answer env (calls ++ [GetScrollTop l]) (AddScrollTop l amount)
      = Resolve v →
    answer env (calls ++ [GetScrollTop l; AddScrollTop l amount])
           (GetScrollTop l) = Resolve (Number a) →
    ((1 # 2 < Qabs (a - b))%Q →
     Controller.scroll env c down numPages pixels (Some index) calls
     = (Resolve {| success := true;
                   message := "✅ Scrolled container by "
                                +:+ number_toString env (a - b)%Q
                                +:+ "px." |}, within))
    ∧ ((Qabs (a - b) <= 1 # 2)%Q →
       ∀ v', answer env within (ScrollBy 0 amount) = Resolve v' →
       Controller.scroll env c down numPages pixels (Some index) calls
       = (Resolve {| success := true;
                     message := "✅ Scrolled page by "
                                  +:+ number_toString env amount
                                  +:+ "px." |},
          within ++ [ScrollBy 0 amount])).
Proof.
  intros env c down numPages pixels index node l calls b a v amount within
    Hnode Hl Hb Hadd Ha.
  assert ((calls ++ [GetScrollTop l]) ++ [AddScrollTop l amount]
          = calls ++ [GetScrollTop l; AddScrollTop l amount]) as E1
    by by rewrite <- app_assoc.
  assert ((calls ++ [GetScrollTop l; AddScrollTop l amount])
            ++ [GetScrollTop l] = within) as E2
    by by rewrite <- app_assoc.
  split.
  - intros Hmove. run_action. cbn. rewrite Hnode. cbn. rewrite Hl. cbn.
    fold amount. rewrite Hb, Hadd, E1, Ha, E2. unfold scrolled_by.
    destruct (Qle_bool (Qabs (a - b)) (1 # 2)) eqn:Hle; [|done].
    apply Qle_bool_iff in Hle. exfalso. by apply (Qle_not_lt _ _ Hle).
  - intros Hstill v' Hpage. run_action. cbn. rewrite Hnode. cbn.
    rewrite Hl. cbn. fold amount. rewrite Hb, Hadd, E1, Ha, E2.
    unfold scrolled_by. apply Qle_bool_iff in Hstill. rewrite Hstill.
    by rewrite Hpage.
Qed.

Lemma catch_reports prefix (body : M ActionResult) :
  (∀ calls r calls',
     body calls = (Resolve r, calls') →
     success r = false → ∃ error, message r = prefix +:+ error) →
  reports prefix
    (try_catch body
       (λ error, ret {| success := false; message := prefix +:+ error |})).
Proof.
  intros Hbody calls. unfold try_catch.
  destruct (body calls) as [[r|error] calls'] eqn:Hrun.
  - exists r, calls'. split; [done|]. by eapply Hbody.
  - eexists _, _. split; [done|]. intros _. by exists error.
Qed.

Lemma bind_resolves {A B} (m : M A) (f : A → M B) calls b calls' :
  bind m f calls = (Resolve b, calls') →
  ∃ a calls1, m calls = (Resolve a, calls1) ∧ f a calls1 = (Resolve b, calls').
Proof.
  unfold bind. destruct (m calls) as [[a|error] calls1]; [|done].
  intros Hf. by exists a, calls1.
Qed.

Lemma inputTextElement_reports env locator text :
  reports "❌ Failed to input text: "
          (Actions.inputTextElement env locator text).
Proof.
  apply catch_reports. intros calls r calls' Hrun Hfail.
  apply bind_resolves in Hrun as (? & ? & _ & Hrun).
  apply bind_resolves in Hrun as (? & ? & _ & Hrun).
  apply bind_resolves in Hrun as (? & ? & _ & Hrun).
  by injection Hrun as <- <-.
Qed.

Lemma selectOptionElement_reports env locator optionText :
  reports "❌ Failed to select option: "
          (Actions.selectOptionElement env locator optionText).
Proof.
  apply catch_reports. intros calls r calls' Hrun Hfail.
  apply bind_resolves in Hrun as (? & ? & _ & Hrun).
  apply bind_resolves in Hrun as (optionCount & ? & _ & Hrun).
  destruct optionCount as [|q|];
    [|destruct (Qeq_bool q 0); [by injection Hrun as <- <-|]|];
    apply bind_resolves in Hrun as (? & ? & _ & Hrun);
    by injection Hrun as <- <-.
Qed.

Lemma passed_on_reports prefix (action : M ActionResult) label :
  reports prefix action →
  ∀ calls r calls',
    bind action (λ result,
      ret {| success := success result;
             message := if success result then label
                        else message result |}) calls
    = (Resolve r, calls') →
    success r = false → ∃ error, message r = prefix +:+ error.
Proof.
  intros Haction calls r calls' Hrun Hfail.
  apply bind_resolves in Hrun as (result & calls1 & Hact & Hret).
  injection Hret as <- <-. cbn in Hfail. cbn [message]. rewrite Hfail.
  destruct (Haction calls) as (r' & calls2 & Hact' & Hmsg).
  rewrite Hact' in Hact. injection Hact as -> ->. by apply Hmsg.
Qed.

(** X22: no action of the controller rejects.  Whatever the page
    answers, [inputText], [selectOption], [scroll], [scrollHorizontally]
    and [executeJavascript] resolve with a result, and a result that is
    not a success has the failure message of the action, which ends with
    the string of the error. *)
Theorem controller_actions_catch_every_error :
  ∀ env c,
    (∀ index text,
       reports "❌ Failed to input text: "
               (Controller.inputText env c index text))
    ∧ (∀ index optionText,
         reports "❌ Failed to select option: "
                 (Controller.selectOption env c index optionText))
    ∧ (∀ down numPages pixels index,
         reports "❌ Failed to scroll: "
                 (Controller.scroll env c down numPages pixels index))
    ∧ (∀ right pixels index,
         reports "❌ Failed to scroll horizontally: "
                 (Controller.scrollHorizontally env c right pixels index))
    ∧ (∀ script,
         reports "❌ Error executing JavaScript: "
                 (Controller.executeJavascript env script)).
Proof.
  intros env c. split; [|split; [|split; [|split]]].
  - intros index text. apply catch_reports.
    destruct (selectorMap c !! index) as [node|]; [|done].
    apply passed_on_reports, inputTextElement_reports.
  - intros index optionText. apply catch_reports.
    destruct (selectorMap c !! index) as [node|]; [|done].
    apply passed_on_reports, selectOptionElement_reports.
  - intros down numPages pixels index. apply catch_reports.
    intros calls r calls' Hrun Hfail.
    apply bind_resolves in Hrun as (? & ? & _ & Hret).
    by injection Hret as <- <-.
  - intros right pixels index. apply catch_reports.
    intros calls r calls' Hrun Hfail.
    apply bind_resolves in Hrun as (? & ? & _ & Hret).
    by injection Hret as <- <-.
  - intros script. apply catch_reports.
    intros calls r calls' Hrun Hfail.
    apply bind_resolves in Hrun as (? & ? & _ & Hret).
    by injection Hret as <- <-.
Qed.

End ActionProps.

Section LoopInstances.
Import Agent.

Local Ltac run := vm_compute; reflexivity.

Lemma execute_settles_within_step_limit_witness :
  ∃ a',
    execute_with_hooks Sample.failing_hooks MAX_STEPS Sample.always_waits 51
                       Sample.agent
    = Some (Throw "Error: no report", a').
Proof.
  destruct (execute_settles_within_step_limit Sample.failing_hooks MAX_STEPS
              Sample.always_waits 51 Sample.agent)
    as (o & a' & Hex & _); [unfold MAX_STEPS; lia|].
  exists a'. rewrite Hex.
  vm_compute in Hex. injection Hex as <- _. reflexivity.
Defined.




Lemma third_wait_in_a_row_carries_the_note_witness :
  let w := Sample.always_waits in
  let i := Sample.first_input w in
  ∃ r1 a1 r2 a2 r3 a3 t3 result,
    macroTool_execute w 0 Sample.agent i = (Return r1, a1)
    ∧ macroTool_execute w 1 a1 i = (Return r2, a2)
    ∧ macroTool_execute w 2 a2 i = (Return r3, a3)
    ∧ totalWaitTime a3 = Int t3
    ∧ (3 ≤ t3)%Z
    ∧ mt_output r3 =
        result +:+ String "010"%char "<sys> You have waited "
          +:+ pretty t3 +:+ " seconds accumulatively."
          +:+ String "010"%char
                "Do NOT wait any longer unless you have a good reason."
          +:+ String "010"%char "" +:+ "</sys>".
Proof.
  intros w i.
  destruct (macroTool_execute w 0 Sample.agent i) as [[r1|] b1] eqn:H1;
    [|by vm_compute in H1].
  destruct (macroTool_execute w 1 b1 i) as [[r2|] b2] eqn:H2.
  2:{ vm_compute in H1. injection H1 as <- <-. by vm_compute in H2. }
  destruct (macroTool_execute w 2 b2 i) as [[r3|] b3] eqn:H3.
  2:{ vm_compute in H1. injection H1 as <- <-.
      vm_compute in H2. injection H2 as <- <-. by vm_compute in H3. }
  assert (Agent.valid_wait w 0 i ∧ Agent.valid_wait w 1 i
          ∧ Agent.valid_wait w 2 i) as (Hv1 & Hv2 & Hv3).
  { repeat split; try reflexivity; try (vm_compute; discriminate);
      exists 1%Q; repeat split; try reflexivity; vm_compute; discriminate. }
  pose proof (third_wait_in_a_row_carries_the_note w 0 1 2 Sample.agent
                b1 b2 b3 i i i r1 r2 r3 0%Z eq_refl ltac:(lia)
                Hv1 Hv2 Hv3 H1 H2 H3) as H.
  destruct H as (t3 & result & Ht3 & Hle & Hout).
  exists r1, b1, r2, b2, r3, b3, t3, result.
  split; [reflexivity|]. split; [exact H2|]. split; [exact H3|].
  split; [exact Ht3|]. split; [exact Hle|exact Hout].
Defined.

End LoopInstances.

Section WalkInstances.
Import Browser.

Lemma element_is_indexed_iff_addressable_witness :
  let ft :=
    (DomTree.getFlatTree Sample.window Sample.viewport_only
       Sample.document).1 in
  ∃ id nd i,
    map ft !! id = Some (ELEMENT nd)
    ∧ tagName nd = "a"
    ∧ highlightIndex nd = Some i
    ∧ attributes nd ≫= (.!! "target") = Some "_blank"
    ∧ locator nd = Some (DomTree.page_locator (DomTree.marker_selector i)).
Proof.
  intros ft.
  set (b := default Other (body (clean Sample.document))).
  set (element :=
         removeAttribute marker
           (Sample.element "A" [("href", "/x"); ("target", "_blank")] 5)).
  set (childNodes :=
         clean_node <$> [Text "more";
                         Elem (Sample.element "BUTTON" [] 5) [Text "ok"]]).
  destruct (element_is_indexed_iff_addressable
              Sample.window Sample.viewport_only Sample.document
              b element childNodes)
    as (id & nd & element' & cs' & b' & Hid & Htag & _ & _ & Hcase).
  - reflexivity.
  - eapply (DomTree.walked_child _ _ (Elem element childNodes)).
    + apply (bool_decide_unpack _). vm_compute. exact I.
    + apply list_elem_of_lookup. exists 1. reflexivity.
    + apply DomTree.walked_here.
  - apply (bool_decide_unpack _). vm_compute. exact I.
  - change (DomTree.addressable _ _ element) with true in Hcase.
    destruct Hcase as (i & Hi & _ & Hattrs & Hloc & _).
    exists id, nd, i. split; [done|]. split; [done|]. split; [done|].
    split; [|done]. rewrite Hattrs. reflexivity.
Defined.

Lemma snapshot_attributes_hold_no_marker_witness :
  let ft :=
    (DomTree.getFlatTree Sample.window Sample.whole_page Sample.document).1 in
  ∃ nd attrs,
    map ft !! 4 = Some (ELEMENT nd)
    ∧ tagName nd = "a"
    ∧ attributes nd = Some attrs
    ∧ attrs !! "target" = Some "_blank"
    ∧ attrs !! marker = None.
Proof.
  intros ft.
  destruct (map ft !! 4) as [[t|nd]|] eqn:Hk;
    [by vm_compute in Hk| |by vm_compute in Hk].
  destruct (snapshot_attributes_hold_no_marker _ _ _ 4 nd Hk)
    as (attrs & Ha & Hm & _).
  exists nd, attrs. split; [done|].
  vm_compute in Hk. injection Hk as <-.
  split; [reflexivity|]. split; [done|]. split; [|done].
  vm_compute in Ha. by injection Ha as <-.
Defined.

Lemma snapshot_texts_are_trimmed_and_not_empty_witness :
  let ft :=
    (DomTree.getFlatTree Sample.window Sample.whole_page Sample.document).1 in
  ∃ t, map ft !! 0 = Some (TEXT_NODE t)
       ∧ text t = "hello"
       ∧ Js.trim (text t) = text t.
Proof.
  intros ft.
  destruct (map ft !! 0) as [[t|nd]|] eqn:Hk;
    [|by vm_compute in Hk..].
  destruct (snapshot_texts_are_trimmed_and_not_empty _ _ _ 0 t Hk)
    as (_ & Htrim & _).
  exists t. split; [done|]. split; [|done].
  vm_compute in Hk. by injection Hk as <-.
Defined.

End WalkInstances.

(** ** Elements outside the viewport *)

Section ViewportSnapshotProps.
Import Browser.

Lemma with_locator_fields x nd :
  DomTree.with_locator x = ELEMENT nd →
  ∃ nd0, x = ELEMENT nd0
         ∧ isInteractive nd = isInteractive nd0
         ∧ highlightIndex nd = highlightIndex nd0.
Proof.
  destruct x as [t|nd0]; [done|]. cbn. intros Heq. exists nd0.
  split; [done|].
  destruct (isInteractive nd0) as [[|]|] eqn:Hi;
    destruct (highlightIndex nd0) as [j|] eqn:Hj; injection Heq as <-;
    cbn; by rewrite ?Hi, ?Hj.
Qed.

(** With an expansion that is not negative, the block "Check visibility
    and interactivity" never leaves an element interactive without an
    index. *)
Lemma classify_interactive_indexed w expansion element tag next nd element'
  next' :
  (0 ≤ expansion)%Z →
  DomTree.classify w expansion element (DomTree.nodeData_new tag) next
  = (nd, element', next') →
  isInteractive nd = Some true →
  is_Some (highlightIndex nd).
Proof.
  intros Hexp. unfold DomTree.classify.
  destruct (DomTree.isElementVisible element); [|by intros [= <- <- <-]].
  destruct (DomTree.isTopElement w element expansion) eqn:Htop;
    [|by intros [= <- <- <-]].
  apply topmost_in_viewport in Htop; [|done]. rewrite Htop.
  destruct (DomTree.isInteractiveElement element); intros [= <- <- <-]; [|done].
  by eexists.
Qed.

(** C9, as the code has it: when the viewport matters
    ([viewportExpansion >= 0]), an element that the walk comes to and
    that lies outside the expanded viewport is not topmost, because
    [document.elementFromPoint] has no answer at its centre; its entry in
    the snapshot has no [isInteractive], no [highlightIndex] and no
    locator, whatever the element is, it is left on the page without the
    marker attribute, and the selector map, all of whose entries carry the
    index they are filed under, has this node under no index.  And every
    entry of the snapshot that has [isInteractive = true] has an index, at
    which the selector map has an entry: the snapshot holds no node that
    is interactive but not indexed. *)
Theorem out_of_viewport_element_is_not_addressable :
  ∀ w config d b element childNodes,
    let expansion :=
      default VIEWPORT_EXPANSION (DomTree.viewportExpansion config) in
    (0 ≤ expansion)%Z →
    body (clean d) = Some b →
    DomTree.walked b (Elem element childNodes) →
    Js.toLowerCase (el_tagName element) ∉ DomTree.skipTags →
    DomTree.isInViewport w element expansion = false →
    let ft := (DomTree.getFlatTree w config d).1 in
    let d' := (DomTree.getFlatTree w config d).2 in
    DomTree.isTopElement w element expansion = false
    ∧ (∃ id nd,
         map ft !! id = Some (ELEMENT nd)
         ∧ tagName nd = Js.toLowerCase (el_tagName element)
         ∧ isTopElement nd ≠ Some true
         ∧ isInViewport nd ≠ Some true
         ∧ isInteractive nd = None
         ∧ highlightIndex nd = None
         ∧ locator nd = None
         ∧ ∀ i, SelectorMap.getSelectorMap ft !! i ≠ Some nd)
    ∧ (getAttribute marker element = None
       ∧ ∃ b' childNodes',
           body d' = Some b' ∧ Elem element childNodes' ∈ subtrees b')
    ∧ (∀ i nd, SelectorMap.getSelectorMap ft !! i = Some nd →
               highlightIndex nd = Some i)
    ∧ (∀ id nd,
         map ft !! id = Some (ELEMENT nd) →
         isInteractive nd = Some true →
         ∃ i, highlightIndex nd = Some i
              ∧ is_Some (SelectorMap.getSelectorMap ft !! i)).
Proof.
  intros w config d b element childNodes expansion Hexp Hbody Hwalked
    Hskip Hout ft d'.
  assert (∀ id nd,
            map ft !! id = Some (ELEMENT nd) →
            isInteractive nd = Some true →
            ∃ i, highlightIndex nd = Some i
                 ∧ is_Some (SelectorMap.getSelectorMap ft !! i)) as Hall.
  { intros id nd Hid Hint.
    destruct (getFlatTree_entries
                (λ _ x, ∀ nd0, x = ELEMENT nd0 →
                               isInteractive nd0 = Some true →
                               is_Some (highlightIndex nd0))
                (λ _, True) w config d) with (k := id) (x := ELEMENT nd)
      as (x0 & Hx0 & HP).
    - done.
    - intros k e next nd1 e' next' ids _ Hclass _ nd0 [= <-].
      fold expansion in Hclass.
      unfold DomTree.scrollability.
      destruct (DomTree.isScrollableElement e'); cbn;
        by apply (classify_interactive_indexed _ _ _ _ _ _ _ _ Hexp Hclass).
    - intros b0 _. apply Forall_forall. done.
    - done.
    - symmetry in Hx0.
      apply with_locator_fields in Hx0 as (nd0 & -> & Hi & Hj).
      rewrite Hi in Hint. destruct (HP nd0 eq_refl Hint) as [i Hidx].
      exists i. rewrite Hj. split; [done|].
      eapply getSelectorMap_complete; [exact Hid|by rewrite Hi|].
      by rewrite Hj. }
  subst ft d'.
  assert (markers b = []) as Hclean.
  { unfold clean in Hbody. cbn in Hbody.
    destruct (body d) as [b0|]; [|done]. injection Hbody as <-.
    apply markers_clean_node. }
  destruct (DomTree.buildDomTree w expansion b DomTree.walk_start)
    as [[root b'] s'] eqn:Hwalk.
  assert (DomTree.getFlatTree w config d
          = ({| rootId := default 0 root;
                map := DomTree.with_locator <$> DomTree.DOM_HASH_MAP s' |},
             {| outside := outside (clean d); body := Some b' |})) as Hft.
  { unfold DomTree.getFlatTree, DomTree.evaluate. fold expansion.
    by rewrite Hbody, Hwalk. }
  rewrite Hft in Hall |- *. cbn [fst snd] in Hall |- *.
  set (ft := {| rootId := default 0 root;
                map := DomTree.with_locator <$> DomTree.DOM_HASH_MAP s' |}) in *.
  assert (∀ i nd, SelectorMap.getSelectorMap ft !! i = Some nd →
                  highlightIndex nd = Some i) as Hsel.
  { intros i nd (id & _ & _ & Hi)%getSelectorMap_sound. done. }
  destruct (walked_call w expansion _ _ Hwalked _ _ _ _ Hwalk)
    as (s0 & id0 & n' & s0' & Hcall & Hsub & Hkeeps).
  destruct (buildDomTree_out_of_viewport w expansion element childNodes s0
              Hexp Hskip Hout)
    as (id & nd & cs' & s1 & Hcall' & Hid & Hlt & Hfields).
  rewrite Hcall' in Hcall. injection Hcall as <- <- <-.
  destruct Hkeeps as [_ Hkeeps].
  destruct Hfields as (Htag & Hv & Ht & Hiv & Hi & Hidx & Hloc).
  split; [|split; [|split; [|split; [exact Hsel|exact Hall]]]].
  - destruct (DomTree.isTopElement w element expansion) eqn:Htop; [|done].
    apply topmost_in_viewport in Htop; [congruence|done].
  - exists id, nd. cbn [map ft]. rewrite lookup_fmap, Hkeeps, Hid by done.
    cbn. rewrite Hi. split; [done|]. split; [done|].
    split; [rewrite Ht; by destruct (DomTree.isElementVisible element)|].
    split; [rewrite Hiv; by destruct (DomTree.isElementVisible element)|].
    split; [done|]. split; [done|]. split; [done|].
    intros i Hnd. apply (Hsel i nd) in Hnd. congruence.
  - split.
    + apply (walked_markers _ _ Hwalked) in Hclean.
      by apply markers_Elem_nil in Hclean as [? _].
    + by exists b', cs'.
Qed.

End ViewportSnapshotProps.

Section ViewportInstances.

Lemma out_of_viewport_element_is_not_addressable_witness :
  let ft :=
    (DomTree.getFlatTree Sample.window Sample.viewport_only
       Sample.document).1 in
  ∃ id nd,
    map ft !! id = Some (ELEMENT nd)
    ∧ tagName nd = "input"
    ∧ isInteractive nd = None
    ∧ highlightIndex nd = None
    ∧ locator nd = None
    ∧ ∀ i, SelectorMap.getSelectorMap ft !! i ≠ Some nd.
Proof.
  intros ft.
  set (b := default Browser.Other
              (Browser.body (Browser.clean Sample.document))).
  set (element :=
         Browser.removeAttribute Browser.marker
           (Sample.element "INPUT" [(Browser.marker, "0")] 2000)).
  destruct (out_of_viewport_element_is_not_addressable
              Sample.window Sample.viewport_only Sample.document
              b element [])
    as (_ & (id & nd & Hid & Htag & _ & _ & Hi & Hidx & Hloc & Hsel) & _).
  - vm_compute. discriminate.
  - reflexivity.
  - eapply (DomTree.walked_child _ _
              (Browser.Elem
                 (Browser.removeAttribute Browser.marker
                    (Sample.element "DIV" [] 2000))
                 [Browser.Elem element []])).
    + apply (bool_decide_unpack _). vm_compute. exact I.
    + apply list_elem_of_lookup. exists 3. reflexivity.
    + eapply DomTree.walked_child.
      * apply (bool_decide_unpack _). vm_compute. exact I.
      * left.
      * apply DomTree.walked_here.
  - apply (bool_decide_unpack _). vm_compute. exact I.
  - reflexivity.
  - exists id, nd. repeat split; try done.
Defined.

(** The page of the sample, taken with the expansion 0: its [<input>]
    is visible and passes the test for interactive elements, and it lies
    below the viewport; the hit test at its centre has no answer, the
    element is not topmost, and its entry in the snapshot has
    [isTopElement = false] and no [isInteractive]. *)
Lemma interactive_element_below_the_viewport_is_not_recorded_interactive :
  let element := Sample.element "INPUT" [] 2000 in
  let ft :=
    (DomTree.getFlatTree Sample.window Sample.viewport_only
       Sample.document).1 in
  DomTree.isElementVisible element = true
  ∧ DomTree.isInteractiveElement element = true
  ∧ DomTree.isInViewport Sample.window element 0 = false
  ∧ DomTree.isTopElement Sample.window element 0 = false
  ∧ ∃ nd,
      map ft !! 5 = Some (ELEMENT nd)
      ∧ tagName nd = "input"
      ∧ isVisible nd = Some true
      ∧ isTopElement nd = Some false
      ∧ isInteractive nd = None
      ∧ highlightIndex nd = None.
Proof.
  intros element ft.
  split; [reflexivity|]. split; [reflexivity|]. split; [reflexivity|].
  split; [reflexivity|].
  eexists. split; [vm_compute; reflexivity|].
  repeat split; reflexivity.
Qed.

End ViewportInstances.

Section TextMapInstances.
Import Serializer ElementTextMap.

Lemma element_lines_are_found_by_index_witness :
  ∃ l,
    getElementTextMap
      (Js.join newline
         (line_string <$>
            processNode DEFAULT_INCLUDE_ATTRIBUTES [] Sample.body_tree 0))
    !! 0 = Some l
    ∧ match_index l = Some 0.
Proof.
  apply (element_lines_are_found_by_index DEFAULT_INCLUDE_ATTRIBUTES []
           Sample.body_tree 0 0 (Sample.tree_element "a" (Some 0)) 0 "more").
  - vm_compute. right. left.
  - reflexivity.
  - intros r. vm_compute. discriminate.
  - vm_compute. reflexivity.
Defined.

End TextMapInstances.

Section ActionInstances.
Import Agent Playwright.

Lemma unknown_index_in_the_other_actions_witness :
  let c := playwrightController (Sample.refreshed Sample.clicks_7) in
  Controller.inputText Sample.quiet_page c 99 "hello" []
  = (Resolve {| success := false;
                message := "❌ Failed to input text: Error: No interactive element found at index 99" |},
     [])
  ∧ Controller.scroll Sample.quiet_page c true 1 None (Some 99) []
    = (Resolve {| success := true; message := "✅ Scrolled page by 600px." |},
       [ScrollBy 0 600]).
Proof.
  intros c.
  destruct (unknown_index_in_the_other_actions Sample.quiet_page c 99)
    as (Hinput & _ & Hscroll & _); [vm_compute; reflexivity|].
  split.
  - apply Hinput.
  - rewrite Hscroll. vm_compute. reflexivity.
Defined.

Lemma select_without_options_reports_a_selection_witness :
  let c := playwrightController (Sample.refreshed Sample.clicks_7) in
  ∃ l,
    Controller.selectOption Sample.quiet_page c 0 "red" []
    = (Resolve {| success := true;
                  message := "✅ Selected option (red) in element ([0]<a target=_blank>more />)." |},
       [ScrollIntoViewIfNeeded l; CountOptions l]).
Proof.
  intros c.
  set (node := default (DomTree.nodeData_new "") (selectorMap c !! 0)).
  set (l := default {| selector := "" |} (locator node)).
  exists l.
  apply (select_without_options_reports_a_selection Sample.quiet_page c 0
           node l "red" [] Undefined 0%Q); vm_compute; reflexivity.
Defined.

Lemma scroll_of_a_container_witness :
  let c := playwrightController (Sample.refreshed Sample.clicks_7) in
  ∃ l,
    Controller.scroll Sample.quiet_page c true 1 None (Some 0) []
    = (Resolve {| success := true;
                  message := "✅ Scrolled container by 600px." |},
       [GetScrollTop l; AddScrollTop l 600; GetScrollTop l]).
Proof.
  intros c.
  set (node := default (DomTree.nodeData_new "") (selectorMap c !! 0)).
  set (l := default {| selector := "" |} (locator node)).
  exists l.
  destruct (scroll_of_a_container Sample.quiet_page c true 1 None 0 node l
              [] 0%Q 600%Q Undefined) as [Hmoved _];
    [vm_compute; reflexivity..|].
  rewrite Hmoved; vm_compute; reflexivity.
Defined.

End ActionInstances.
